(** * A toy LWE (Regev) cryptosystem: lweService

    Shallow embedding of the key generation, encryption and decryption
    functions of the LWE service, together with the parts of the JavaScript
    platform they call (UTF-8 text encoding, base64, JSON).  The event
    handlers of the application that call the service, the byte cipher of
    [utils/crypto.ts] and the clock of the audio recorder are embedded as
    well.

    Conventions of the embedding.
    - A JavaScript number is a mathematical integer or [NaN], and sums,
      differences and products are written exactly.  The source computes in
      binary64: it gives the same numbers as long as every operand and every
      result is at most 2^53 in magnitude, and rounds beyond.  This range is
      never left with the parameters of the service (Q = 3329, N = 128,
      M = 256), the keys it generates and the public keys of its data model
      (entries in [0, Q)).  The statements of the part on the exact range
      bound the operands that come from outside (a ciphertext, a key typed
      in) and state that the range is not left; a statement that puts no
      bound on such operands is to be read within this range.  Non-integer
      numbers are outside the modelled fragment.
    - Reading an array out of range gives [undefined], which arithmetic
      coerces to [NaN].
    - The entropy source is a function from draw index to the raw value
      handed out by [crypto.getRandomValues]; [Date.now] is an argument.
    - A run ends with a value, with a thrown exception, or leaves the
      modelled fragment of the language. *)

From Stdlib Require Import String Ascii ZArith List Lia Bool.
Import ListNotations.
Open Scope Z_scope.

(** ** Numbers *)

Inductive num : Type :=
| Int (z : Z)
| NaN.

(** [a + b], [a - b] and [a * b] on integers, written exactly: the number of
    the source when the exact result is at most 2^53 in magnitude (the
    source rounds a larger one to the nearest binary64 number). *)
Definition add (a b : num) : num :=
  match a, b with Int x, Int y => Int (x + y) | _, _ => NaN end.

Definition sub (a b : num) : num :=
  match a, b with Int x, Int y => Int (x - y) | _, _ => NaN end.

Definition mul (a b : num) : num :=
  match a, b with Int x, Int y => Int (x * y) | _, _ => NaN end.

(** The [%] operator: remainder of the truncated division, with the sign of
    the dividend; [NaN] for a zero divisor. *)
Definition rem (a q : num) : num :=
  match a, q with
  | Int x, Int y => if y =? 0 then NaN else Int (Z.rem x y)
  | _, _ => NaN
  end.

(** Comparisons are false as soon as one side is [NaN]. *)
Definition lt (a b : num) : bool :=
  match a, b with Int x, Int y => x <? y | _, _ => false end.

Definition gt (a b : num) : bool :=
  match a, b with Int x, Int y => y <? x | _, _ => false end.

Definition abs (a : num) : num :=
  match a with Int x => Int (Z.abs x) | NaN => NaN end.

(** [Math.floor (a / b)] for integers [a] and a positive integer [b]. *)
Definition floor_div (a b : Z) : Z := a / b.

(** ** Outcomes of a run *)

Inductive exn : Type :=
| TypeError
| SyntaxError
| InvalidCharacterError
| Error (message : string).

Inductive result (A : Type) : Type :=
| Ok (a : A)
| Throw (e : exn)
| Unmodelled.

Arguments Ok {A} a.
Arguments Throw {A} e.
Arguments Unmodelled {A}.

Definition rbind {A B : Type} (r : result A) (k : A -> result B) : result B :=
  match r with
  | Ok a => k a
  | Throw e => Throw e
  | Unmodelled => Unmodelled
  end.

(** ** Types of the service (types.ts) *)

Definition Vector := list num.
Definition Matrix := list Vector.

Record PublicKey : Type := { A : Matrix; b : Vector }.
Record KeyPair : Type := { pk : PublicKey; sk : Vector }.
Record EncryptedBlock : Type := { u : Vector; v : num }.
(** The literal type ["LWE-Regev"]. *)
Inductive Algorithm : Type := LWE_Regev.
Record Meta : Type := { timestamp : num; algorithm : Algorithm }.
Record SerializedCiphertext : Type :=
  { blocks : list EncryptedBlock; meta : Meta }.

(** ** Constants *)

Definition Q : Z := 3329.
Definition N : nat := 128.
Definition M : nat := 256.
Definition ERROR_RANGE : Z := 3.

(** ** Modular linear algebra *)

(** [v[i]] used as an operand of arithmetic. *)
Definition idx (v : Vector) (i : nat) : num := nth i v NaN.

(** [let sum = 0; for (let i = 0; i < n; i++) sum += term(i)] *)
Fixpoint for_sum (n : nat) (term : nat -> num) : num :=
  match n with
  | O => Int 0
  | S k => add (for_sum k term) (term k)
  end.

(** [((sum % q) + q) % q] *)
Definition positive_mod (sum q : num) : num := rem (add (rem sum q) q) q.

(** [A[0].length]: reading [length] of [undefined] is a TypeError. *)
Definition first_row_length (A : Matrix) : result nat :=
  match A with
  | [] => Throw TypeError
  | row :: _ => Ok (length row)
  end.

Definition matVecMul (A : Matrix) (s : Vector) (q : num) : result Vector :=
  let m := length A in
  rbind (first_row_length A) (fun n =>
  Ok (map (fun i =>
         let sum := for_sum n (fun j => mul (idx (nth i A []) j) (idx s j)) in
         positive_mod sum q)
        (seq 0 m))).

Definition vecDot (v1 v2 : Vector) (q : num) : num :=
  let sum := for_sum (length v1) (fun i => mul (idx v1 i) (idx v2 i)) in
  positive_mod sum q.

Definition matTransVecMul (A : Matrix) (r : Vector) (q : num) : result Vector :=
  let m := length A in
  rbind (first_row_length A) (fun n =>
  Ok (map (fun j =>
         let sum := for_sum m (fun i => mul (idx (nth i A []) j) (idx r i)) in
         positive_mod sum q)
        (seq 0 n))).

(** [v1.map((val, i) => ((val + v2[i]) % q + q) % q)] *)
Definition vecAdd (v1 v2 : Vector) (q : num) : Vector :=
  map (fun i => positive_mod (add (idx v1 i) (idx v2 i)) q)
      (seq 0 (length v1)).

(** ** Random source *)

(** A computation that draws from the entropy source: it is given the number
    of values drawn so far and returns it updated. *)
Definition Rand (T : Type) : Type := nat -> result (T * nat).

Definition ret {T : Type} (x : T) : Rand T := fun k => Ok (x, k).

Definition bind {T U : Type} (c : Rand T) (f : T -> Rand U) : Rand U :=
  fun k =>
    match c k with
    | Ok (x, k') => f x k'
    | Throw e => Throw e
    | Unmodelled => Unmodelled
    end.

Definition lift {T : Type} (r : result T) : Rand T :=
  fun k => rbind r (fun x => Ok (x, k)).

Notation "x <- c ;; f" := (bind c (fun x => f))
  (at level 61, c at next level, right associativity).

(** [for (let i = 0; i < n; i++) acc.push(c())] *)
Fixpoint repeatM {T : Type} (n : nat) (c : Rand T) : Rand (list T) :=
  match n with
  | O => ret []
  | S n' => x <- c ;; xs <- repeatM n' c ;; ret (x :: xs)
  end.

(** [l.forEach((x, index) => acc.push(f(x, index)))] *)
Fixpoint forEachM {T U : Type} (f : T -> nat -> Rand U) (l : list T)
  (index : nat) : Rand (list U) :=
  match l with
  | [] => ret []
  | x :: l' => y <- f x index ;; ys <- forEachM f l' (S index) ;; ret (y :: ys)
  end.

Section RandomSource.

(** The value that [crypto.getRandomValues] delivers at each draw. *)
Variable entropy : nat -> Z.

(** A [Uint32Array] cell holds its value modulo 2^32. *)
Definition getRandomInt (max : num) : Rand num :=
  fun k => Ok (rem (Int (entropy k mod 2 ^ 32)) max, S k).

Definition getRandomError (range : num) : Rand num :=
  val <- getRandomInt (add (mul range (Int 2)) (Int 1)) ;;
  ret (sub val range).

Definition generateMatrix (rows cols : nat) (q : num) : Rand Matrix :=
  repeatM rows (repeatM cols (getRandomInt q)).

(** The value the promise of [generateKeys] resolves to. *)
Definition generateKeys : Rand KeyPair :=
  s <- repeatM N (getRandomError (Int ERROR_RANGE)) ;;
  A <- generateMatrix M N (Int Q) ;;
  e <- repeatM M (getRandomError (Int ERROR_RANGE)) ;;
  As <- lift (matVecMul A s (Int Q)) ;;
  let b := vecAdd As e (Int Q) in
  ret {| pk := {| A := A; b := b |}; sk := s |}.

End RandomSource.

(** ** UTF-8 (TextEncoder, TextDecoder)

    The encoder and the decoder of the Encoding Standard.  A text is the
    sequence of its code points; a code point in the surrogate range stands
    for an unpaired surrogate. *)

Definition text := list Z.

Definition is_surrogate (c : Z) : bool := (0xD800 <=? c) && (c <=? 0xDFFF).

Definition utf8_encode_code_point (c : Z) : list Z :=
  if c <=? 0x7F then [c]
  else
    let '(count, offset) :=
      if c <=? 0x7FF then (1, 0xC0)
      else if c <=? 0xFFFF then (2, 0xE0)
      else (3, 0xF0) in
    (Z.shiftr c (6 * count) + offset)
      :: map (fun k => Z.lor 0x80 (Z.land (Z.shiftr c (6 * k)) 0x3F))
             (rev (map Z.of_nat (seq 0 (Z.to_nat count)))).

(** [new TextEncoder().encode(s)]: unpaired surrogates become U+FFFD. *)
Definition TextEncoder_encode (s : text) : list Z :=
  flat_map (fun c => utf8_encode_code_point (if is_surrogate c then 0xFFFD else c)) s.

Record utf8_state : Type :=
  { code_point : Z; bytes_seen : Z; bytes_needed : Z;
    lower_boundary : Z; upper_boundary : Z }.

Definition utf8_initial : utf8_state :=
  {| code_point := 0; bytes_seen := 0; bytes_needed := 0;
     lower_boundary := 0x80; upper_boundary := 0xBF |}.

Definition in_range (lo x hi : Z) : bool := (lo <=? x) && (x <=? hi).

(** One byte read while no sequence is open: the code points it emits and
    the next state. *)
Definition utf8_lead (byte : Z) : list Z * utf8_state :=
  if in_range 0x00 byte 0x7F then ([byte], utf8_initial)
  else if in_range 0xC2 byte 0xDF then
    ([], {| code_point := Z.land byte 0x1F; bytes_seen := 0; bytes_needed := 1;
            lower_boundary := 0x80; upper_boundary := 0xBF |})
  else if in_range 0xE0 byte 0xEF then
    ([], {| code_point := Z.land byte 0xF; bytes_seen := 0; bytes_needed := 2;
            lower_boundary := if byte =? 0xE0 then 0xA0 else 0x80;
            upper_boundary := if byte =? 0xED then 0x9F else 0xBF |})
  else if in_range 0xF0 byte 0xF4 then
    ([], {| code_point := Z.land byte 0x7; bytes_seen := 0; bytes_needed := 3;
            lower_boundary := if byte =? 0xF0 then 0x90 else 0x80;
            upper_boundary := if byte =? 0xF4 then 0x8F else 0xBF |})
  else ([0xFFFD], utf8_initial).

(** The UTF-8 decoder with error mode replacement: every ill-formed sequence
    yields U+FFFD and decoding goes on. *)
Fixpoint utf8_decode (st : utf8_state) (bytes : list Z) : text :=
  match bytes with
  | [] => if bytes_needed st =? 0 then [] else [0xFFFD]
  | byte :: rest =>
      if bytes_needed st =? 0 then
        let '(out, st') := utf8_lead byte in out ++ utf8_decode st' rest
      else if negb (in_range (lower_boundary st) byte (upper_boundary st)) then
        (* the byte is put back and read again from the initial state *)
        let '(out, st') := utf8_lead byte in
        0xFFFD :: out ++ utf8_decode st' rest
      else
        let c := Z.lor (Z.shiftl (code_point st) 6) (Z.land byte 0x3F) in
        if bytes_seen st + 1 =? bytes_needed st then
          c :: utf8_decode utf8_initial rest
        else
          utf8_decode {| code_point := c; bytes_seen := bytes_seen st + 1;
                         bytes_needed := bytes_needed st;
                         lower_boundary := 0x80; upper_boundary := 0xBF |} rest
  end.

(** A leading byte order mark is not part of the decoded text
    ([ignoreBOM] is false by default). *)
Definition skip_BOM (bytes : list Z) : list Z :=
  match bytes with
  | b1 :: b2 :: b3 :: rest =>
      if (b1 =? 0xEF) && (b2 =? 0xBB) && (b3 =? 0xBF) then rest else bytes
  | _ => bytes
  end.

(** [new Uint8Array(bytes)] *)
Definition Uint8Array (bytes : list Z) : list Z := map (fun x => x mod 256) bytes.

(** [new TextDecoder().decode(bytes)]: [fatal] is false by default. *)
Definition TextDecoder_decode (bytes : list Z) : text :=
  utf8_decode utf8_initial (skip_BOM bytes).

(** ** Transport strings

    A ciphertext, and the JSON text inside it, is a string of characters
    with codes 0..255 (a binary string). *)

Definition code (c : ascii) : Z := Z.of_N (N_of_ascii c).
Definition char (n : Z) : ascii := ascii_of_N (Z.to_N n).

Definition dquote : ascii := char 34.
Definition str (c : ascii) : string := String c EmptyString.

(** ** base64 (btoa, atob)

    [btoa] writes the standard alphabet with padding; [atob] is the forgiving
    decoding of the HTML Standard, which throws an InvalidCharacterError on
    anything else than base64 text. *)

Module Base64.

Definition alphabet : string :=
  "ABCDEFGHIJKLMNOPQRSTUVWXYZabcdefghijklmnopqrstuvwxyz0123456789+/".

Definition digit (n : Z) : ascii :=
  match String.get (Z.to_nat n) alphabet with
  | Some c => c
  | None => "="%char
  end.

Definition value (c : ascii) : option Z :=
  let n := code c in
  if in_range 65 n 90 then Some (n - 65)
  else if in_range 97 n 122 then Some (n - 97 + 26)
  else if in_range 48 n 57 then Some (n - 48 + 52)
  else if n =? 43 then Some 62
  else if n =? 47 then Some 63
  else None.

(** [btoa]: three bytes make a group of 24 bits, written as four digits
    of six bits; a last group of one or two bytes is padded with [=]. *)
Fixpoint btoa (s : string) : string :=
  match s with
  | EmptyString => EmptyString
  | String c1 EmptyString =>
      let n := code c1 * 65536 in
      String (digit (n / 262144)) (String (digit (n / 4096 mod 64)) "==")
  | String c1 (String c2 EmptyString) =>
      let n := code c1 * 65536 + code c2 * 256 in
      String (digit (n / 262144)) (String (digit (n / 4096 mod 64))
        (String (digit (n / 64 mod 64)) "="))
  | String c1 (String c2 (String c3 rest)) =>
      let n := code c1 * 65536 + code c2 * 256 + code c3 in
      String (digit (n / 262144)) (String (digit (n / 4096 mod 64))
        (String (digit (n / 64 mod 64)) (String (digit (n mod 64))
          (btoa rest))))
  end.

Definition is_whitespace (c : ascii) : bool :=
  let n := code c in
  (n =? 9) || (n =? 10) || (n =? 12) || (n =? 13) || (n =? 32).

Fixpoint remove_whitespace (s : string) : string :=
  match s with
  | EmptyString => EmptyString
  | String c r =>
      if is_whitespace c then remove_whitespace r
      else String c (remove_whitespace r)
  end.

(** Removes one or two [=] at the very end. *)
Fixpoint strip_padding (s : string) : string :=
  match s with
  | EmptyString => EmptyString
  | String c r =>
      match r with
      | EmptyString => if Ascii.eqb c "=" then EmptyString else s
      | String c' EmptyString =>
          if Ascii.eqb c "=" && Ascii.eqb c' "=" then EmptyString
          else String c (strip_padding r)
      | _ => String c (strip_padding r)
      end
  end.

Fixpoint values (s : string) : option (list Z) :=
  match s with
  | EmptyString => Some []
  | String c r =>
      match value c, values r with
      | Some n, Some l => Some (n :: l)
      | _, _ => None
      end
  end.

(** Four digits give three bytes; two last digits give one byte and three
    give two, the bits left over being dropped. *)
Fixpoint bytes (l : list Z) : string :=
  match l with
  | d1 :: d2 :: d3 :: d4 :: rest =>
      let n := ((d1 * 64 + d2) * 64 + d3) * 64 + d4 in
      String (char (n / 65536)) (String (char (n / 256 mod 256))
        (String (char (n mod 256)) (bytes rest)))
  | [d1; d2; d3] =>
      let n := ((d1 * 64 + d2) * 64 + d3) * 64 in
      String (char (n / 65536)) (String (char (n / 256 mod 256)) EmptyString)
  | [d1; d2] =>
      let n := (d1 * 64 + d2) * 4096 in
      String (char (n / 65536)) EmptyString
  | _ => EmptyString
  end.

(** [atob]: the forgiving base64 decoding. *)
Definition atob (data : string) : result string :=
  let data := remove_whitespace data in
  let data :=
    if (String.length data mod 4 =? 0)%nat then strip_padding data else data in
  if (String.length data mod 4 =? 1)%nat then Throw InvalidCharacterError
  else
    match values data with
    | None => Throw InvalidCharacterError
    | Some l => Ok (bytes l)
    end.

End Base64.

(** ** JSON (JSON.parse, JSON.stringify)

    A parser of the JSON grammar, which throws a SyntaxError on any other
    text, and further down the text that [JSON.stringify] writes for the
    container of the service. *)

Module Json.

#[local] Set Warnings "-register-all".

(** Values as [JSON.parse] builds them.  A string is the list of its
    UTF-16 code units; an object keeps its members in source order, a
    later member hiding an earlier one of the same name.  A numeral with a
    fraction or an exponent is kept as [JFrac]: its value is outside the
    modelled numbers. *)
Inductive json : Type :=
| JNull
| JBool (b : bool)
| JNum (z : Z)
| JFrac
| JStr (s : list Z)
| JArr (l : list json)
| JObj (l : list (list Z * json)).

Definition units (s : string) : list Z := map code (list_ascii_of_string s).

Definition is_ws (c : ascii) : bool :=
  let n := code c in (n =? 32) || (n =? 9) || (n =? 10) || (n =? 13).

Fixpoint skip_ws (s : string) : string :=
  match s with
  | String c r => if is_ws c then skip_ws r else s
  | EmptyString => s
  end.

Definition is_digit (c : ascii) : bool := in_range 48 (code c) 57.

(** Reads decimal digits into the accumulator [a]. *)
Fixpoint read_digits (a : Z) (s : string) : Z * string :=
  match s with
  | String c r => if is_digit c then read_digits (10 * a + (code c - 48)) r else (a, s)
  | EmptyString => (a, s)
  end.

(** Skips one or more digits. *)
Definition skip_digits1 (s : string) : option string :=
  match s with
  | String c r => if is_digit c then Some (snd (read_digits 0 r)) else None
  | EmptyString => None
  end.

Definition skip_fraction (s : string) : option (bool * string) :=
  match s with
  | String c r =>
      if Ascii.eqb c "." then
        match skip_digits1 r with Some r' => Some (true, r') | None => None end
      else Some (false, s)
  | EmptyString => Some (false, s)
  end.

Definition skip_exponent (s : string) : option (bool * string) :=
  match s with
  | String c r =>
      if Ascii.eqb c "e" || Ascii.eqb c "E" then
        let r1 :=
          match r with
          | String c1 r' => if Ascii.eqb c1 "+" || Ascii.eqb c1 "-" then r' else r
          | EmptyString => r
          end in
        match skip_digits1 r1 with Some r' => Some (true, r') | None => None end
      else Some (false, s)
  | EmptyString => Some (false, s)
  end.

(** The integer part: [0], or a digit from [1] to [9] followed by digits. *)
Definition read_int_part (s : string) : option (Z * string) :=
  match s with
  | String c r =>
      if Ascii.eqb c "0" then Some (0, r)
      else if is_digit c then Some (read_digits (code c - 48) r)
      else None
  | EmptyString => None
  end.

Definition parse_number (s : string) : option (json * string) :=
  let '(negative, s1) :=
    match s with
    | String c r => if Ascii.eqb c "-" then (true, r) else (false, s)
    | EmptyString => (false, s)
    end in
  match read_int_part s1 with
  | None => None
  | Some (n, s2) =>
      match skip_fraction s2 with
      | None => None
      | Some (frac, s3) =>
          match skip_exponent s3 with
          | None => None
          | Some (exp, s4) =>
              if frac || exp then Some (JFrac, s4)
              else Some (JNum (if negative then - n else n), s4)
          end
      end
  end.

Definition hex_value (c : ascii) : option Z :=
  let n := code c in
  if in_range 48 n 57 then Some (n - 48)
  else if in_range 65 n 70 then Some (n - 55)
  else if in_range 97 n 102 then Some (n - 87)
  else None.

(** The characters of a string after its opening quote, up to the closing
    one. *)
Fixpoint parse_string_body (s : string) : option (list Z * string) :=
  let cons x r :=
    match r with
    | Some (l, rest) => Some (x :: l, rest)
    | None => None
    end in
  match s with
  | EmptyString => None
  | String c r =>
      if Ascii.eqb c dquote then Some ([], r)
      else if Ascii.eqb c "\" then
        match r with
        | String "u" (String h1 (String h2 (String h3 (String h4 r')))) =>
            match hex_value h1, hex_value h2, hex_value h3, hex_value h4 with
            | Some a, Some b, Some c, Some d =>
                cons (((a * 16 + b) * 16 + c) * 16 + d) (parse_string_body r')
            | _, _, _, _ => None
            end
        | String e r' =>
            if Ascii.eqb e dquote then cons 34 (parse_string_body r')
            else if Ascii.eqb e "\" then cons 92 (parse_string_body r')
            else if Ascii.eqb e "/" then cons 47 (parse_string_body r')
            else if Ascii.eqb e "b" then cons 8 (parse_string_body r')
            else if Ascii.eqb e "f" then cons 12 (parse_string_body r')
            else if Ascii.eqb e "n" then cons 10 (parse_string_body r')
            else if Ascii.eqb e "r" then cons 13 (parse_string_body r')
            else if Ascii.eqb e "t" then cons 9 (parse_string_body r')
            else None
        | EmptyString => None
        end
      else if code c <? 32 then None
      else cons (code c) (parse_string_body r)
  end.

Definition expect (word : string) (j : json) (s : string) : option (json * string) :=
  if String.prefix word s
  then Some (j, String.substring (String.length word)
                                 (String.length s - String.length word) s)
  else None.

Fixpoint parse_value (fuel : nat) (s : string) : option (json * string) :=
  match fuel with
  | O => None
  | S fuel' =>
      match skip_ws s with
      | EmptyString => None
      | String c r as s' =>
          if Ascii.eqb c "{" then
            match skip_ws r with
            | String c' r' =>
                if Ascii.eqb c' "}" then Some (JObj [], r')
                else parse_members fuel' r []
            | EmptyString => None
            end
          else if Ascii.eqb c "[" then
            match skip_ws r with
            | String c' r' =>
                if Ascii.eqb c' "]" then Some (JArr [], r')
                else parse_elements fuel' r []
            | EmptyString => None
            end
          else if Ascii.eqb c dquote then
            match parse_string_body r with
            | Some (l, r') => Some (JStr l, r')
            | None => None
            end
          else if Ascii.eqb c "t" then expect "true" (JBool true) s'
          else if Ascii.eqb c "f" then expect "false" (JBool false) s'
          else if Ascii.eqb c "n" then expect "null" JNull s'
          else parse_number s'
      end
  end

with parse_elements (fuel : nat) (s : string) (acc : list json)
  : option (json * string) :=
  match fuel with
  | O => None
  | S fuel' =>
      match parse_value fuel' s with
      | None => None
      | Some (j, r) =>
          match skip_ws r with
          | String c r' =>
              if Ascii.eqb c "," then parse_elements fuel' r' (j :: acc)
              else if Ascii.eqb c "]" then Some (JArr (rev (j :: acc)), r')
              else None
          | EmptyString => None
          end
      end
  end

with parse_members (fuel : nat) (s : string) (acc : list (list Z * json))
  : option (json * string) :=
  match fuel with
  | O => None
  | S fuel' =>
      match skip_ws s with
      | String c r =>
          if Ascii.eqb c dquote then
            match parse_string_body r with
            | None => None
            | Some (key, r1) =>
                match skip_ws r1 with
                | String c1 r2 =>
                    if Ascii.eqb c1 ":" then
                      match parse_value fuel' r2 with
                      | None => None
                      | Some (j, r3) =>
                          match skip_ws r3 with
                          | String c3 r' =>
                              if Ascii.eqb c3 "," then
                                parse_members fuel' r' ((key, j) :: acc)
                              else if Ascii.eqb c3 "}" then
                                Some (JObj (rev ((key, j) :: acc)), r')
                              else None
                          | EmptyString => None
                          end
                      end
                    else None
                | EmptyString => None
                end
            end
          else None
      | EmptyString => None
      end
  end.

(** [JSON.parse]: one value, with white space around it and nothing else.
    The fuel is enough for every input: more of it gives the same result
    (lemma [parse_fuel]). *)
Definition parse (s : string) : result json :=
  match parse_value (2 * String.length s + 2) s with
  | Some (j, r) =>
      match skip_ws r with
      | EmptyString => Ok j
      | _ => Throw SyntaxError
      end
  | None => Throw SyntaxError
  end.

End Json.

(** ** Serialisation of the ciphertext container *)

(** Decimal digits of a non-negative integer, written in front of [acc]. *)
Fixpoint decimal_digits (fuel : nat) (n : Z) (acc : string) : string :=
  match fuel with
  | O => acc
  | S fuel' =>
      let acc' := String (char (48 + n mod 10)) acc in
      if n <? 10 then acc' else decimal_digits fuel' (n / 10) acc'
  end.

Definition decimal (n : Z) : string :=
  decimal_digits (S (Z.to_nat (Z.log2 n))) n EmptyString.

(** How [JSON.stringify] writes a number: [NaN] becomes [null]. *)
Definition stringify_number (x : num) : string :=
  match x with
  | NaN => "null"
  | Int z => if z <? 0 then String "-" (decimal (- z)) else decimal z
  end.

Fixpoint join (sep : string) (l : list string) : string :=
  match l with
  | [] => EmptyString
  | [x] => x
  | x :: l' => (x ++ sep ++ join sep l')%string
  end.

Definition quoted (s : string) : string := (str dquote ++ s ++ str dquote)%string.

Definition stringify_vector (x : Vector) : string :=
  ("[" ++ join "," (map stringify_number x) ++ "]")%string.

Definition stringify_block (blk : EncryptedBlock) : string :=
  ("{" ++ quoted "u" ++ ":" ++ stringify_vector (u blk) ++ ","
       ++ quoted "v" ++ ":" ++ stringify_number (v blk) ++ "}")%string.

(** [JSON.stringify(container)] *)
Definition stringify (c : SerializedCiphertext) : string :=
  ("{" ++ quoted "blocks" ++ ":["
       ++ join "," (map stringify_block (blocks c)) ++ "],"
       ++ quoted "meta" ++ ":{"
       ++ quoted "timestamp" ++ ":" ++ stringify_number (timestamp (meta c)) ++ ","
       ++ quoted "algorithm" ++ ":" ++ quoted "LWE-Regev" ++ "}}")%string.

(** ** Reading parsed values

    [None] stands for [undefined]. *)

Import Json.

Fixpoint units_eqb (x y : list Z) : bool :=
  match x, y with
  | [], [] => true
  | c :: x', d :: y' => (c =? d) && units_eqb x' y'
  | _, _ => false
  end.

(** The member named [key] of an object: the last one of that name. *)
Fixpoint lookup (key : list Z) (l : list (list Z * json)) : option json :=
  match l with
  | [] => None
  | (k, j) :: l' =>
      match lookup key l' with
      | Some j' => Some j'
      | None => if units_eqb k key then Some j else None
      end
  end.

(** [o.key], for a key that no prototype defines: a TypeError on [null] and
    [undefined], [undefined] on a value that is not an object. *)
Definition get (o : option json) (key : string) : result (option json) :=
  match o with
  | None | Some JNull => Throw TypeError
  | Some (JObj l) => Ok (lookup (units key) l)
  | Some _ => Ok None
  end.

(** A value as operand of [-] or [*].  Strings, arrays and objects would be
    converted through their text, which is not modelled. *)
Definition to_number (o : option json) : result num :=
  match o with
  | None => Ok NaN
  | Some JNull => Ok (Int 0)
  | Some (JBool true) => Ok (Int 1)
  | Some (JBool false) => Ok (Int 0)
  | Some (JNum z) => Ok (Int z)
  | Some _ => Unmodelled
  end.

Fixpoint mapR {T U : Type} (f : T -> result U) (l : list T) : result (list U) :=
  match l with
  | [] => Ok []
  | x :: l' => rbind (f x) (fun y => rbind (mapR f l') (fun ys => Ok (y :: ys)))
  end.

(** The operands [o[0]], ..., [o[n-1]] that a loop of [n] rounds reads from
    [o].  Indexing [null] or [undefined] is a TypeError; a number or a
    boolean has no indexed member; an index past the end of an array gives
    [undefined]. *)
Definition operands (n : nat) (o : option json) : result Vector :=
  match o with
  | None | Some JNull => if (n =? 0)%nat then Ok [] else Throw TypeError
  | Some (JArr l) => mapR (fun j => to_number (Some j)) (firstn n l)
  | Some (JBool _) | Some (JNum _) | Some JFrac => Ok []
  | Some (JStr s) => if (n =? 0)%nat || (length s =? 0)%nat then Ok [] else Unmodelled
  | Some (JObj l) => if (n =? 0)%nat || (length l =? 0)%nat then Ok [] else Unmodelled
  end.

(** ** Encryption *)

Definition byte_bits (byte : Z) : list Z :=
  map (fun i => Z.land (Z.shiftr byte i) 1) [7; 6; 5; 4; 3; 2; 1; 0].

Record Stat : Type :=
  { bitIndex : nat; originalBit : Z; vVal : num; vPrime : num; encodedVal : num }.

Record Encrypted : Type := { ciphertext : string; stats : list Stat }.

Section Encryptor.

Variable entropy : nat -> Z.

(** The body of [bits.forEach]: the block pushed and the statistics
    pushed, if any. *)
Definition encryptBit (pk : PublicKey) (bit : Z) (index : nat)
  : Rand (EncryptedBlock * list Stat) :=
  r <- repeatM M (getRandomInt entropy (Int 2)) ;;
  u <- lift (matTransVecMul (A pk) r (Int Q)) ;;
  let v := vecDot (b pk) r (Int Q) in
  let messageEncoding := mul (Int bit) (Int (floor_div Q 2)) in
  let vPrime := rem (add v messageEncoding) (Int Q) in
  ret ({| u := u; v := vPrime |},
       if (index <? 20)%nat
       then [ {| bitIndex := index; originalBit := bit; vVal := v;
                 vPrime := vPrime; encodedVal := messageEncoding |} ]
       else []).

(** [now] is the value of [Date.now()]. *)
Definition encryptText (pk : PublicKey) (plaintext : text) (now : Z)
  : Rand Encrypted :=
  let bytes := TextEncoder_encode plaintext in
  let bits := flat_map byte_bits bytes in
  pushed <- forEachM (encryptBit pk) bits 0%nat ;;
  let blocks := map fst pushed in
  let stats := flat_map snd pushed in
  let container :=
    {| blocks := blocks;
       meta := {| timestamp := Int now; algorithm := LWE_Regev |} |} in
  let jsonStr := stringify container in
  let base64Str := Base64.btoa jsonStr in
  ret {| ciphertext := base64Str; stats := stats |}.

End Encryptor.

(** ** Decryption *)

(** The body of [blocks.forEach]: the bit pushed. *)
Definition decryptBlock (sk : Vector) (block : json) : result Z :=
  rbind (get (Some block) "u") (fun u =>
  rbind (get (Some block) "v") (fun v =>
  rbind (operands (length sk) u) (fun u' =>
  let sTu := vecDot sk u' (Int Q) in
  rbind (to_number v) (fun v' =>
  let d := rem (sub v' sTu) (Int Q) in
  let d := if lt d (Int 0) then add d (Int Q) else d in
  let halfQ := floor_div Q 2 in
  let quarterQ := floor_div Q 4 in
  let d := if gt d (Int (Q - quarterQ)) then sub d (Int Q) else d in
  if lt (abs (sub d (Int halfQ))) (Int quarterQ) then Ok 1 else Ok 0)))).

(** [blocks.forEach(f)]: only an array has the method. *)
Definition forEach {U : Type} (o : option json) (f : json -> result U)
  : result (list U) :=
  match o with
  | Some (JArr l) => mapR f l
  | _ => Throw TypeError
  end.

(** The byte made of the bits from index [i] on, as the inner loop builds
    it. *)
Definition byte_at (bits : list Z) (i : nat) : Z :=
  fold_left
    (fun byteVal j =>
       if (i + j <? length bits)%nat
       then Z.lor (Z.shiftl byteVal 1) (nth (i + j) bits 0)
       else byteVal)
    (seq 0 8) 0.

Definition bits_to_bytes (bits : list Z) : list Z :=
  map (fun k => byte_at bits (8 * k)) (seq 0 ((length bits + 7) / 8)).

Definition decryption_failed : string :=
  "Şifre çözülemedi. Geçersiz anahtar veya bozuk veri.".

Definition decryptText_try (sk : Vector) (ciphertextBase64 : string)
  : result text :=
  rbind (Base64.atob ciphertextBase64) (fun jsonStr =>
  rbind (Json.parse jsonStr) (fun container =>
  rbind (get (Some container) "blocks") (fun blocks =>
  rbind (forEach blocks (decryptBlock sk)) (fun decryptedBits =>
  let bytes := bits_to_bytes decryptedBits in
  Ok (TextDecoder_decode (Uint8Array bytes)))))).

(** Whatever is thrown inside [try] is replaced by one error. *)
Definition decryptText (sk : Vector) (ciphertextBase64 : string) : result text :=
  match decryptText_try sk ciphertextBase64 with
  | Ok plaintext => Ok plaintext
  | Throw _ => Throw (Error decryption_failed)
  | Unmodelled => Unmodelled
  end.

(** ** The event handlers of the application (App.tsx)

    The state of the component is the record of its [useState] cells.  A
    handler reads the cells as its render saw them and sets some of them;
    its model returns the cells as the next render sees them.  What a
    handler writes to the console is not part of the model. *)

Module App.

Inductive Tab : Type := encrypt | decrypt.

Record State : Type :=
  { keys : option KeyPair;
    isGenerating : bool;
    inputMessage : text;
    ciphertext : string;
    decryptedText : text;
    encryptionStats : list Stat;
    decryptError : option string;
    activeTab : Tab }.

Definition decrypt_error : string :=
  "Şifre Çözme Hatası: Geçersiz anahtar veya bozuk veri.".

Section Handlers.

Variable entropy : nat -> Z.

(** [now] is the value of [Date.now()], [k] the number of values drawn from
    the random source so far.  Nothing happens without keys or without a
    message; an exception of [encryptText] is caught and only logged. *)
Definition handleEncrypt (st : State) (now : Z) (k : nat) : result State :=
  match keys st, inputMessage st with
  | None, _ | _, [] => Ok st
  | Some kp, _ :: _ =>
      match encryptText entropy (pk kp) (inputMessage st) now k with
      | Ok (Build_Encrypted base64Str sts, _) =>
          Ok {| keys := keys st; isGenerating := isGenerating st;
                inputMessage := inputMessage st;
                ciphertext := base64Str;
                decryptedText := [];
                encryptionStats := sts;
                decryptError := decryptError st;
                activeTab := activeTab st |}
      | Throw _ => Ok st
      | Unmodelled => Unmodelled
      end
  end.

End Handlers.

(** Nothing happens without keys or without a ciphertext; the error is
    reset first, and set again when [decryptText] throws. *)
Definition handleDecrypt (st : State) : result State :=
  match keys st, ciphertext st with
  | None, _ | _, EmptyString => Ok st
  | Some kp, String _ _ =>
      match decryptText (sk kp) (ciphertext st) with
      | Ok plaintext =>
          Ok {| keys := keys st; isGenerating := isGenerating st;
                inputMessage := inputMessage st;
                ciphertext := ciphertext st;
                decryptedText := plaintext;
                encryptionStats := encryptionStats st;
                decryptError := None;
                activeTab := activeTab st |}
      | Throw _ =>
          Ok {| keys := keys st; isGenerating := isGenerating st;
                inputMessage := inputMessage st;
                ciphertext := ciphertext st;
                decryptedText := [];
                encryptionStats := encryptionStats st;
                decryptError := Some decrypt_error;
                activeTab := activeTab st |}
      | Unmodelled => Unmodelled
      end
  end.

End App.

(** ** The byte cipher keyed by an audio spectrum (utils/crypto.ts)

    The key is an array of numbers; every byte of the UTF-8 text is shifted
    by the key entry of its position, the key being repeated. *)

Module Crypto.

Definition KeyArray := list num.

(** The value that a cell of a [Uint8Array] takes when a number is stored
    into it. *)
Definition ToUint8 (x : num) : Z :=
  match x with Int z => z mod 256 | NaN => 0 end.

(** The string of the characters of the given codes
    ([String.fromCharCode] on each). *)
Definition fromCharCodes (bytes : list Z) : string :=
  string_of_list_ascii (map char bytes).

(** The codes of the characters of a string ([charCodeAt] on each). *)
Definition charCodes (s : string) : list Z := map code (list_ascii_of_string s).

(** [s] is the parameter [text] of the source. *)
Definition encryptText (s : text) (key : KeyArray) : string :=
  if (length key =? 0)%nat then EmptyString
  else
    let data := TextEncoder_encode s in
    let L := length key in
    let outBytes :=
      map (fun i =>
             let k := idx key (i mod L) in
             let c := rem (add (Int (nth i data 0)) k) (Int 256) in
             ToUint8 c)
          (seq 0 (length data)) in
    Base64.btoa (fromCharCodes outBytes).

(** The string that the [catch] block returns. *)
Definition decryption_error : text := charCodes "Error: Invalid Cipher Text or Key".

(** The decoder is [new TextDecoder("utf-8")], with the default options. *)

Definition decryptText (cipherText : string) (key : KeyArray) : result text :=
  if (length key =? 0)%nat then Ok []
  else
    match Base64.atob cipherText with
    | Ok binaryString =>
        let encryptedBytes := map (fun c => ToUint8 (Int c)) (charCodes binaryString) in
        let L := length key in
        let outBytes :=
          map (fun i =>
                 let k := idx key (i mod L) in
                 let m := rem (sub (Int (nth i encryptedBytes 0)) k) (Int 256) in
                 let m := if lt m (Int 0) then add m (Int 256) else m in
                 ToUint8 m)
              (seq 0 (length encryptedBytes)) in
        Ok (TextDecoder_decode outBytes)
    | Throw _ => Ok decryption_error
    | Unmodelled => Unmodelled
    end.

End Crypto.

(** ** The clock of the recorder (AudioInput.tsx) *)

(** [String(x)] for a number: the decimal digits of an integer below 10^21
    in magnitude.  From 10^21 on the source writes a mantissa and an
    exponent, which is not modelled. *)
Definition toString (x : num) : result string :=
  match x with
  | NaN => Ok "NaN"%string
  | Int z =>
      if Z.abs z <? 10 ^ 21
      then Ok (if z <? 0 then String "-" (decimal (- z)) else decimal z)
      else Unmodelled
  end.

(** [s.padStart(targetLength, c)] for a filler of one character. *)
Definition padStart (s : string) (targetLength : nat) (c : ascii) : string :=
  (string_of_list_ascii (repeat c (targetLength - String.length s)) ++ s)%string.

(** [Math.floor(s / 60)].  The source rounds the quotient to a binary64
    number before it takes the floor.  For [|s| <= 2^53] the quotient is
    below 2^48, so the rounding error is at most 2^-6, less than the
    distance 1/60 of an inexact quotient to the next integer: the floor is
    that of the exact quotient.  A larger [s] is not modelled. *)
Definition floor_minutes (s : num) : result num :=
  match s with
  | Int z => if Z.abs z <=? 2 ^ 53 then Ok (Int (floor_div z 60)) else Unmodelled
  | NaN => Ok NaN
  end.

Definition formatTime (s : num) : result string :=
  rbind (floor_minutes s) (fun mins =>
  let secs := rem s (Int 60) in
  rbind (toString mins) (fun minutes =>
  rbind (toString secs) (fun seconds =>
  Ok (minutes ++ ":" ++ padStart seconds 2 "0")%string))).

(** ** Reference definitions

    What the documentation says the functions compute, over integers, and
    the predicates of the statements below. *)

(** *** Linear algebra *)

Fixpoint zsum (n : nat) (f : nat -> Z) : Z :=
  match n with
  | O => 0
  | S k => zsum k f + f k
  end.

Definition entry (x : list Z) (i : nat) : Z := nth i x 0.

Definition dot (x y : list Z) : Z :=
  zsum (length x) (fun i => entry x i * entry y i).

Definition ints (x : list Z) : Vector := map Int x.
Definition int_rows (a : list (list Z)) : Matrix := map ints a.

(** Row [i] of the result is the sum over [j] of [A[i][j] * s[j]], modulo [q]. *)
Definition matVecMul_doc (a : list (list Z)) (s : list Z) (q : Z) : list Z :=
  map (fun row => dot row s mod q) a.

(** Column [j] of the result is the sum over [i] of [A[i][j] * r[i]], modulo
    [q]; [n] is the number of columns. *)
Definition matTransVecMul_doc (a : list (list Z)) (r : list Z) (q : Z) (n : nat)
  : list Z :=
  map (fun j => zsum (length a) (fun i => entry (nth i a []) j * entry r i) mod q)
      (seq 0 n).

Definition vecDot_doc (x y : list Z) (q : Z) : Z := dot x y mod q.

Definition vecAdd_doc (x y : list Z) (q : Z) : list Z :=
  map (fun i => (entry x i + entry y i) mod q) (seq 0 (length x)).

(** [a] has [m] rows of [n] entries each. *)
Definition dims (a : list (list Z)) (m n : nat) : Prop :=
  length a = m /\ Forall (fun row => length row = n) a.

Definition all_in (lo hi : Z) (x : list Z) : Prop :=
  Forall (fun z => lo <= z < hi) x.

Definition all_between (lo hi : Z) (x : list Z) : Prop :=
  Forall (fun z => lo <= z <= hi) x.

(** Entry [i] of [A*s + e] modulo [q]. *)
Definition noisy_product (a : list (list Z)) (s e : list Z) (q : Z) : list Z :=
  map (fun i => (dot (nth i a []) s + entry e i) mod q) (seq 0 (length a)).

(** *** Sampling *)

(** A computation that succeeds from every state with a value in [P]. *)
Definition yields {T : Type} (c : Rand T) (P : T -> Prop) : Prop :=
  forall k, exists x k', c k = Ok (x, k') /\ P x.

Definition int_in (lo hi : Z) (x : num) : Prop :=
  exists z, x = Int z /\ lo <= z <= hi.

(** *** Encryption *)

(** The eight bits of a byte, most significant first. *)
Definition msb_first (byte : Z) : list Z :=
  [byte / 128 mod 2; byte / 64 mod 2; byte / 32 mod 2; byte / 16 mod 2;
   byte / 8 mod 2; byte / 4 mod 2; byte / 2 mod 2; byte mod 2].

(** The block documented for one bit and its random vector [r]. *)
Definition block_doc (a : list (list Z)) (bz : list Z) (bit : Z) (r : list Z)
  : EncryptedBlock :=
  {| u := ints (matTransVecMul_doc a r Q N);
     v := Int ((vecDot_doc bz r Q + bit * (Q / 2)) mod Q) |}.

Definition blocks_doc (a : list (list Z)) (bz : list Z) (bits : list Z)
  (rs : list (list Z)) : list EncryptedBlock :=
  map (fun p => block_doc a bz (fst p) (snd p)) (combine bits rs).

Definition container_of (blks : list EncryptedBlock) (now : Z)
  : SerializedCiphertext :=
  {| blocks := blks; meta := {| timestamp := Int now; algorithm := LWE_Regev |} |}.

(** A binary vector of length [M]. *)
Definition binary_vector (r : list Z) : Prop :=
  length r = M /\ all_between 0 1 r.

(** [blk] is the block documented for [bit] under the random vector [r]. *)
Definition block_for (pk : PublicKey) (bit : Z) (r : list Z)
  (blk : EncryptedBlock) : Prop :=
  matTransVecMul (A pk) (ints r) (Int Q) = Ok (u blk)
  /\ length (u blk) = N
  /\ exists z, vecDot (b pk) (ints r) (Int Q) = Int z
                /\ v blk = Int ((z + bit * (Q / 2)) mod Q).

(** A block whose entries are canonical representatives. *)
Definition block_in_range (blk : EncryptedBlock) : Prop :=
  exists uz vz, u blk = ints uz /\ length uz = N /\ all_in 0 Q uz
                /\ v blk = Int vz /\ 0 <= vz < Q.

(** *** Decryption *)

(** The values that [JSON.parse] builds from the text of a container. *)
Definition json_of_number (x : num) : json :=
  match x with Int z => JNum z | NaN => JNull end.

Definition json_of_block (blk : EncryptedBlock) : json :=
  JObj [(units "u", JArr (map json_of_number (u blk)));
        (units "v", json_of_number (v blk))].

Definition json_of_container (c : SerializedCiphertext) : json :=
  JObj [(units "blocks", JArr (map json_of_block (blocks c)));
        (units "meta",
         JObj [(units "timestamp", json_of_number (timestamp (meta c)));
               (units "algorithm", JStr (units "LWE-Regev"))])].

(** Centering: [d - Q] when [d > Q - floor(Q/4)]. *)
Definition centered (d : Z) : Z := if Q - Q / 4 <? d then d - Q else d.

(** Decision: bit 1 when [|d - floor(Q/2)| < floor(Q/4)], else bit 0. *)
Definition decide_bit (d : Z) : Z := if Z.abs (d - Q / 2) <? Q / 4 then 1 else 0.

(** The bit documented for a block [{u, v}] under the secret key [s]. *)
Definition decrypt_doc (s uz : list Z) (vz : Z) : Z :=
  decide_bit (centered ((vz - vecDot_doc s uz Q) mod Q)).

(** The byte that a group of [k] bits, most significant first, gives when
    the bits missing from the group are taken as zero bits after it. *)
Definition left_aligned (group : list Z) : Z :=
  zsum (length group) (fun i => entry group i * 2 ^ (7 - Z.of_nat i)).

(** The byte that a group of [k] bits gives when it is read as a number of
    [k] bits: the zero bits are in front of it. *)
Definition right_aligned (group : list Z) : Z :=
  zsum (length group)
       (fun i => entry group i * 2 ^ (Z.of_nat (length group) - 1 - Z.of_nat i)).

(** The value that the inner loop builds from the bits it reads. *)
Definition group_value (group : list Z) : Z :=
  fold_left (fun byteVal bit => Z.lor (Z.shiftl byteVal 1) bit) group 0.

(** *** Texts *)

(** A Unicode scalar value: a code point that is not a surrogate. *)
Definition scalar_value (c : Z) : Prop :=
  0 <= c <= 0x10FFFF /\ ~ (0xD800 <= c <= 0xDFFF).

(** A well-formed text that does not start with U+FEFF. *)
Definition plain_text (s : text) : Prop :=
  Forall scalar_value s /\ hd 0 s <> 0xFEFF.


(** *** Transport *)

(** The six-bit digits of the base64 text of [s], without padding. *)
Fixpoint sextets (s : string) : list Z :=
  match s with
  | EmptyString => []
  | String c1 EmptyString =>
      let n := code c1 * 65536 in [n / 262144; n / 4096 mod 64]
  | String c1 (String c2 EmptyString) =>
      let n := code c1 * 65536 + code c2 * 256 in
      [n / 262144; n / 4096 mod 64; n / 64 mod 64]
  | String c1 (String c2 (String c3 rest)) =>
      let n := code c1 * 65536 + code c2 * 256 + code c3 in
      n / 262144 :: n / 4096 mod 64 :: n / 64 mod 64 :: n mod 64 :: sextets rest
  end.

Definition digits (l : list Z) : string :=
  string_of_list_ascii (map Base64.digit l).

(** The text that follows a value inside an array or an object starts with
    a comma or a closing bracket. *)
Definition delimited (rest : string) : Prop :=
  exists c r, rest = String c r /\ (c = "," \/ c = "]" \/ c = "}")%char.

(** [join "," l] followed by [k]. *)
Fixpoint elements_then (l : list string) (k : string) : string :=
  match l with
  | [] => k
  | [x] => (x ++ k)%string
  | x :: l' => (x ++ String "," (elements_then l' k))%string
  end.

(** A block whose entries are integers. *)
Definition int_block (blk : EncryptedBlock) : Prop :=
  exists x vz, blk = {| u := ints x; v := Int vz |}.

(** The text of the [meta] member, up to the end of the container. *)
Definition meta_text (now : Z) : string :=
  (quoted "meta" ++ ":{" ++ quoted "timestamp" ++ ":"
   ++ stringify_number (Int now) ++ "," ++ quoted "algorithm" ++ ":"
   ++ quoted "LWE-Regev" ++ "}}")%string.

(** A ciphertext from which decryption gets no array of blocks: it is not
    base64, or the decoded text is not JSON, or the parsed value has no
    member [blocks] that is an array. *)
Definition no_blocks_array (c : string) : Prop :=
  (forall s, Base64.atob c <> Ok s)
  \/ (exists s, Base64.atob c = Ok s /\ forall j, Json.parse s <> Ok j)
  \/ (exists s j, Base64.atob c = Ok s /\ Json.parse s = Ok j
                   /\ forall l, get (Some j) "blocks" <> Ok (Some (JArr l))).

(** An entropy source that always delivers 0. *)
Definition zeros : nat -> Z := fun _ => 0.

(** *** Use of the random source *)

(** A computation that succeeds from every state, draws exactly [d] values
    and returns a value in [P]. *)
Definition draws {T : Type} (c : Rand T) (d : nat) (P : T -> Prop) : Prop :=
  forall k, exists x, c k = Ok (x, (k + d)%nat) /\ P x.

(** The value of the cell of the [Uint32Array] after draw number [k]. *)
Definition drawn (entropy : nat -> Z) (k : nat) : Z := entropy k mod 2 ^ 32.

(** The key material as a function of the values drawn from draw [k] on:
    first the secret vector, then the matrix row by row, then the error
    vector. *)
Definition secret_doc (entropy : nat -> Z) (k : nat) : list Z :=
  map (fun i => drawn entropy (k + i) mod 7 - 3) (seq 0 N).

Definition matrix_doc (entropy : nat -> Z) (k : nat) : list (list Z) :=
  map (fun i => map (fun j => drawn entropy (k + N + i * N + j) mod Q) (seq 0 N))
      (seq 0 M).

Definition error_doc (entropy : nat -> Z) (k : nat) : list Z :=
  map (fun i => drawn entropy (k + N + M * N + i) mod 7 - 3) (seq 0 M).

(** The number of values [x] of a [Uint32Array] cell with [x mod q = a]. *)
Definition preimages (q a : Z) : Z := (2 ^ 32 - 1 - a) / q + 1.

(** The statistics documented for the bit of index [index]. *)
Definition stat_doc (bz : list Z) (bit : Z) (r : list Z) (index : nat) : list Stat :=
  if (index <? 20)%nat
  then [ {| bitIndex := index; originalBit := bit;
            vVal := Int (vecDot_doc bz r Q);
            vPrime := Int ((vecDot_doc bz r Q + bit * (Q / 2)) mod Q);
            encodedVal := Int (bit * (Q / 2)) |} ]
  else [].

Fixpoint stats_doc (bz : list Z) (bits : list Z) (rs : list (list Z))
  (index : nat) : list Stat :=
  match bits, rs with
  | bit :: bits', r :: rs' =>
      stat_doc bz bit r index ++ stats_doc bz bits' rs' (S index)
  | _, _ => []
  end.

(** *** Texts as they come back *)

Definition code_points (s : text) : Prop := Forall (fun c => 0 <= c <= 0x10FFFF) s.

(** Every unpaired surrogate replaced by U+FFFD. *)
Definition USVString (s : text) : text :=
  map (fun c => if is_surrogate c then 0xFFFD else c) s.

(** One leading U+FEFF taken away. *)
Definition without_BOM (s : text) : text :=
  match s with
  | c :: rest => if c =? 0xFEFF then rest else s
  | [] => []
  end.

(** *** Clock *)

(** A number below 100 written on two decimal digits. *)
Definition two_digits (y : Z) : string :=
  String (char (48 + y / 10)) (String (char (48 + y mod 10)) EmptyString).

(** *** Numbers that the source holds exactly *)

(** An integer of magnitude at most 2^53: the numbers of the source hold it
    exactly, and an operation of the source whose exact result is such an
    integer returns it. *)
Definition exact (z : Z) : Prop := - 2 ^ 53 <= z <= 2 ^ 53.

(** Every term and every partial sum of the loop [sum += f(i)] over [n]
    rounds is exact. *)
Definition exact_sum (n : nat) (f : nat -> Z) : Prop :=
  forall k, (k < n)%nat -> exact (f k) /\ exact (zsum (S k) f).

(** *** Sampling during encryption *)

(** The binary vector made of the [M] values drawn after draw [k], each
    reduced modulo 2. *)
Definition sampled (entropy : nat -> Z) (k : nat) : list Z :=
  map (fun j => drawn entropy (k + j) mod 2) (seq 0 M).

(** *** Blocks on which decryption throws *)



(** A key of the byte cipher whose entries are integers of magnitude at
    most 2^53 - 255: adding a byte to an entry, and subtracting an entry from
    a byte, is exact. *)
Definition exact_key (kz : list Z) : Prop :=
  Forall (fun k => Z.abs k <= 2 ^ 53 - 255) kz.

(** * Properties *)

(** ** Arithmetic on numbers *)

Lemma positive_mod_int (x q : Z) :
  0 < q -> positive_mod (Int x) (Int q) = Int (x mod q).
Proof.
  intros Hq. unfold positive_mod, rem, add.
  destruct (q =? 0) eqn:E; [apply Z.eqb_eq in E; lia|].
  f_equal.
  assert (Hb : 0 < Z.rem x q + q).
  { pose proof (Z.rem_bound_abs x q). lia. }
  rewrite Z.rem_mod_nonneg by lia.
  rewrite (Z.rem_eq x q) by lia.
  replace (x - q * (x ÷ q) + q) with (x + (1 - x ÷ q) * q) by ring.
  apply Z_mod_plus_full.
Qed.

Lemma idx_ints (x : list Z) (i : nat) :
  (i < length x)%nat -> idx (ints x) i = Int (entry x i).
Proof.
  intros Hi. unfold idx, ints, entry.
  rewrite (nth_indep _ NaN (Int 0)) by (rewrite length_map; exact Hi).
  apply (map_nth Int).
Qed.

Lemma for_sum_ext (n : nat) (f g : nat -> num) :
  (forall i, (i < n)%nat -> f i = g i) -> for_sum n f = for_sum n g.
Proof.
  induction n as [|n IH]; intros H; simpl; [reflexivity|].
  rewrite IH by (intros; apply H; lia). rewrite H by lia. reflexivity.
Qed.

Lemma for_sum_int (n : nat) (f : nat -> Z) :
  for_sum n (fun i => Int (f i)) = Int (zsum n f).
Proof.
  induction n as [|n IH]; simpl; [reflexivity|]. rewrite IH. reflexivity.
Qed.

Lemma for_sum_products (n : nat) (x y : list Z) :
  (n <= length x)%nat -> (n <= length y)%nat ->
  for_sum n (fun i => mul (idx (ints x) i) (idx (ints y) i))
  = Int (zsum n (fun i => entry x i * entry y i)).
Proof.
  intros Hx Hy. rewrite <- for_sum_int. apply for_sum_ext.
  intros i Hi. rewrite !idx_ints by lia. reflexivity.
Qed.

Lemma zsum_ext (n : nat) (f g : nat -> Z) :
  (forall i, (i < n)%nat -> f i = g i) -> zsum n f = zsum n g.
Proof.
  induction n as [|n IH]; intros H; simpl; [reflexivity|].
  rewrite IH by (intros; apply H; lia). rewrite H by lia. reflexivity.
Qed.

Lemma map_seq_ext {T : Type} (f g : nat -> T) (start len : nat) :
  (forall i, (start <= i < start + len)%nat -> f i = g i) ->
  map f (seq start len) = map g (seq start len).
Proof.
  intros H. apply map_ext_in. intros i Hi. apply in_seq in Hi. apply H. lia.
Qed.

Lemma map_nth_seq {T : Type} (l : list T) (d : T) :
  map (fun i => nth i l d) (seq 0 (length l)) = l.
Proof.
  induction l as [|x l IH]; simpl; [reflexivity|].
  f_equal. rewrite <- seq_shift, map_map. exact IH.
Qed.

Lemma mod_all_in {T : Type} (f : T -> Z) (q : Z) (l : list T) :
  0 < q -> all_in 0 q (map (fun t => f t mod q) l).
Proof.
  intros Hq. apply Forall_forall. intros z Hz.
  apply in_map_iff in Hz. destruct Hz as [y [<- _]].
  apply Z.mod_pos_bound. exact Hq.
Qed.

(** ** Modular linear algebra *)

Lemma length_ints (x : list Z) : length (ints x) = length x.
Proof. apply length_map. Qed.

Lemma length_int_rows (a : list (list Z)) : length (int_rows a) = length a.
Proof. apply length_map. Qed.

Lemma ints_map {T : Type} (f : T -> Z) (l : list T) :
  ints (map f l) = map (fun i => Int (f i)) l.
Proof. apply map_map. Qed.

Lemma vecDot_ints (x y : list Z) (q : Z) :
  0 < q -> (length x <= length y)%nat ->
  vecDot (ints x) (ints y) (Int q) = Int (vecDot_doc x y q).
Proof.
  intros Hq Hl. unfold vecDot, vecDot_doc, dot.
  rewrite length_ints, for_sum_products by lia.
  apply positive_mod_int. exact Hq.
Qed.

Lemma vecAdd_ints (x y : list Z) (q : Z) :
  0 < q -> (length x <= length y)%nat ->
  vecAdd (ints x) (ints y) (Int q) = ints (vecAdd_doc x y q).
Proof.
  intros Hq Hl. unfold vecAdd, vecAdd_doc.
  rewrite length_ints, ints_map.
  apply map_seq_ext. intros i Hi.
  rewrite !idx_ints by lia. simpl.
  apply positive_mod_int. exact Hq.
Qed.

Lemma nth_int_rows (a : list (list Z)) (i : nat) :
  nth i (int_rows a) [] = ints (nth i a []).
Proof. unfold int_rows. apply (map_nth ints a []). Qed.

Lemma first_row_length_ints (a : list (list Z)) (m n : nat) :
  (0 < m)%nat -> dims a m n -> first_row_length (int_rows a) = Ok n.
Proof.
  intros Hm [Hlen Hrows]. destruct a as [|row0 a']; [simpl in Hlen; lia|].
  inversion Hrows as [|? ? H0 ?]; subst. simpl. now rewrite length_ints.
Qed.

Lemma row_length (a : list (list Z)) (m n i : nat) :
  dims a m n -> (i < m)%nat -> length (nth i a []) = n.
Proof.
  intros [Hlen Hrows] Hi. rewrite Forall_forall in Hrows.
  apply Hrows. apply nth_In. lia.
Qed.

Lemma matVecMul_ints (a : list (list Z)) (s : list Z) (q : Z) (m n : nat) :
  0 < q -> (0 < m)%nat -> dims a m n -> length s = n ->
  matVecMul (int_rows a) (ints s) (Int q) = Ok (ints (matVecMul_doc a s q)).
Proof.
  intros Hq Hm Hd Hs. unfold matVecMul.
  rewrite (first_row_length_ints a m n Hm Hd). cbn [rbind]. f_equal.
  rewrite length_int_rows. unfold matVecMul_doc.
  rewrite ints_map.
  rewrite <- (map_nth_seq a []) at 2. rewrite map_map.
  pose proof Hd as [Hlen _].
  apply map_seq_ext. intros i Hi.
  rewrite <- positive_mod_int by exact Hq. f_equal.
  unfold dot. rewrite (row_length a m n i Hd) by lia.
  rewrite <- for_sum_products by (rewrite ?(row_length a m n i Hd); lia).
  apply for_sum_ext. intros j Hj. rewrite nth_int_rows. reflexivity.
Qed.

Lemma matTransVecMul_ints (a : list (list Z)) (r : list Z) (q : Z) (m n : nat) :
  0 < q -> (0 < m)%nat -> dims a m n -> length r = m ->
  matTransVecMul (int_rows a) (ints r) (Int q)
  = Ok (ints (matTransVecMul_doc a r q n)).
Proof.
  intros Hq Hm Hd Hr. unfold matTransVecMul.
  rewrite (first_row_length_ints a m n Hm Hd). cbn [rbind]. f_equal.
  rewrite length_int_rows. unfold matTransVecMul_doc.
  rewrite ints_map.
  pose proof Hd as [Hlen _].
  apply map_seq_ext. intros j Hj.
  rewrite <- positive_mod_int by exact Hq. f_equal.
  rewrite <- for_sum_int. apply for_sum_ext. intros i Hi.
  rewrite nth_int_rows.
  rewrite !idx_ints by (rewrite ?(row_length a m n i Hd); lia). reflexivity.
Qed.

(** A matrix without rows has no first row to take the number of columns
    from. *)
Lemma matrix_without_rows (x : Vector) (q : num) :
  matVecMul [] x q = Throw TypeError /\ matTransVecMul [] x q = Throw TypeError.
Proof. split; reflexivity. Qed.

(** ** Sampling *)

Lemma bind_ok {T U : Type} (c : Rand T) (f : T -> Rand U) (k k' : nat) (x : T) :
  c k = Ok (x, k') -> bind c f k = f x k'.
Proof. intros H. unfold bind. rewrite H. reflexivity. Qed.

Lemma yields_repeatM {T : Type} (c : Rand T) (P : T -> Prop) (n : nat) :
  yields c P -> yields (repeatM n c) (fun l => length l = n /\ Forall P l).
Proof.
  intros Hc. induction n as [|n IH]; intros k.
  - exists [], k. repeat split. constructor.
  - destruct (Hc k) as (x & k1 & E1 & Hx).
    destruct (IH k1) as (xs & k2 & E2 & Hlen & Hxs).
    exists (x :: xs), k2. cbn [repeatM].
    rewrite (bind_ok _ _ _ _ _ E1), (bind_ok _ _ _ _ _ E2).
    repeat split; [simpl; now rewrite Hlen | now constructor].
Qed.

Lemma yields_getRandomInt (entropy : nat -> Z) (q : Z) :
  0 < q -> yields (getRandomInt entropy (Int q)) (int_in 0 (q - 1)).
Proof.
  intros Hq k. unfold getRandomInt, rem.
  destruct (q =? 0) eqn:E; [apply Z.eqb_eq in E; lia|].
  eexists _, _. split; [reflexivity|].
  eexists. split; [reflexivity|].
  assert (H : 0 <= entropy k mod 2 ^ 32) by (apply Z.mod_pos_bound; lia).
  pose proof (Z.rem_bound_pos _ q H Hq). lia.
Qed.

Lemma yields_getRandomError (entropy : nat -> Z) (range : Z) :
  0 <= range ->
  yields (getRandomError entropy (Int range)) (int_in (- range) range).
Proof.
  intros Hr k. unfold getRandomError. cbn [mul add].
  destruct (yields_getRandomInt entropy (range * 2 + 1) ltac:(lia) k)
    as (x & k' & E & z & -> & Hz).
  rewrite (bind_ok _ _ _ _ _ E). unfold ret.
  eexists _, _. split; [reflexivity|].
  exists (z - range). split; [reflexivity | lia].
Qed.

Lemma ints_of_Forall (lo hi : Z) (l : Vector) :
  Forall (int_in lo hi) l -> exists x, l = ints x /\ all_between lo hi x.
Proof.
  induction 1 as [|y l (z & -> & Hz) _ (x & -> & Hx)].
  - exists []. split; [reflexivity | constructor].
  - exists (z :: x). split; [reflexivity | now constructor].
Qed.

Lemma int_rows_of_Forall (lo hi : Z) (n : nat) (rows : Matrix) :
  Forall (fun row => length row = n /\ Forall (int_in lo hi) row) rows ->
  exists a, rows = int_rows a
            /\ Forall (fun row => length row = n) a
            /\ Forall (all_between lo hi) a.
Proof.
  induction 1 as [|row rows [Hlen Hrow] _ (a & -> & Ha & Hb)].
  - exists []. repeat split; constructor.
  - destruct (ints_of_Forall _ _ _ Hrow) as (x & -> & Hx).
    exists (x :: a). rewrite length_ints in Hlen.
    repeat split; now constructor.
Qed.

Lemma all_between_in (lo hi : Z) (x : list Z) :
  all_between lo (hi - 1) x -> all_in lo hi x.
Proof. apply Forall_impl. intros z Hz. lia. Qed.

(** ** Key generation *)

Lemma vecAdd_matVecMul (a : list (list Z)) (s e : list Z) (q : Z) (m n : nat) :
  0 < q -> dims a m n -> length e = m ->
  vecAdd_doc (matVecMul_doc a s q) e q = noisy_product a s e q.
Proof.
  intros Hq [Hlen _] He. unfold vecAdd_doc, noisy_product, matVecMul_doc.
  rewrite length_map. apply map_seq_ext. intros i Hi.
  unfold entry at 1.
  rewrite (nth_indep _ 0 ((fun row => dot row s mod q) [])) by (rewrite length_map; lia).
  rewrite (map_nth (fun row => dot row s mod q)).
  apply Zplus_mod_idemp_l.
Qed.

(** What [generateKeys] returns, from any state of the entropy source. *)
Lemma generateKeys_ok :
  forall (entropy : nat -> Z) (k : nat),
  exists (a : list (list Z)) (s e : list Z) (k' : nat),
    generateKeys entropy k
    = Ok ({| pk := {| A := int_rows a; b := ints (noisy_product a s e Q) |};
             sk := ints s |}, k')
    /\ length s = N /\ all_between (-3) 3 s
    /\ dims a M N /\ Forall (all_in 0 Q) a
    /\ length e = M /\ all_between (-3) 3 e
    /\ all_in 0 Q (noisy_product a s e Q).
Proof.
  intros entropy k. unfold generateKeys, generateMatrix.
  assert (HQ : 0 < Q) by reflexivity.
  destruct (yields_repeatM _ _ N
              (yields_getRandomError entropy ERROR_RANGE ltac:(discriminate)) k)
    as (s' & k1 & E1 & Hs1 & Hs2).
  destruct (yields_repeatM _ _ M
              (yields_repeatM _ _ N (yields_getRandomInt entropy Q HQ)) k1)
    as (a' & k2 & E2 & Ha1 & Ha2).
  destruct (yields_repeatM _ _ M
              (yields_getRandomError entropy ERROR_RANGE ltac:(discriminate)) k2)
    as (e' & k3 & E3 & He1 & He2).
  destruct (ints_of_Forall _ _ _ Hs2) as (s & -> & Hs).
  destruct (ints_of_Forall _ _ _ He2) as (e & -> & He).
  destruct (int_rows_of_Forall _ _ _ _ Ha2) as (a & -> & Hrows & Ha).
  rewrite length_ints in Hs1, He1. rewrite length_int_rows in Ha1.
  assert (Hd : dims a M N) by (split; assumption).
  exists a, s, e, k3.
  rewrite (bind_ok _ _ _ _ _ E1), (bind_ok _ _ _ _ _ E2), (bind_ok _ _ _ _ _ E3).
  rewrite (matVecMul_ints a s Q M N HQ ltac:(apply Nat.lt_0_succ) Hd Hs1).
  unfold lift, rbind, bind, ret.
  rewrite vecAdd_ints
    by (try exact HQ; unfold matVecMul_doc; rewrite length_map; destruct Hd; lia).
  rewrite (vecAdd_matVecMul a s e Q M N HQ Hd He1).
  repeat split; try assumption.
  - eapply Forall_impl; [|exact Ha]. intros row. apply all_between_in.
  - apply mod_all_in. exact HQ.
Qed.

(** C5: every key pair that [generateKeys] returns has a secret key of
    length N with entries in [-3, 3], a public matrix of M rows and N columns
    with entries in [0, Q), and a public vector b = (A*sk + e) mod Q, with
    entries in [0, Q), for some vector e of length M with entries in
    [-3, 3]; the returned record holds A, b and sk only. *)
Theorem generateKeys_invariant :
  forall (entropy : nat -> Z) (k : nat),
  exists (a : list (list Z)) (s e : list Z) (k' : nat),
    generateKeys entropy k
    = Ok ({| pk := {| A := int_rows a; b := ints (noisy_product a s e Q) |};
             sk := ints s |}, k')
    /\ length s = N /\ all_between (-3) 3 s
    /\ dims a M N /\ Forall (all_in 0 Q) a
    /\ length e = M /\ all_between (-3) 3 e
    /\ all_in 0 Q (noisy_product a s e Q)
    /\ N = 128%nat /\ M = 256%nat /\ Q = 3329.
Proof.
  intros entropy k.
  destruct (generateKeys_ok entropy k) as (a & s & e & k' & H).
  exists a, s, e, k'. repeat split; apply H.
Qed.

(** ** Encryption *)

Lemma shiftr_land_1 (x i : Z) :
  0 <= i -> Z.land (Z.shiftr x i) 1 = x / 2 ^ i mod 2.
Proof.
  intros Hi. rewrite Z.shiftr_div_pow2 by exact Hi.
  apply (Z.land_ones (x / 2 ^ i) 1). lia.
Qed.

Lemma byte_bits_msb_first (byte : Z) : byte_bits byte = msb_first byte.
Proof.
  unfold byte_bits, msb_first. cbn [map].
  rewrite !shiftr_land_1 by lia.
  change (2 ^ 0) with 1. rewrite Z.div_1_r. reflexivity.
Qed.

Lemma byte_bits_binary (byte : Z) : all_between 0 1 (byte_bits byte).
Proof.
  rewrite byte_bits_msb_first. unfold msb_first.
  repeat constructor;
    match goal with |- context [?x mod 2] =>
      pose proof (Z.mod_pos_bound x 2 ltac:(lia)); lia end.
Qed.

Lemma bits_binary (bytes : list Z) :
  all_between 0 1 (flat_map byte_bits bytes).
Proof.
  induction bytes as [|x l IH]; [constructor|].
  cbn [flat_map]. apply Forall_app. split; [apply byte_bits_binary | exact IH].
Qed.

Lemma bits_length (bytes : list Z) :
  length (flat_map byte_bits bytes) = (8 * length bytes)%nat.
Proof.
  induction bytes as [|x l IH]; [reflexivity|].
  cbn [flat_map]. rewrite length_app, IH. simpl. lia.
Qed.

Lemma encryptBit_ok (entropy : nat -> Z) (a : list (list Z)) (bz : list Z)
  (bit : Z) (index k : nat) :
  dims a M N -> length bz = M -> 0 <= bit <= 1 ->
  exists r st k',
    encryptBit entropy {| A := int_rows a; b := ints bz |} bit index k
    = Ok ((block_doc a bz bit r, st), k')
    /\ binary_vector r.
Proof.
  intros Hd Hb Hbit. unfold encryptBit. cbn [A b].
  destruct (yields_repeatM _ _ M
              (yields_getRandomInt entropy 2 ltac:(reflexivity)) k)
    as (r' & k1 & E1 & Hr1 & Hr2).
  destruct (ints_of_Forall _ _ _ Hr2) as (r & -> & Hr).
  rewrite length_ints in Hr1.
  rewrite (bind_ok _ _ _ _ _ E1).
  rewrite (matTransVecMul_ints a r Q M N ltac:(reflexivity)
             ltac:(apply Nat.lt_0_succ) Hd Hr1).
  rewrite vecDot_ints by (try reflexivity; lia).
  unfold lift, rbind, bind, ret. cbn [mul add].
  assert (HQ : 0 < Q) by reflexivity.
  pose proof (Z.mod_pos_bound (dot bz r) Q HQ) as Hv.
  assert (Hh : 0 <= floor_div Q 2) by discriminate.
  assert (Hrem : rem (Int (vecDot_doc bz r Q + bit * floor_div Q 2)) (Int Q)
                 = Int ((vecDot_doc bz r Q + bit * (Q / 2)) mod Q)).
  { unfold rem. change (Q =? 0) with false. cbv beta iota. f_equal.
    apply Z.rem_mod_nonneg; [|exact HQ].
    unfold vecDot_doc. apply Z.add_nonneg_nonneg; [lia|].
    apply Z.mul_nonneg_nonneg; [lia | exact Hh]. }
  rewrite Hrem.
  eexists r, _, k1. split; [reflexivity|]. split; assumption.
Qed.

Lemma forEachM_encryptBit (entropy : nat -> Z) (a : list (list Z)) (bz : list Z)
  (bits : list Z) :
  dims a M N -> length bz = M -> all_between 0 1 bits ->
  forall index k,
  exists rs sts k',
    forEachM (encryptBit entropy {| A := int_rows a; b := ints bz |}) bits index k
    = Ok (combine (blocks_doc a bz bits rs) sts, k')
    /\ length rs = length bits /\ length sts = length bits
    /\ Forall binary_vector rs.
Proof.
  intros Hd Hb Hbits. induction Hbits as [|bit bits Hbit _ IH]; intros index k.
  - exists [], [], k. repeat split. constructor.
  - destruct (encryptBit_ok entropy a bz bit index k Hd Hb Hbit)
      as (r & st & k1 & E1 & Hr).
    destruct (IH (S index) k1) as (rs & sts & k2 & E2 & Hl1 & Hl2 & Hrs).
    exists (r :: rs), (st :: sts), k2. cbn [forEachM].
    rewrite (bind_ok _ _ _ _ _ E1), (bind_ok _ _ _ _ _ E2).
    repeat split; [simpl; now rewrite Hl1 | simpl; now rewrite Hl2 | now constructor].
Qed.

Lemma length_blocks_doc (a : list (list Z)) (bz bits : list Z) (rs : list (list Z)) :
  length rs = length bits -> length (blocks_doc a bz bits rs) = length bits.
Proof.
  intros H. unfold blocks_doc. rewrite length_map, length_combine. lia.
Qed.

Lemma map_fst_combine {T U : Type} (l : list T) (l' : list U) :
  length l = length l' -> map fst (combine l l') = l.
Proof.
  revert l'. induction l as [|x l IH]; intros [|y l'] H; simpl in *;
    try discriminate; [reflexivity|].
  f_equal. apply IH. lia.
Qed.

(** What [encryptText] returns for a public key of the right dimensions. *)
Lemma encryptText_ok (entropy : nat -> Z) (a : list (list Z)) (bz : list Z)
  (plaintext : text) (now : Z) (k : nat) :
  dims a M N -> length bz = M ->
  let bits := flat_map byte_bits (TextEncoder_encode plaintext) in
  exists rs sts k',
    encryptText entropy {| A := int_rows a; b := ints bz |} plaintext now k
    = Ok ({| ciphertext :=
               Base64.btoa (stringify (container_of (blocks_doc a bz bits rs) now));
             stats := sts |}, k')
    /\ length rs = length bits /\ Forall binary_vector rs.
Proof.
  intros Hd Hb bits. unfold encryptText. fold bits.
  destruct (forEachM_encryptBit entropy a bz bits Hd Hb (bits_binary _) 0%nat k)
    as (rs & sts & k' & E & Hl1 & Hl2 & Hrs).
  rewrite (bind_ok _ _ _ _ _ E). unfold ret.
  rewrite map_fst_combine
    by (rewrite length_blocks_doc by exact Hl1; now rewrite Hl2).
  eexists rs, _, k'. split; [reflexivity|]. split; assumption.
Qed.

Lemma Forall2_map_r {T U : Type} (R : T -> U -> Prop) (f : T -> U) (l : list T) :
  Forall (fun x => R x (f x)) l -> Forall2 R l (map f l).
Proof. induction 1; simpl; constructor; assumption. Qed.

Lemma Forall_combine_r {T U : Type} (P : U -> Prop) (l : list T) (l' : list U) :
  Forall P l' -> Forall (fun p => P (snd p)) (combine l l').
Proof.
  intros H. revert l. induction H as [|y l' Hy _ IH]; intros [|x l]; simpl;
    constructor; [exact Hy | apply IH].
Qed.

Lemma length_matTransVecMul_doc (a : list (list Z)) (r : list Z) (q : Z) (n : nat) :
  length (matTransVecMul_doc a r q n) = n.
Proof. unfold matTransVecMul_doc. now rewrite length_map, length_seq. Qed.

Lemma block_doc_for (a : list (list Z)) (bz : list Z) (bit : Z) (r : list Z) :
  dims a M N -> length bz = M -> binary_vector r ->
  block_for {| A := int_rows a; b := ints bz |} bit r (block_doc a bz bit r).
Proof.
  intros Hd Hb [Hr _]. unfold block_for, block_doc. cbn [A b u v].
  split; [|split].
  - apply (matTransVecMul_ints a r Q M N); try assumption;
      [reflexivity | apply Nat.lt_0_succ].
  - now rewrite length_ints, length_matTransVecMul_doc.
  - exists (vecDot_doc bz r Q). split; [|reflexivity].
    apply vecDot_ints; [reflexivity | lia].
Qed.

Lemma block_doc_in_range (a : list (list Z)) (bz : list Z) (bit : Z) (r : list Z) :
  block_in_range (block_doc a bz bit r).
Proof.
  exists (matTransVecMul_doc a r Q N), ((vecDot_doc bz r Q + bit * (Q / 2)) mod Q).
  split; [reflexivity|]. split; [apply length_matTransVecMul_doc|].
  split; [apply mod_all_in; reflexivity|].
  split; [reflexivity | apply Z.mod_pos_bound; reflexivity].
Qed.

Lemma flat_map_byte_bits (bytes : list Z) :
  flat_map byte_bits bytes = flat_map msb_first bytes.
Proof.
  induction bytes as [|x l IH]; [reflexivity|].
  cbn [flat_map]. now rewrite byte_bits_msb_first, IH.
Qed.

(** C10: for a public key with a matrix of M rows and N columns and a vector
    of length M, every block that [encryptText] emits has [u] of length N
    with entries in [0, Q) and [v] in [0, Q), and there are 8 blocks for each
    byte of the UTF-8 encoding of the plaintext. *)
Theorem encryptText_well_formed :
  forall (entropy : nat -> Z) (a : list (list Z)) (bz : list Z)
         (plaintext : text) (now : Z) (k : nat),
    dims a M N -> length bz = M ->
    exists (blks : list EncryptedBlock) (sts : list Stat) (k' : nat),
      encryptText entropy {| A := int_rows a; b := ints bz |} plaintext now k
      = Ok ({| ciphertext := Base64.btoa (stringify (container_of blks now));
               stats := sts |}, k')
      /\ Forall block_in_range blks
      /\ length blks = (8 * length (TextEncoder_encode plaintext))%nat.
Proof.
  intros entropy a bz plaintext now k Hd Hb.
  destruct (encryptText_ok entropy a bz plaintext now k Hd Hb)
    as (rs & sts & k' & E & Hl & Hrs).
  eexists _, sts, k'. split; [exact E|]. split.
  - unfold blocks_doc. apply Forall_map, Forall_forall.
    intros p _. apply block_doc_in_range.
  - rewrite length_blocks_doc by exact Hl. apply bits_length.
Qed.

(** ** Decryption of one block *)

Lemma rem_fix (x q : Z) :
  0 < q -> (if Z.rem x q <? 0 then Z.rem x q + q else Z.rem x q) = x mod q.
Proof.
  intros Hq. pose proof (Z.rem_bound_abs x q ltac:(lia)) as Hb.
  pose proof (Z.rem_eq x q ltac:(lia)) as He.
  destruct (Z.rem x q <? 0) eqn:E.
  - apply Z.ltb_lt in E. apply (Z.mod_unique_pos x q (x ÷ q - 1)); lia.
  - apply Z.ltb_ge in E. apply (Z.mod_unique_pos x q (x ÷ q)); lia.
Qed.

Lemma canonical_difference (x q : Z) :
  0 < q ->
  (if lt (rem (Int x) (Int q)) (Int 0)
   then add (rem (Int x) (Int q)) (Int q)
   else rem (Int x) (Int q)) = Int (x mod q).
Proof.
  intros Hq. unfold rem.
  destruct (q =? 0) eqn:E; [apply Z.eqb_eq in E; lia|].
  cbn [lt add]. rewrite <- (rem_fix x q Hq).
  destruct (Z.rem x q <? 0); reflexivity.
Qed.

Lemma get_u (blk : EncryptedBlock) :
  get (Some (json_of_block blk)) "u"
  = Ok (Some (JArr (map json_of_number (u blk)))).
Proof. reflexivity. Qed.

Lemma get_v (blk : EncryptedBlock) :
  get (Some (json_of_block blk)) "v" = Ok (Some (json_of_number (v blk))).
Proof. reflexivity. Qed.

Lemma mapR_to_number (x : list Z) :
  mapR (fun j => to_number (Some j)) (map json_of_number (ints x)) = Ok (ints x).
Proof.
  induction x as [|z x IH]; [reflexivity|].
  unfold ints in *. cbn [map mapR]. rewrite IH. reflexivity.
Qed.

Lemma operands_ints (n : nat) (x : list Z) :
  operands n (Some (JArr (map json_of_number (ints x)))) = Ok (ints (firstn n x)).
Proof.
  unfold operands, ints. rewrite !firstn_map.
  apply (mapR_to_number (firstn n x)).
Qed.

Lemma entry_firstn (n i : nat) (x : list Z) :
  (i < n)%nat -> entry (firstn n x) i = entry x i.
Proof.
  unfold entry. revert i x. induction n as [|n IH]; intros i x Hi; [lia|].
  destruct x as [|z x]; [reflexivity|].
  destruct i as [|i]; [reflexivity|]. simpl. apply IH. lia.
Qed.

Lemma vecDot_firstn (s x : list Z) (q : Z) :
  0 < q -> (length s <= length x)%nat ->
  vecDot (ints s) (ints (firstn (length s) x)) (Int q) = Int (vecDot_doc s x q).
Proof.
  intros Hq Hl. rewrite vecDot_ints by (rewrite ?length_firstn; lia).
  unfold vecDot_doc, dot. do 2 f_equal. apply zsum_ext.
  intros i Hi. now rewrite entry_firstn.
Qed.

Lemma decryptBlock_ints (s uz : list Z) (vz : Z) :
  (length s <= length uz)%nat ->
  decryptBlock (ints s) (json_of_block {| u := ints uz; v := Int vz |})
  = Ok (decrypt_doc s uz vz).
Proof.
  intros Hl. unfold decryptBlock.
  rewrite get_u, get_v. cbn [rbind u v json_of_number].
  rewrite length_ints, operands_ints. cbn [rbind to_number].
  rewrite vecDot_firstn by (try reflexivity; exact Hl).
  unfold decrypt_doc, decide_bit, centered.
  cbn [sub]. rewrite (canonical_difference _ Q ltac:(reflexivity)).
  unfold floor_div. cbn [gt].
  destruct (Q - Q / 4 <? _); cbn [sub abs lt];
    destruct (Z.abs _ <? Q / 4); reflexivity.
Qed.

(** ** Bits to bytes *)

Lemma lor_shiftl_add (x y k : Z) :
  0 <= k -> 0 <= y < 2 ^ k -> Z.lor (Z.shiftl x k) y = x * 2 ^ k + y.
Proof.
  intros Hk Hy. rewrite <- Z.shiftl_mul_pow2 by exact Hk.
  rewrite <- Z.add_lor_land.
  assert (H0 : Z.land (Z.shiftl x k) y = 0); [|rewrite H0; lia].
  apply Z.bits_inj'. intros n Hn.
  rewrite Z.land_spec, Z.bits_0.
  destruct (Z_lt_le_dec n k) as [Hlt|Hge].
  - now rewrite Z.shiftl_spec_low.
  - destruct (Z.eq_dec y 0) as [->|Hy0]; [now rewrite Z.bits_0, andb_false_r|].
    rewrite (Z.bits_above_log2 y n), andb_false_r; [reflexivity | lia |].
    apply Z.lt_le_trans with k; [|exact Hge].
    apply Z.log2_lt_pow2; lia.
Qed.

Lemma skipn_cons {T : Type} (n : nat) (l rest : list T) (x d : T) :
  skipn n l = x :: rest -> nth n l d = x /\ skipn (S n) l = rest.
Proof.
  revert l. induction n as [|n IH]; intros l H.
  - destruct l; inversion H; subst. split; reflexivity.
  - destruct l as [|y l]; [discriminate|]. apply (IH l). exact H.
Qed.

Lemma byte_at_skipn (bits : list Z) (i n j : nat) (acc : Z) :
  fold_left
    (fun byteVal j =>
       if (i + j <? length bits)%nat
       then Z.lor (Z.shiftl byteVal 1) (nth (i + j) bits 0)
       else byteVal)
    (seq j n) acc
  = fold_left (fun byteVal bit => Z.lor (Z.shiftl byteVal 1) bit)
              (firstn n (skipn (i + j) bits)) acc.
Proof.
  revert j acc. induction n as [|n IH]; intros j acc; [reflexivity|].
  cbn [seq fold_left]. rewrite IH.
  replace (i + S j)%nat with (S (i + j)) by lia.
  destruct (i + j <? length bits)%nat eqn:E.
  - apply Nat.ltb_lt in E.
    destruct (skipn (i + j) bits) as [|x rest] eqn:Es.
    + apply (f_equal (@length Z)) in Es. rewrite length_skipn in Es.
      simpl in Es. lia.
    + destruct (skipn_cons _ _ _ _ 0 Es) as [-> ->]. reflexivity.
  - apply Nat.ltb_ge in E.
    rewrite !skipn_all2 by lia. now rewrite firstn_nil.
Qed.

Lemma byte_at_group (bits : list Z) (i : nat) :
  byte_at bits i = group_value (firstn 8 (skipn i bits)).
Proof.
  unfold byte_at, group_value. rewrite byte_at_skipn.
  now rewrite Nat.add_0_r.
Qed.

Lemma bits_to_bytes_short (group : list Z) :
  (0 < length group < 8)%nat -> bits_to_bytes group = [group_value group].
Proof.
  intros H. unfold bits_to_bytes.
  replace ((length group + 7) / 8)%nat with 1%nat
    by (apply Nat.div_unique with (r := (length group - 1)%nat); lia).
  cbn [seq map]. rewrite byte_at_group.
  change (8 * 0)%nat with 0%nat. cbn [skipn].
  now rewrite firstn_all2 by lia.
Qed.

Lemma bits_to_bytes_group (group rest : list Z) :
  length group = 8%nat ->
  bits_to_bytes (group ++ rest) = group_value group :: bits_to_bytes rest.
Proof.
  intros H. unfold bits_to_bytes. rewrite length_app, H.
  replace ((8 + length rest + 7) / 8)%nat with (S ((length rest + 7) / 8))
    by (replace (8 + length rest + 7)%nat with (1 * 8 + (length rest + 7))%nat by lia;
        rewrite Nat.div_add_l by lia; lia).
  cbn [seq map]. f_equal.
  - rewrite byte_at_group. change (8 * 0)%nat with 0%nat. cbn [skipn].
    rewrite firstn_app, H, Nat.sub_diag, firstn_O, app_nil_r.
    now rewrite firstn_all2 by lia.
  - rewrite <- seq_shift, map_map. apply map_ext. intros k.
    rewrite !byte_at_group. f_equal.
    rewrite skipn_app, H, skipn_all2 by lia.
    cbn [app]. do 2 f_equal. lia.
Qed.

Lemma group_value_snoc (group : list Z) (bit : Z) :
  0 <= bit <= 1 -> group_value (group ++ [bit]) = 2 * group_value group + bit.
Proof.
  intros Hb. unfold group_value. rewrite fold_left_app. cbn [fold_left].
  rewrite lor_shiftl_add by (rewrite ?Z.pow_1_r; lia). lia.
Qed.

Lemma zsum_scale (n : nat) (f : nat -> Z) (c : Z) :
  zsum n (fun i => c * f i) = c * zsum n f.
Proof. induction n as [|n IH]; simpl; [lia | rewrite IH; ring]. Qed.

Lemma entry_app_l (l r : list Z) (i : nat) :
  (i < length l)%nat -> entry (l ++ r) i = entry l i.
Proof. intros H. unfold entry. now rewrite app_nth1. Qed.

Lemma entry_app_r (l r : list Z) (i : nat) :
  entry (l ++ r) (length l + i) = entry r i.
Proof.
  unfold entry. rewrite app_nth2 by lia. f_equal. lia.
Qed.

Lemma entry_app_last (l : list Z) (x : Z) : entry (l ++ [x]) (length l) = x.
Proof.
  pose proof (entry_app_r l [x] 0) as H.
  rewrite Nat.add_0_r in H. exact H.
Qed.

Lemma group_value_right_aligned (group : list Z) :
  all_between 0 1 group -> group_value group = right_aligned group.
Proof.
  induction group as [|bit group IH] using rev_ind; intros H; [reflexivity|].
  apply Forall_app in H. destruct H as [Hg Hb]. inversion Hb; subst.
  rewrite group_value_snoc, (IH Hg) by assumption.
  unfold right_aligned. rewrite length_app. cbn [length].
  rewrite Nat.add_1_r. cbn [zsum].
  rewrite entry_app_last.
  replace (Z.of_nat (S (length group)) - 1 - Z.of_nat (length group)) with 0 by lia.
  rewrite <- zsum_scale. f_equal; [|lia].
  apply zsum_ext. intros i Hi.
  rewrite entry_app_l by exact Hi.
  replace (Z.of_nat (S (length group)) - 1 - Z.of_nat i)
    with (Z.succ (Z.of_nat (length group) - 1 - Z.of_nat i)) by lia.
  rewrite Z.pow_succ_r by lia. ring.
Qed.

Lemma bits_to_bytes_app (full rest : list Z) (n : nat) :
  length full = (8 * n)%nat ->
  bits_to_bytes (full ++ rest) = bits_to_bytes full ++ bits_to_bytes rest.
Proof.
  revert full. induction n as [|n IH]; intros full H.
  - destruct full; [reflexivity | simpl in H; lia].
  - rewrite <- (firstn_skipn 8 full).
    assert (H8 : length (firstn 8 full) = 8%nat) by (rewrite length_firstn; lia).
    rewrite <- app_assoc.
    rewrite (bits_to_bytes_group _ (skipn 8 full ++ rest) H8).
    rewrite (bits_to_bytes_group _ (skipn 8 full) H8).
    rewrite IH by (rewrite length_skipn; lia). reflexivity.
Qed.

(** The claim that a short last group is padded after its bits fails on a
    single bit 1: the byte is 1, not 128.  The ciphertext is the base64 text
    of a container with the one block [{u: [0], v: 1664}]; under the key [1]
    it decrypts to the character U+0001. *)
Lemma trailing_bits_counterexample :
  bits_to_bytes [1] = [1] /\ left_aligned [1] = 128
  /\ bits_to_bytes [1] <> [left_aligned [1]]
  /\ decryptText (ints [1])
       "eyJibG9ja3MiOlt7InUiOlswXSwidiI6MTY2NH1dLCJtZXRhIjp7InRpbWVzdGFtcCI6MCwiYWxnb3JpdGhtIjoiTFdFLVJlZ2V2In19"
     = Ok [1].
Proof.
  split; [reflexivity|]. split; [reflexivity|]. split; [discriminate|].
  vm_compute. reflexivity.
Qed.

(** C4 as amended: when the number of decrypted bits is not a multiple of 8,
    the last byte is made of the [k < 8] remaining bits read as a number of
    [k] bits, the sum of [b_i * 2^(k-1-i)]: the zero bits are in the leading
    positions of the byte, and the bytes before it are those of the complete
    groups. *)
Theorem trailing_bits_right_aligned :
  forall (full tail : list Z) (n : nat),
    length full = (8 * n)%nat -> (0 < length tail < 8)%nat ->
    all_between 0 1 tail ->
    bits_to_bytes (full ++ tail) = bits_to_bytes full ++ [right_aligned tail].
Proof.
  intros full tail n Hf Ht Hb.
  rewrite (bits_to_bytes_app full tail n Hf), (bits_to_bytes_short tail Ht).
  now rewrite group_value_right_aligned.
Qed.

Lemma trailing_bits_right_aligned_witness :
  bits_to_bytes ([0; 1; 0; 0; 0; 0; 0; 1] ++ [1; 0; 1])
  = bits_to_bytes [0; 1; 0; 0; 0; 0; 0; 1] ++ [right_aligned [1; 0; 1]].
Proof.
  apply (trailing_bits_right_aligned [0; 1; 0; 0; 0; 0; 0; 1] [1; 0; 1] 1).
  - reflexivity.
  - simpl. lia.
  - repeat constructor; lia.
Defined.

(** ** The noise stays below the decision margin *)

Lemma zsum_add (n : nat) (f g : nat -> Z) :
  zsum n (fun i => f i + g i) = zsum n f + zsum n g.
Proof. induction n as [|n IH]; simpl; [reflexivity | rewrite IH; ring]. Qed.

Lemma zsum_swap (n m : nat) (f : nat -> nat -> Z) :
  zsum n (fun i => zsum m (fun j => f i j))
  = zsum m (fun j => zsum n (fun i => f i j)).
Proof.
  induction n as [|n IH]; simpl.
  - induction m as [|m IHm]; simpl; [reflexivity | rewrite <- IHm; reflexivity].
  - rewrite IH, <- zsum_add. reflexivity.
Qed.

Lemma zsum_mod_congr (n : nat) (f g : nat -> Z) (q : Z) :
  (forall i, (i < n)%nat -> f i mod q = g i mod q) ->
  zsum n f mod q = zsum n g mod q.
Proof.
  induction n as [|n IH]; intros H; simpl; [reflexivity|].
  rewrite Zplus_mod, IH, H, <- Zplus_mod by (intros; try apply H; lia).
  reflexivity.
Qed.

Lemma zsum_bound (n : nat) (f : nat -> Z) (B : Z) :
  (forall i, (i < n)%nat -> - B <= f i <= B) ->
  - (B * Z.of_nat n) <= zsum n f <= B * Z.of_nat n.
Proof.
  induction n as [|n IH]; intros H; simpl zsum; [lia|].
  specialize (IH ltac:(intros; apply H; lia)).
  specialize (H n ltac:(lia)). lia.
Qed.

Lemma all_between_entry (lo hi : Z) (x : list Z) (i : nat) :
  all_between lo hi x -> (i < length x)%nat -> lo <= entry x i <= hi.
Proof.
  intros H Hi. unfold all_between in H. rewrite Forall_forall in H.
  apply H. apply nth_In. exact Hi.
Qed.

Lemma entry_map_seq (f : nat -> Z) (n i : nat) :
  (i < n)%nat -> entry (map f (seq 0 n)) i = f i.
Proof.
  intros Hi. unfold entry.
  rewrite (nth_indep _ 0 (f 0%nat)) by (rewrite length_map, length_seq; exact Hi).
  rewrite (map_nth f), seq_nth by exact Hi. reflexivity.
Qed.

Lemma mod_combine (x x' y y' c q : Z) :
  x mod q = x' mod q -> y mod q = y' mod q ->
  (x mod q + c - y mod q) mod q = (x' + c - y') mod q.
Proof.
  intros Hx Hy.
  rewrite Zminus_mod, Zmod_mod, Hy, <- Zminus_mod.
  rewrite <- (Z.add_opp_r _ y'), <- Z.add_assoc, Zplus_mod, Zmod_mod, Hx.
  rewrite <- Zplus_mod. f_equal. ring.
Qed.

(** The difference that decryption computes is the encoded bit plus the
    noise [r.e], modulo [q]. *)
Lemma decryption_difference (a : list (list Z)) (s e r : list Z) (q c : Z)
  (m n : nat) :
  dims a m n -> length s = n ->
  (vecDot_doc (noisy_product a s e q) r q + c
   - vecDot_doc s (matTransVecMul_doc a r q n) q) mod q
  = (c + zsum m (fun i => entry e i * entry r i)) mod q.
Proof.
  intros Hd Hs. pose proof Hd as [Hlen _].
  unfold vecDot_doc, dot.
  unfold noisy_product at 1. rewrite length_map, length_seq, Hlen, Hs.
  rewrite (mod_combine _
             (zsum m (fun i =>
                (zsum n (fun j => entry (nth i a []) j * entry s j)
                 + entry e i) * entry r i))
             _
             (zsum n (fun j =>
                entry s j * zsum m (fun i => entry (nth i a []) j * entry r i)))).
  - f_equal.
    rewrite (zsum_ext m _
               (fun i => zsum n (fun j => entry (nth i a []) j * entry s j * entry r i)
                         + entry e i * entry r i)).
    2:{ intros i _. rewrite Z.mul_add_distr_r. f_equal.
        rewrite Z.mul_comm, <- zsum_scale. apply zsum_ext. intros; ring. }
    rewrite zsum_add, zsum_swap.
    rewrite (zsum_ext n (fun j => entry s j * zsum m _)
               (fun j => zsum m (fun i => entry (nth i a []) j * entry s j * entry r i))).
    2:{ intros j _. rewrite <- zsum_scale. apply zsum_ext. intros; ring. }
    ring.
  - apply zsum_mod_congr. intros i Hi. unfold noisy_product.
    rewrite Hlen, entry_map_seq by lia.
    rewrite Zmult_mod, Zmod_mod, <- Zmult_mod.
    unfold dot. now rewrite (row_length a m n i Hd Hi).
  - apply zsum_mod_congr. intros j Hj. unfold matTransVecMul_doc.
    rewrite entry_map_seq by lia. rewrite Hlen.
    now rewrite Zmult_mod, Zmod_mod, <- Zmult_mod.
Qed.

Lemma noise_bound (e r : list Z) :
  length e = M -> all_between (-3) 3 e -> binary_vector r ->
  -768 <= zsum M (fun i => entry e i * entry r i) <= 768.
Proof.
  intros He Hb [Hr Hrb].
  assert (H : forall i, (i < M)%nat -> - 3 <= entry e i * entry r i <= 3).
  { intros i Hi.
    pose proof (all_between_entry _ _ e i Hb ltac:(lia)).
    pose proof (all_between_entry _ _ r i Hrb ltac:(lia)). nia. }
  exact (zsum_bound M (fun i => entry e i * entry r i) 3 H).
Qed.

(** A bit encrypted under a generated key decrypts to itself, whatever the
    random vector. *)
Lemma decrypt_doc_correct (a : list (list Z)) (s e r : list Z) (bit : Z) :
  dims a M N -> length s = N -> length e = M -> all_between (-3) 3 e ->
  binary_vector r -> 0 <= bit <= 1 ->
  decrypt_doc s (matTransVecMul_doc a r Q N)
              ((vecDot_doc (noisy_product a s e Q) r Q + bit * (Q / 2)) mod Q)
  = bit.
Proof.
  intros Hd Hs He Hb Hr Hbit. unfold decrypt_doc.
  rewrite Zminus_mod, Zmod_mod, <- Zminus_mod.
  rewrite (decryption_difference a s e r Q (bit * (Q / 2)) M N Hd Hs).
  pose proof (noise_bound e r He Hb Hr) as Hn.
  set (noise := zsum M _) in *. clearbody noise.
  unfold decide_bit, centered. change Q with 3329.
  change (3329 / 2) with 1664. change (3329 / 4) with 832.
  assert (Hc : bit = 0 \/ bit = 1) by lia.
  destruct Hc as [-> | ->].
  - destruct (Z_lt_le_dec noise 0) as [Hneg|Hpos].
    + rewrite <- (Z_mod_plus_full _ 1), Z.mod_small by lia.
      destruct (3329 - 832 <? _) eqn:E1; [|apply Z.ltb_ge in E1; lia].
      destruct (Z.abs _ <? 832) eqn:E2; [apply Z.ltb_lt in E2; lia | reflexivity].
    + rewrite Z.mod_small by lia.
      destruct (3329 - 832 <? _) eqn:E1; [apply Z.ltb_lt in E1; lia|].
      destruct (Z.abs _ <? 832) eqn:E2; [apply Z.ltb_lt in E2; lia | reflexivity].
  - rewrite Z.mod_small by lia.
    destruct (3329 - 832 <? _) eqn:E1; [apply Z.ltb_lt in E1; lia|].
    destruct (Z.abs _ <? 832) eqn:E2; [reflexivity | apply Z.ltb_ge in E2; lia].
Qed.

(** ** UTF-8 *)

Ltac dlia := Z.div_mod_to_equations; lia.

Lemma in_range_true (lo x hi : Z) : in_range lo x hi = true <-> lo <= x <= hi.
Proof. unfold in_range. rewrite andb_true_iff, !Z.leb_le. reflexivity. Qed.

Lemma in_range_false (lo x hi : Z) : in_range lo x hi = false <-> x < lo \/ hi < x.
Proof. unfold in_range. rewrite andb_false_iff, !Z.leb_gt. reflexivity. Qed.

(** Decides the range tests of the goal from the arithmetic context. *)
Ltac ranges :=
  repeat match goal with
    | |- context [in_range ?lo ?x ?hi] =>
        let E := fresh "E" in
        destruct (in_range lo x hi) eqn:E;
        [apply in_range_true in E | apply in_range_false in E];
        try (exfalso; dlia)
    | |- context [?x =? ?y] =>
        let E := fresh "E" in
        destruct (x =? y) eqn:E;
        [apply Z.eqb_eq in E | apply Z.eqb_neq in E];
        try (exfalso; dlia)
    end.

Lemma land_0x3F (x : Z) : Z.land x 0x3F = x mod 64.
Proof. apply (Z.land_ones x 6). lia. Qed.

Lemma land_0x1F (x : Z) : Z.land x 0x1F = x mod 32.
Proof. apply (Z.land_ones x 5). lia. Qed.

Lemma land_0xF (x : Z) : Z.land x 0xF = x mod 16.
Proof. apply (Z.land_ones x 4). lia. Qed.

Lemma land_0x7 (x : Z) : Z.land x 0x7 = x mod 8.
Proof. apply (Z.land_ones x 3). lia. Qed.

Lemma lor_0x80 (y : Z) : 0 <= y < 64 -> Z.lor 0x80 y = 128 + y.
Proof. intros Hy. apply (lor_shiftl_add 2 y 6); lia. Qed.

Lemma continuation_value (c byte : Z) :
  Z.lor (Z.shiftl c 6) (Z.land byte 0x3F) = c * 64 + byte mod 64.
Proof.
  rewrite land_0x3F.
  apply (lor_shiftl_add c (byte mod 64) 6); [lia|].
  apply Z.mod_pos_bound. reflexivity.
Qed.

Lemma utf8_encode_1 (c : Z) : c <= 0x7F -> utf8_encode_code_point c = [c].
Proof.
  intros H. unfold utf8_encode_code_point.
  destruct (c <=? 0x7F) eqn:E; [reflexivity | apply Z.leb_gt in E; lia].
Qed.

Lemma utf8_encode_2 (c : Z) :
  0x80 <= c <= 0x7FF ->
  utf8_encode_code_point c = [192 + c / 64; 128 + c mod 64].
Proof.
  intros H. unfold utf8_encode_code_point.
  destruct (c <=? 0x7F) eqn:E1; [apply Z.leb_le in E1; lia|].
  destruct (c <=? 0x7FF) eqn:E2; [|apply Z.leb_gt in E2; lia].
  change (rev (map Z.of_nat (seq 0 (Z.to_nat 1)))) with [0]. cbn [map].
  change (6 * 0) with 0. change (6 * 1) with 6.
  rewrite Z.shiftr_0_r, Z.shiftr_div_pow2, land_0x3F, lor_0x80 by dlia.
  change (2 ^ 6) with 64. f_equal. lia.
Qed.

Lemma utf8_encode_3 (c : Z) :
  0x800 <= c <= 0xFFFF ->
  utf8_encode_code_point c
  = [224 + c / 4096; 128 + c / 64 mod 64; 128 + c mod 64].
Proof.
  intros H. unfold utf8_encode_code_point.
  destruct (c <=? 0x7F) eqn:E1; [apply Z.leb_le in E1; lia|].
  destruct (c <=? 0x7FF) eqn:E2; [apply Z.leb_le in E2; lia|].
  destruct (c <=? 0xFFFF) eqn:E3; [|apply Z.leb_gt in E3; lia].
  change (rev (map Z.of_nat (seq 0 (Z.to_nat 2)))) with [1; 0]. cbn [map].
  change (6 * 0) with 0. change (6 * 1) with 6. change (6 * 2) with 12.
  rewrite Z.shiftr_0_r, !Z.shiftr_div_pow2 by lia.
  rewrite !land_0x3F, !lor_0x80 by dlia.
  change (2 ^ 6) with 64. change (2 ^ 12) with 4096.
  change (2 ^ 18) with 262144. f_equal. lia.
Qed.

Lemma utf8_encode_4 (c : Z) :
  0x10000 <= c ->
  utf8_encode_code_point c
  = [240 + c / 262144; 128 + c / 4096 mod 64; 128 + c / 64 mod 64;
     128 + c mod 64].
Proof.
  intros H. unfold utf8_encode_code_point.
  destruct (c <=? 0x7F) eqn:E1; [apply Z.leb_le in E1; lia|].
  destruct (c <=? 0x7FF) eqn:E2; [apply Z.leb_le in E2; lia|].
  destruct (c <=? 0xFFFF) eqn:E3; [apply Z.leb_le in E3; lia|].
  change (rev (map Z.of_nat (seq 0 (Z.to_nat 3)))) with [2; 1; 0]. cbn [map].
  change (6 * 0) with 0. change (6 * 1) with 6. change (6 * 2) with 12.
  change (6 * 3) with 18.
  rewrite Z.shiftr_0_r, !Z.shiftr_div_pow2 by lia.
  rewrite !land_0x3F, !lor_0x80 by dlia.
  change (2 ^ 6) with 64. change (2 ^ 12) with 4096.
  change (2 ^ 18) with 262144. f_equal. lia.
Qed.

Lemma utf8_decode_lead (byte : Z) (rest : list Z) :
  utf8_decode utf8_initial (byte :: rest)
  = fst (utf8_lead byte) ++ utf8_decode (snd (utf8_lead byte)) rest.
Proof.
  cbn [utf8_decode]. change (bytes_needed utf8_initial =? 0) with true.
  cbv iota. destruct (utf8_lead byte). reflexivity.
Qed.

Lemma utf8_decode_continuation (st : utf8_state) (byte : Z) (rest : list Z) :
  bytes_needed st <> 0 ->
  lower_boundary st <= byte <= upper_boundary st ->
  utf8_decode st (byte :: rest)
  = if bytes_seen st + 1 =? bytes_needed st
    then (code_point st * 64 + byte mod 64) :: utf8_decode utf8_initial rest
    else utf8_decode {| code_point := code_point st * 64 + byte mod 64;
                        bytes_seen := bytes_seen st + 1;
                        bytes_needed := bytes_needed st;
                        lower_boundary := 0x80; upper_boundary := 0xBF |} rest.
Proof.
  intros Hn Hr. cbn [utf8_decode].
  destruct (bytes_needed st =? 0) eqn:E; [apply Z.eqb_eq in E; contradiction|].
  apply in_range_true in Hr. rewrite Hr. cbn [negb].
  rewrite continuation_value. reflexivity.
Qed.

Lemma utf8_decode_encode_1 (c : Z) (rest : list Z) :
  0 <= c <= 0x7F ->
  utf8_decode utf8_initial (c :: rest) = c :: utf8_decode utf8_initial rest.
Proof.
  intros H. rewrite utf8_decode_lead. unfold utf8_lead.
  ranges. reflexivity.
Qed.

Lemma utf8_decode_encode_2 (c : Z) (rest : list Z) :
  0x80 <= c <= 0x7FF ->
  utf8_decode utf8_initial ((192 + c / 64) :: (128 + c mod 64) :: rest)
  = c :: utf8_decode utf8_initial rest.
Proof.
  intros H. rewrite utf8_decode_lead. unfold utf8_lead.
  ranges. cbn [fst snd app].
  rewrite utf8_decode_continuation;
    cbn [bytes_needed bytes_seen code_point lower_boundary upper_boundary];
    [|discriminate | dlia].
  change (0 + 1 =? 1) with true. cbv iota.
  rewrite land_0x1F. f_equal. dlia.
Qed.

Lemma utf8_decode_encode_3 (c : Z) (rest : list Z) :
  0x800 <= c <= 0xFFFF -> ~ (0xD800 <= c <= 0xDFFF) ->
  utf8_decode utf8_initial
    ((224 + c / 4096) :: (128 + c / 64 mod 64) :: (128 + c mod 64) :: rest)
  = c :: utf8_decode utf8_initial rest.
Proof.
  intros H Hs. rewrite utf8_decode_lead. unfold utf8_lead.
  ranges; cbn [fst snd app];
    (rewrite utf8_decode_continuation;
     cbn [bytes_needed bytes_seen code_point lower_boundary upper_boundary];
     [|discriminate | dlia]);
    change (0 + 1 =? 2) with false; cbv iota;
    (rewrite utf8_decode_continuation;
     cbn [bytes_needed bytes_seen code_point lower_boundary upper_boundary];
     [|discriminate | dlia]);
    change (0 + 1 + 1 =? 2) with true; cbv iota;
    rewrite land_0xF; f_equal; dlia.
Qed.

Lemma utf8_decode_encode_4 (c : Z) (rest : list Z) :
  0x10000 <= c <= 0x10FFFF ->
  utf8_decode utf8_initial
    ((240 + c / 262144) :: (128 + c / 4096 mod 64) :: (128 + c / 64 mod 64)
       :: (128 + c mod 64) :: rest)
  = c :: utf8_decode utf8_initial rest.
Proof.
  intros H. rewrite utf8_decode_lead. unfold utf8_lead.
  ranges; cbn [fst snd app];
    (rewrite utf8_decode_continuation;
     cbn [bytes_needed bytes_seen code_point lower_boundary upper_boundary];
     [|discriminate | dlia]);
    change (0 + 1 =? 3) with false; cbv iota;
    (rewrite utf8_decode_continuation;
     cbn [bytes_needed bytes_seen code_point lower_boundary upper_boundary];
     [|discriminate | dlia]);
    change (0 + 1 + 1 =? 3) with false; cbv iota;
    (rewrite utf8_decode_continuation;
     cbn [bytes_needed bytes_seen code_point lower_boundary upper_boundary];
     [|discriminate | dlia]);
    change (0 + 1 + 1 + 1 =? 3) with true; cbv iota;
    rewrite land_0x7; f_equal; dlia.
Qed.

Lemma utf8_decode_encode_code_point (c : Z) (rest : list Z) :
  scalar_value c ->
  utf8_decode utf8_initial (utf8_encode_code_point c ++ rest)
  = c :: utf8_decode utf8_initial rest.
Proof.
  intros [Hc Hs].
  destruct (Z_le_gt_dec c 0x7F);
    [rewrite utf8_encode_1 by lia; apply utf8_decode_encode_1; lia|].
  destruct (Z_le_gt_dec c 0x7FF);
    [rewrite utf8_encode_2 by lia; apply utf8_decode_encode_2; lia|].
  destruct (Z_le_gt_dec c 0xFFFF);
    [rewrite utf8_encode_3 by lia; apply utf8_decode_encode_3; lia|].
  rewrite utf8_encode_4 by lia. apply utf8_decode_encode_4; lia.
Qed.

Lemma is_surrogate_scalar (c : Z) : scalar_value c -> is_surrogate c = false.
Proof.
  intros [_ Hs]. unfold is_surrogate.
  apply andb_false_iff. rewrite !Z.leb_gt. lia.
Qed.

Lemma utf8_decode_encode (s : text) :
  Forall scalar_value s ->
  utf8_decode utf8_initial (TextEncoder_encode s) = s.
Proof.
  induction 1 as [|c s Hc _ IH]; [reflexivity|].
  unfold TextEncoder_encode in *. cbn [flat_map].
  rewrite (is_surrogate_scalar c Hc), utf8_decode_encode_code_point by exact Hc.
  now rewrite IH.
Qed.

Lemma utf8_encode_range (c : Z) :
  scalar_value c -> all_in 0 256 (utf8_encode_code_point c).
Proof.
  intros [Hc Hs].
  destruct (Z_le_gt_dec c 0x7F);
    [rewrite utf8_encode_1 by lia; repeat constructor; lia|].
  destruct (Z_le_gt_dec c 0x7FF);
    [rewrite utf8_encode_2 by lia; repeat constructor; dlia|].
  destruct (Z_le_gt_dec c 0xFFFF);
    [rewrite utf8_encode_3 by lia; repeat constructor; dlia|].
  rewrite utf8_encode_4 by lia. repeat constructor; dlia.
Qed.

Lemma TextEncoder_encode_range (s : text) :
  Forall scalar_value s -> all_in 0 256 (TextEncoder_encode s).
Proof.
  induction 1 as [|c s Hc _ IH]; [constructor|].
  unfold TextEncoder_encode in *. cbn [flat_map].
  rewrite (is_surrogate_scalar c Hc).
  apply Forall_app. split; [apply utf8_encode_range; exact Hc | exact IH].
Qed.

Lemma skip_BOM_encode (s : text) :
  plain_text s -> skip_BOM (TextEncoder_encode s) = TextEncoder_encode s.
Proof.
  intros [Hs Hhd]. destruct Hs as [|c s Hc Hs]; [reflexivity|].
  cbn [hd] in Hhd. unfold TextEncoder_encode. cbn [flat_map].
  rewrite (is_surrogate_scalar c Hc). destruct Hc as [Hc Hsur].
  destruct (Z_le_gt_dec c 0x7F).
  { rewrite utf8_encode_1 by lia. cbn [app skip_BOM].
    destruct (flat_map _ s) as [|b2 [|b3 rest]]; try reflexivity.
    destruct (c =? 0xEF) eqn:E; [apply Z.eqb_eq in E; lia | reflexivity]. }
  destruct (Z_le_gt_dec c 0x7FF).
  { rewrite utf8_encode_2 by lia. cbn [app skip_BOM].
    destruct (flat_map _ s) as [|b3 rest]; try reflexivity.
    destruct (192 + c / 64 =? 0xEF) eqn:E; [apply Z.eqb_eq in E; dlia | reflexivity]. }
  destruct (Z_le_gt_dec c 0xFFFF).
  { rewrite utf8_encode_3 by lia. cbn [app skip_BOM].
    destruct (224 + c / 4096 =? 0xEF) eqn:E1; [|reflexivity].
    destruct (128 + c / 64 mod 64 =? 0xBB) eqn:E2; [|reflexivity].
    destruct (128 + c mod 64 =? 0xBF) eqn:E3; [|reflexivity].
    apply Z.eqb_eq in E1, E2, E3. exfalso. dlia. }
  rewrite utf8_encode_4 by lia. cbn [app skip_BOM].
  destruct (240 + c / 262144 =? 0xEF) eqn:E; [apply Z.eqb_eq in E; dlia | reflexivity].
Qed.

(** Decoding inverts encoding on a well-formed text without a leading
    U+FEFF. *)
Lemma TextDecoder_decode_encode (s : text) :
  plain_text s -> TextDecoder_decode (TextEncoder_encode s) = s.
Proof.
  intros H. unfold TextDecoder_decode.
  rewrite skip_BOM_encode by exact H. apply utf8_decode_encode. apply H.
Qed.

Lemma Uint8Array_bytes (bytes : list Z) :
  all_in 0 256 bytes -> Uint8Array bytes = bytes.
Proof.
  induction 1 as [|x l Hx _ IH]; [reflexivity|].
  unfold Uint8Array in *. cbn [map]. rewrite IH, Z.mod_small by exact Hx.
  reflexivity.
Qed.

Lemma group_value_byte_bits (x : Z) :
  0 <= x < 256 -> group_value (byte_bits x) = x.
Proof.
  intros Hx. rewrite group_value_right_aligned by apply byte_bits_binary.
  rewrite byte_bits_msb_first. unfold right_aligned, msb_first.
  cbn [length zsum entry nth Z.of_nat Pos.of_succ_nat Pos.succ].
  cbn [Z.sub Z.add Z.opp Z.pos_sub Z.succ_double Z.pred_double Z.double
       Pos.pred_double Pos.add Pos.succ Z.pow Z.pow_pos Pos.iter Z.mul Pos.mul].
  dlia.
Qed.

Lemma bits_to_bytes_bits (bytes : list Z) :
  all_in 0 256 bytes -> bits_to_bytes (flat_map byte_bits bytes) = bytes.
Proof.
  induction 1 as [|x l Hx _ IH]; [reflexivity|].
  cbn [flat_map]. rewrite bits_to_bytes_group by reflexivity.
  now rewrite IH, group_value_byte_bits.
Qed.

(** ** base64 *)

Lemma string_ind3 (P : string -> Prop) :
  P EmptyString ->
  (forall c, P (String c EmptyString)) ->
  (forall c1 c2, P (String c1 (String c2 EmptyString))) ->
  (forall c1 c2 c3 rest, P rest -> P (String c1 (String c2 (String c3 rest)))) ->
  forall s, P s.
Proof.
  intros H0 H1 H2 H3.
  assert (H : forall s, P s /\ (forall c, P (String c s))
                        /\ (forall c c', P (String c (String c' s)))).
  { induction s as [|c s (IH0 & IH1 & IH2)].
    - repeat split; auto.
    - repeat split; auto. }
  intros s. apply H.
Qed.

Lemma code_bound (c : ascii) : 0 <= code c < 256.
Proof.
  unfold code. pose proof (N_ascii_bounded c). lia.
Qed.

Lemma char_code (c : ascii) : char (code c) = c.
Proof. unfold char, code. rewrite N2Z.id. apply ascii_N_embedding. Qed.

Lemma digit_spec (n : Z) :
  0 <= n < 64 ->
  Base64.value (Base64.digit n) = Some n
  /\ Base64.is_whitespace (Base64.digit n) = false
  /\ Ascii.eqb (Base64.digit n) "=" = false.
Proof.
  intros Hn. rewrite <- (Z2Nat.id n) by lia.
  assert (Hk : (Z.to_nat n < 64)%nat) by lia.
  generalize dependent (Z.to_nat n). clear Hn. intros k Hk.
  do 64 (destruct k as [|k]; [repeat split|]). lia.
Qed.

Lemma sextets_range (s : string) : all_in 0 64 (sextets s).
Proof.
  induction s as [| c1 | c1 c2 | c1 c2 c3 rest IH] using string_ind3;
    cbn [sextets]; cbv zeta;
    try pose proof (code_bound c1); try pose proof (code_bound c2);
    try pose proof (code_bound c3);
    repeat (apply Forall_cons; [dlia|]); try exact IH; constructor.
Qed.

Lemma btoa_sextets (s : string) :
  exists padding,
    Base64.btoa s = (digits (sextets s) ++ padding)%string
    /\ (padding = EmptyString \/ padding = "=" \/ padding = "==")%string.
Proof.
  induction s as [| c1 | c1 c2 | c1 c2 c3 rest (p & IH & Hp)] using string_ind3.
  - exists EmptyString. split; [reflexivity | auto].
  - exists "=="%string. split; [reflexivity | auto].
  - exists "="%string. split; [reflexivity | auto].
  - exists p. split; [|exact Hp].
    cbn [Base64.btoa sextets]. cbv zeta. rewrite IH. reflexivity.
Qed.

Lemma remove_whitespace_digits (l : list Z) (padding : string) :
  all_in 0 64 l ->
  (padding = EmptyString \/ padding = "=" \/ padding = "==")%string ->
  Base64.remove_whitespace (digits l ++ padding) = (digits l ++ padding)%string.
Proof.
  intros Hl Hp. induction Hl as [|n l Hn _ IH].
  - destruct Hp as [-> | [-> | ->]]; reflexivity.
  - unfold digits in *. cbn [map string_of_list_ascii append Base64.remove_whitespace].
    destruct (digit_spec n Hn) as (_ & -> & _). now rewrite IH.
Qed.

Lemma strip_padding_cons (c : ascii) (r : string) :
  Ascii.eqb c "=" = false ->
  Base64.strip_padding (String c r) = String c (Base64.strip_padding r).
Proof.
  intros H. destruct r as [|c' [|c'' r']]; cbn [Base64.strip_padding];
    rewrite ?H; reflexivity.
Qed.

Lemma strip_padding_digits (l : list Z) (padding : string) :
  all_in 0 64 l ->
  (padding = EmptyString \/ padding = "=" \/ padding = "==")%string ->
  Base64.strip_padding (digits l ++ padding) = digits l.
Proof.
  intros Hl Hp. induction Hl as [|n l Hn _ IH].
  - destruct Hp as [-> | [-> | ->]]; reflexivity.
  - unfold digits in *. cbn [map string_of_list_ascii append].
    destruct (digit_spec n Hn) as (_ & _ & Hd).
    rewrite strip_padding_cons by exact Hd. now rewrite IH.
Qed.

Lemma append_empty_r (s : string) : (s ++ EmptyString)%string = s.
Proof. induction s as [|c s IH]; simpl; [reflexivity | now rewrite IH]. Qed.

Lemma values_digits (l : list Z) :
  all_in 0 64 l -> Base64.values (digits l) = Some l.
Proof.
  induction 1 as [|n l Hn _ IH]; [reflexivity|].
  unfold digits in *. cbn [map string_of_list_ascii Base64.values].
  destruct (digit_spec n Hn) as (-> & _). now rewrite IH.
Qed.

Lemma length_digits (l : list Z) : String.length (digits l) = length l.
Proof.
  unfold digits. induction l as [|n l IH]; [reflexivity|].
  cbn [map string_of_list_ascii String.length]. now rewrite IH.
Qed.

Lemma length_sextets (s : string) :
  exists k, length (sextets s) = (4 * k)%nat
            \/ length (sextets s) = (4 * k + 2)%nat
            \/ length (sextets s) = (4 * k + 3)%nat.
Proof.
  induction s as [| c1 | c1 c2 | c1 c2 c3 rest (k & IH)] using string_ind3.
  - exists 0%nat. auto.
  - exists 0%nat. auto.
  - exists 0%nat. auto.
  - exists (S k). cbn [sextets length]. cbv zeta. cbn [length]. lia.
Qed.

Lemma sextet_digits (n : Z) :
  n / 262144 * 64 + n / 4096 mod 64 = n / 4096
  /\ n / 4096 * 64 + n / 64 mod 64 = n / 64
  /\ n / 64 * 64 + n mod 64 = n.
Proof.
  assert (H1 : n / 262144 = n / 4096 / 64) by (now rewrite Z.div_div by lia).
  assert (H2 : n / 4096 = n / 64 / 64) by (now rewrite Z.div_div by lia).
  pose proof (Z.div_mod (n / 4096) 64 ltac:(lia)).
  pose proof (Z.div_mod (n / 64) 64 ltac:(lia)).
  pose proof (Z.div_mod n 64 ltac:(lia)).
  rewrite H1. rewrite H2 at 3. lia.
Qed.

Lemma bytes_group (c1 c2 c3 : ascii) :
  let n := code c1 * 65536 + code c2 * 256 + code c3 in
  char (n / 65536) = c1 /\ char (n / 256 mod 256) = c2 /\ char (n mod 256) = c3.
Proof.
  intros n. subst n.
  pose proof (code_bound c1). pose proof (code_bound c2).
  pose proof (code_bound c3).
  repeat split.
  - rewrite <- (char_code c1) at 2. f_equal. dlia.
  - rewrite <- (char_code c2) at 2. f_equal. dlia.
  - rewrite <- (char_code c3) at 2. f_equal. dlia.
Qed.

Lemma bytes_sextets (s : string) : Base64.bytes (sextets s) = s.
Proof.
  induction s as [| c1 | c1 c2 | c1 c2 c3 rest IH] using string_ind3;
    cbn [sextets]; cbv zeta.
  - reflexivity.
  - cbn [Base64.bytes]. cbv zeta.
    destruct (sextet_digits (code c1 * 65536)) as (-> & _ & _).
    pose proof (code_bound c1).
    rewrite <- (char_code c1) at 2. do 2 f_equal. dlia.
  - cbn [Base64.bytes]. cbv zeta.
    destruct (sextet_digits (code c1 * 65536 + code c2 * 256)) as (-> & -> & _).
    pose proof (code_bound c1). pose proof (code_bound c2).
    rewrite <- (char_code c1) at 3. rewrite <- (char_code c2) at 3.
    f_equal; [f_equal; dlia|]. f_equal. f_equal. dlia.
  - assert (Hb : forall d1 d2 d3 d4 l,
               Base64.bytes (d1 :: d2 :: d3 :: d4 :: l)
               = let n := ((d1 * 64 + d2) * 64 + d3) * 64 + d4 in
                 String (char (n / 65536)) (String (char (n / 256 mod 256))
                   (String (char (n mod 256)) (Base64.bytes l))))
      by (intros; destruct l as [|? [|? [|? ?]]]; reflexivity).
    rewrite Hb, IH. cbv zeta.
    destruct (sextet_digits (code c1 * 65536 + code c2 * 256 + code c3))
      as (-> & -> & ->).
    destruct (bytes_group c1 c2 c3) as (-> & -> & ->). reflexivity.
Qed.

Lemma length_btoa (s : string) : (String.length (Base64.btoa s) mod 4 = 0)%nat.
Proof.
  induction s as [| c1 | c1 c2 | c1 c2 c3 rest IH] using string_ind3;
    try reflexivity.
  cbn [Base64.btoa String.length]. cbv zeta. cbn [String.length].
  replace (S (S (S (S (String.length (Base64.btoa rest))))))
    with (String.length (Base64.btoa rest) + 1 * 4)%nat by lia.
  now rewrite Nat.Div0.mod_add.
Qed.

(** [atob] inverts [btoa]. *)
Lemma atob_btoa (s : string) : Base64.atob (Base64.btoa s) = Ok s.
Proof.
  pose proof (length_btoa s) as Hlen.
  destruct (btoa_sextets s) as (p & E & Hp).
  pose proof (sextets_range s) as Hr.
  unfold Base64.atob. rewrite E in *.
  rewrite remove_whitespace_digits by assumption.
  rewrite Hlen. cbn [Nat.eqb].
  rewrite strip_padding_digits by assumption.
  assert (Hl : (String.length (digits (sextets s)) mod 4 =? 1)%nat = false).
  { rewrite length_digits. apply Nat.eqb_neq.
    destruct (length_sextets s) as (k & [-> | [-> | ->]]).
    - rewrite Nat.mul_comm, Nat.Div0.mod_mul. discriminate.
    - rewrite Nat.add_comm, Nat.mul_comm, Nat.Div0.mod_add. discriminate.
    - rewrite Nat.add_comm, Nat.mul_comm, Nat.Div0.mod_add. discriminate. }
  rewrite Hl, values_digits by exact Hr. now rewrite bytes_sextets.
Qed.

(** ** JSON: the fuel of the parser is enough *)

Lemma skip_ws_length (s : string) :
  (String.length (skip_ws s) <= String.length s)%nat.
Proof.
  induction s as [|c s IH]; simpl; [lia|].
  destruct (is_ws c); simpl; lia.
Qed.

Lemma read_digits_length (s : string) (a : Z) :
  (String.length (snd (read_digits a s)) <= String.length s)%nat.
Proof.
  revert a. induction s as [|c s IH]; intros a; cbn [read_digits String.length snd];
    [lia|].
  destruct (is_digit c); cbn [String.length snd];
    [specialize (IH (10 * a + (code c - 48))); lia | lia].
Qed.

(** Splits the tests that a hypothesis on the result of a parser goes
    through. *)
Ltac split_tests H :=
  repeat match type of H with
    | context [match ?x with _ => _ end] =>
        let E := fresh "E" in destruct x eqn:E; try discriminate H
    end.

Lemma skip_digits1_length (s r : string) :
  skip_digits1 s = Some r -> (String.length r < String.length s)%nat.
Proof.
  unfold skip_digits1. intros H. split_tests H.
  injection H as <-. pose proof (read_digits_length s0 0).
  cbn [String.length]. lia.
Qed.

Lemma skip_fraction_length (s r : string) (f : bool) :
  skip_fraction s = Some (f, r) -> (String.length r <= String.length s)%nat.
Proof.
  unfold skip_fraction. intros H. split_tests H; injection H as <- <-;
    try (apply skip_digits1_length in E1); cbn [String.length] in *; lia.
Qed.

Lemma skip_exponent_length (s r : string) (f : bool) :
  skip_exponent s = Some (f, r) -> (String.length r <= String.length s)%nat.
Proof.
  unfold skip_exponent. destruct s as [|c r0]; intros H;
    [injection H as <- <-; lia|].
  destruct (Ascii.eqb c "e" || Ascii.eqb c "E");
    [|injection H as <- <-; lia].
  match type of H with
  | match skip_digits1 ?x with _ => _ end = _ => set (r1 := x) in *
  end.
  assert (Hr1 : (String.length r1 <= String.length r0)%nat).
  { subst r1. destruct r0 as [|c1 r']; [lia|].
    destruct (Ascii.eqb c1 "+" || Ascii.eqb c1 "-"); cbn [String.length]; lia. }
  destruct (skip_digits1 r1) eqn:E; [|discriminate H].
  apply skip_digits1_length in E. injection H as <- <-.
  cbn [String.length]. lia.
Qed.

Lemma read_int_part_length (s r : string) (n : Z) :
  read_int_part s = Some (n, r) -> (String.length r < String.length s)%nat.
Proof.
  unfold read_int_part. intros H. split_tests H.
  - injection H as <- <-. cbn [String.length]. lia.
  - pose proof (read_digits_length s0 (code a - 48)) as Hl.
    injection H as H. rewrite H in Hl. cbn [String.length snd] in *. lia.
Qed.

Lemma parse_number_length (s r : string) (j : json) :
  parse_number s = Some (j, r) -> (String.length r < String.length s)%nat.
Proof.
  unfold parse_number. intros H.
  match type of H with
  | (let '(negative, s1) := ?x in _) = _ =>
      assert (Hs : (String.length (snd x) <= String.length s)%nat);
      [|destruct x as [negative s1]]
  end.
  { destruct s as [|c r0]; [cbn [snd]; lia|].
    destruct (Ascii.eqb c "-"); cbn [snd String.length]; lia. }
  cbn [snd] in Hs.
  destruct (read_int_part s1) as [[n s2]|] eqn:E1; [|discriminate H].
  destruct (skip_fraction s2) as [[frac s3]|] eqn:E2; [|discriminate H].
  destruct (skip_exponent s3) as [[exp s4]|] eqn:E3; [|discriminate H].
  apply read_int_part_length in E1. apply skip_fraction_length in E2.
  apply skip_exponent_length in E3.
  destruct (frac || exp); injection H as <- <-; lia.
Qed.

Lemma parse_string_body_length (n : nat) :
  forall (s r : string) (l : list Z),
    (String.length s <= n)%nat ->
    parse_string_body s = Some (l, r) -> (String.length r < String.length s)%nat.
Proof.
  induction n as [|n IH]; intros s r l Hn H.
  - destruct s; [discriminate H | cbn [String.length] in Hn; lia].
  - destruct s as [|c s']; [discriminate H|].
    cbn [parse_string_body] in H. cbn [String.length] in *.
    destruct (Ascii.eqb c dquote); [injection H as <- <-; lia|].
    destruct (Ascii.eqb c "\").
    + destruct s' as [|e r1]; [discriminate H|].
      cbn [String.length] in *.
      assert (Hrec : forall x t, (String.length t <= String.length r1)%nat ->
                match parse_string_body t with
                | Some (l0, rest) => Some (x :: l0, rest)
                | None => None
                end = Some (l, r) ->
                (String.length r < S (S (String.length r1)))%nat).
      { intros x t Ht Hx. destruct (parse_string_body t) as [[l0 rest]|] eqn:Et;
          [|discriminate Hx]. injection Hx as <- <-.
        apply IH in Et; lia. }
      destruct e as [b0 b1 b2 b3 b4 b5 b6 b7].
      destruct b0, b1, b2, b3, b4, b5, b6, b7; cbn in H;
        try discriminate H;
        try (apply Hrec in H; [exact H | lia]);
        repeat match type of H with
          | match ?t with _ => _ end = _ =>
              destruct t eqn:?; try discriminate H; cbn [String.length] in *
          end;
        try (apply Hrec in H; [exact H | cbn [String.length]; lia]);
        try (injection H as <- <-;
             match goal with
             | E : parse_string_body _ = Some _ |- _ =>
                 apply IH in E; cbn [String.length] in *; lia
             end).
    + destruct (code c <? 32); [discriminate H|].
      destruct (parse_string_body s') as [[l0 rest]|] eqn:Et; [|discriminate H].
      injection H as <- <-. apply IH in Et; lia.
Qed.

Lemma length_substring (n m : nat) (s : string) :
  (String.length (substring n m s) <= m)%nat.
Proof.
  revert n m. induction s as [|c s IH]; intros n m.
  - destruct n, m; cbn; lia.
  - destruct n as [|n].
    + destruct m as [|m]; cbn [substring String.length]; [lia|].
      specialize (IH 0%nat m). lia.
    + cbn [substring]. apply IH.
Qed.

Lemma prefix_length (w s : string) :
  prefix w s = true -> (String.length w <= String.length s)%nat.
Proof.
  revert s. induction w as [|c w IH]; intros s H; [cbn; lia|].
  destruct s as [|d s]; [discriminate H|].
  cbn [prefix] in H. destruct (ascii_dec c d); [|discriminate H].
  apply IH in H. cbn [String.length]. lia.
Qed.

Lemma expect_length (w s r : string) (j j' : json) :
  (0 < String.length w)%nat ->
  expect w j s = Some (j', r) -> (String.length r < String.length s)%nat.
Proof.
  unfold expect. intros Hw H.
  destruct (prefix w s) eqn:E; [|discriminate H].
  injection H as <- <-. apply prefix_length in E.
  pose proof (length_substring (String.length w)
                (String.length s - String.length w) s). lia.
Qed.

(** Every parser consumes at least one character. *)
Lemma parse_progress (fuel : nat) :
  (forall s j r, parse_value fuel s = Some (j, r) ->
                 (String.length r < String.length s)%nat)
  /\ (forall s acc j r, parse_elements fuel s acc = Some (j, r) ->
                        (String.length r < String.length s)%nat)
  /\ (forall s acc j r, parse_members fuel s acc = Some (j, r) ->
                        (String.length r < String.length s)%nat).
Proof.
  induction fuel as [|fuel (IHv & IHe & IHm)];
    [repeat split; intros; discriminate|].
  split; [|split].
  - intros s j r H. cbn [parse_value] in H.
    pose proof (skip_ws_length s) as Hs.
    destruct (skip_ws s) as [|c t]; [discriminate H|].
    cbn [String.length] in Hs.
    destruct (Ascii.eqb c "{").
    { pose proof (skip_ws_length t) as Ht.
      destruct (skip_ws t) as [|c' t']; [discriminate H|].
      cbn [String.length] in Ht.
      destruct (Ascii.eqb c' "}"); [injection H as <- <-; lia|].
      apply IHm in H. lia. }
    destruct (Ascii.eqb c "[").
    { pose proof (skip_ws_length t) as Ht.
      destruct (skip_ws t) as [|c' t']; [discriminate H|].
      cbn [String.length] in Ht.
      destruct (Ascii.eqb c' "]"); [injection H as <- <-; lia|].
      apply IHe in H. lia. }
    destruct (Ascii.eqb c dquote).
    { destruct (parse_string_body t) as [[l t']|] eqn:E; [|discriminate H].
      injection H as <- <-.
      apply (parse_string_body_length (String.length t)) in E; lia. }
    destruct (Ascii.eqb c "t");
      [apply expect_length in H; cbn [String.length] in *; lia|].
    destruct (Ascii.eqb c "f");
      [apply expect_length in H; cbn [String.length] in *; lia|].
    destruct (Ascii.eqb c "n");
      [apply expect_length in H; cbn [String.length] in *; lia|].
    apply parse_number_length in H. cbn [String.length] in *. lia.
  - intros s acc j r H. cbn [parse_elements] in H.
    destruct (parse_value fuel s) as [[j1 r1]|] eqn:E; [|discriminate H].
    apply IHv in E. pose proof (skip_ws_length r1) as Hs.
    destruct (skip_ws r1) as [|c t]; [discriminate H|].
    cbn [String.length] in Hs.
    destruct (Ascii.eqb c ","); [apply IHe in H; lia|].
    destruct (Ascii.eqb c "]"); [injection H as <- <-; lia | discriminate H].
  - intros s acc j r H. cbn [parse_members] in H.
    pose proof (skip_ws_length s) as Hs.
    destruct (skip_ws s) as [|c t]; [discriminate H|].
    cbn [String.length] in Hs.
    destruct (Ascii.eqb c dquote); [|discriminate H].
    destruct (parse_string_body t) as [[key r1]|] eqn:E; [|discriminate H].
    apply (parse_string_body_length (String.length t)) in E; [|lia].
    pose proof (skip_ws_length r1) as Hs1.
    destruct (skip_ws r1) as [|c1 r2]; [discriminate H|].
    cbn [String.length] in Hs1.
    destruct (Ascii.eqb c1 ":"); [|discriminate H].
    destruct (parse_value fuel r2) as [[j1 r3]|] eqn:Ev; [|discriminate H].
    apply IHv in Ev. pose proof (skip_ws_length r3) as Hs3.
    destruct (skip_ws r3) as [|c3 r']; [discriminate H|].
    cbn [String.length] in Hs3.
    destruct (Ascii.eqb c3 ","); [apply IHm in H; lia|].
    destruct (Ascii.eqb c3 "}"); [injection H as <- <-; lia | discriminate H].
Qed.

Lemma parse_value_S (fuel : nat) (s : string) :
  parse_value (S fuel) s
  = match skip_ws s with
    | EmptyString => None
    | String c r as s' =>
        if Ascii.eqb c "{" then
          match skip_ws r with
          | String c' r' =>
              if Ascii.eqb c' "}" then Some (JObj [], r')
              else parse_members fuel r []
          | EmptyString => None
          end
        else if Ascii.eqb c "[" then
          match skip_ws r with
          | String c' r' =>
              if Ascii.eqb c' "]" then Some (JArr [], r')
              else parse_elements fuel r []
          | EmptyString => None
          end
        else if Ascii.eqb c dquote then
          match parse_string_body r with
          | Some (l, r') => Some (JStr l, r')
          | None => None
          end
        else if Ascii.eqb c "t" then expect "true" (JBool true) s'
        else if Ascii.eqb c "f" then expect "false" (JBool false) s'
        else if Ascii.eqb c "n" then expect "null" JNull s'
        else parse_number s'
    end.
Proof. reflexivity. Qed.

Lemma parse_elements_S (fuel : nat) (s : string) (acc : list json) :
  parse_elements (S fuel) s acc
  = match parse_value fuel s with
    | None => None
    | Some (j, r) =>
        match skip_ws r with
        | String c r' =>
            if Ascii.eqb c "," then parse_elements fuel r' (j :: acc)
            else if Ascii.eqb c "]" then Some (JArr (rev (j :: acc)), r')
            else None
        | EmptyString => None
        end
    end.
Proof. reflexivity. Qed.

Lemma parse_members_S (fuel : nat) (s : string) (acc : list (list Z * json)) :
  parse_members (S fuel) s acc
  = match skip_ws s with
    | String c r =>
        if Ascii.eqb c dquote then
          match parse_string_body r with
          | None => None
          | Some (key, r1) =>
              match skip_ws r1 with
              | String c1 r2 =>
                  if Ascii.eqb c1 ":" then
                    match parse_value fuel r2 with
                    | None => None
                    | Some (j, r3) =>
                        match skip_ws r3 with
                        | String c3 r' =>
                            if Ascii.eqb c3 "," then
                              parse_members fuel r' ((key, j) :: acc)
                            else if Ascii.eqb c3 "}" then
                              Some (JObj (rev ((key, j) :: acc)), r')
                            else None
                        | EmptyString => None
                        end
                    end
                  else None
              | EmptyString => None
              end
          end
        else None
    | EmptyString => None
    end.
Proof. reflexivity. Qed.

(** One more unit of fuel changes nothing once the fuel is twice the length
    of the input. *)
Lemma parse_fuel_step (fuel : nat) :
  (forall s, (2 * String.length s + 1 <= fuel)%nat ->
             parse_value (S fuel) s = parse_value fuel s)
  /\ (forall s acc, (2 * String.length s + 2 <= fuel)%nat ->
                    parse_elements (S fuel) s acc = parse_elements fuel s acc)
  /\ (forall s acc, (2 * String.length s + 2 <= fuel)%nat ->
                    parse_members (S fuel) s acc = parse_members fuel s acc).
Proof.
  induction fuel as [|fuel (IHv & IHe & IHm)];
    [repeat split; intros; lia|].
  destruct (parse_progress fuel) as (Pv & _ & _).
  split; [|split].
  - intros s Hf.
    rewrite (parse_value_S (S fuel)), (parse_value_S fuel).
    pose proof (skip_ws_length s) as Hs.
    destruct (skip_ws s) as [|c t]; [reflexivity|].
    cbn [String.length] in Hs.
    rewrite (IHm t []), (IHe t []) by lia. reflexivity.
  - intros s acc Hf.
    rewrite (parse_elements_S (S fuel)), (parse_elements_S fuel s acc).
    rewrite IHv by lia.
    destruct (parse_value fuel s) as [[j r1]|] eqn:E; [|reflexivity].
    apply Pv in E. pose proof (skip_ws_length r1) as Hs.
    destruct (skip_ws r1) as [|c t]; [reflexivity|].
    cbn [String.length] in Hs. rewrite IHe by lia. reflexivity.
  - intros s acc Hf.
    rewrite (parse_members_S (S fuel)), (parse_members_S fuel s acc).
    pose proof (skip_ws_length s) as Hs.
    destruct (skip_ws s) as [|c t]; [reflexivity|].
    cbn [String.length] in Hs.
    destruct (Ascii.eqb c dquote); [|reflexivity].
    destruct (parse_string_body t) as [[key r1]|] eqn:E; [|reflexivity].
    apply (parse_string_body_length (String.length t)) in E; [|lia].
    pose proof (skip_ws_length r1) as Hs1.
    destruct (skip_ws r1) as [|c1 r2]; [reflexivity|].
    cbn [String.length] in Hs1.
    destruct (Ascii.eqb c1 ":"); [|reflexivity].
    rewrite IHv by lia.
    destruct (parse_value fuel r2) as [[j r3]|] eqn:Ev; [|reflexivity].
    apply Pv in Ev. pose proof (skip_ws_length r3) as Hs3.
    destruct (skip_ws r3) as [|c3 r']; [reflexivity|].
    cbn [String.length] in Hs3. rewrite IHm by lia. reflexivity.
Qed.

(** The fuel of [parse] is enough: more fuel gives the same result. *)
Lemma parse_fuel (s : string) (extra : nat) :
  parse_value (2 * String.length s + 2 + extra) s
  = parse_value (2 * String.length s + 2) s.
Proof.
  induction extra as [|extra IH]; [now rewrite Nat.add_0_r|].
  rewrite Nat.add_succ_r.
  rewrite (proj1 (parse_fuel_step _)) by lia. exact IH.
Qed.

(** ** JSON: numbers *)

Lemma code_char (n : Z) : 0 <= n < 256 -> code (char n) = n.
Proof.
  intros H. unfold code, char.
  rewrite N_ascii_embedding by lia. lia.
Qed.

Lemma append_assoc (x y z : string) : ((x ++ y) ++ z = x ++ (y ++ z))%string.
Proof. induction x as [|c x IH]; simpl; [reflexivity | now rewrite IH]. Qed.

Lemma length_append (x y : string) :
  String.length (x ++ y) = (String.length x + String.length y)%nat.
Proof. induction x as [|c x IH]; simpl; [reflexivity | now rewrite IH]. Qed.

Lemma decimal_digits_append (fuel : nat) (n : Z) (acc rest : string) :
  (decimal_digits fuel n acc ++ rest)%string = decimal_digits fuel n (acc ++ rest).
Proof.
  revert n acc. induction fuel as [|fuel IH]; intros n acc; [reflexivity|].
  cbn [decimal_digits]. cbv zeta. destruct (n <? 10); [reflexivity|].
  now rewrite IH.
Qed.

(** What the tests of the parser answer on a digit. *)
Lemma digit_tests (c : ascii) :
  Json.is_digit c = true ->
  Json.is_ws c = false
  /\ Ascii.eqb c "{" = false /\ Ascii.eqb c "[" = false
  /\ Ascii.eqb c dquote = false /\ Ascii.eqb c "t" = false
  /\ Ascii.eqb c "f" = false /\ Ascii.eqb c "n" = false
  /\ Ascii.eqb c "-" = false.
Proof.
  destruct c as [[] [] [] [] [] [] [] []]; intros H; try discriminate H;
    repeat split.
Qed.

Lemma read_digits_stop (a : Z) (rest : string) :
  delimited rest -> Json.read_digits a rest = (a, rest).
Proof. intros (c & r & -> & [-> | [-> | ->]]); reflexivity. Qed.

Lemma decimal_digits_read (fuel : nat) :
  forall (n : Z) (acc : string),
    (0 < fuel)%nat -> 0 <= n < 2 ^ Z.of_nat fuel ->
    (n = 0 -> decimal_digits fuel n acc = String "0" acc)
    /\ (1 <= n ->
        exists c r, decimal_digits fuel n acc = String c r
                    /\ Json.is_digit c = true /\ Ascii.eqb c "0" = false
                    /\ Json.read_digits (code c - 48) r = Json.read_digits n acc).
Proof.
  induction fuel as [|fuel IH]; intros n acc Hf Hn; [lia|].
  cbn [decimal_digits]. cbv zeta.
  destruct (n <? 10) eqn:E.
  - apply Z.ltb_lt in E. split.
    + intros ->. reflexivity.
    + intros H1. eexists _, acc. split; [reflexivity|].
      assert (Hc : code (char (48 + n mod 10)) = 48 + n)
        by (rewrite code_char, Z.mod_small by dlia; reflexivity).
      split; [|split].
      * unfold Json.is_digit. rewrite Hc. apply in_range_true. lia.
      * apply Ascii.eqb_neq. intros Hz.
        apply (f_equal code) in Hz. rewrite Hc in Hz.
        change (code "0") with 48 in Hz. lia.
      * rewrite Hc. f_equal. lia.
  - apply Z.ltb_ge in E. split; [lia|]. intros _.
    assert (Hp : 2 ^ Z.of_nat (S fuel) = 2 * 2 ^ Z.of_nat fuel)
      by (rewrite Nat2Z.inj_succ, Z.pow_succ_r by lia; reflexivity).
    assert (Hf' : (0 < fuel)%nat).
    { destruct fuel; [|lia]. change (2 ^ Z.of_nat 1) with 2 in Hn. lia. }
    destruct (IH (n / 10) (String (char (48 + n mod 10)) acc) Hf' ltac:(dlia))
      as [_ H]. destruct (H ltac:(dlia)) as (c & r & E1 & E2 & E3 & E4).
    exists c, r. repeat split; try assumption.
    rewrite E4. cbn [Json.read_digits].
    assert (Hc : code (char (48 + n mod 10)) = 48 + n mod 10)
      by (rewrite code_char by dlia; reflexivity).
    assert (Hd : Json.is_digit (char (48 + n mod 10)) = true)
      by (unfold Json.is_digit; rewrite Hc; apply in_range_true; dlia).
    rewrite Hd, Hc. f_equal. dlia.
Qed.

Lemma decimal_read (n : Z) (rest : string) :
  0 <= n ->
  (n = 0 -> (decimal n ++ rest)%string = String "0" rest)
  /\ (1 <= n ->
      exists c r, (decimal n ++ rest)%string = String c r
                  /\ Json.is_digit c = true /\ Ascii.eqb c "0" = false
                  /\ Json.read_digits (code c - 48) r = Json.read_digits n rest).
Proof.
  intros Hn. unfold decimal. rewrite decimal_digits_append. cbn [append].
  apply decimal_digits_read; [lia|].
  split; [exact Hn|].
  rewrite Nat2Z.inj_succ, Z2Nat.id by apply Z.log2_nonneg.
  destruct (Z.eq_dec n 0) as [->|H0]; [reflexivity|].
  apply Z.log2_spec. lia.
Qed.

Lemma number_tail (x : Z) (rest : string) :
  delimited rest ->
  match Json.skip_fraction rest with
  | None => None
  | Some (frac, s3) =>
      match Json.skip_exponent s3 with
      | None => None
      | Some (exp, s4) =>
          if frac || exp then Some (JFrac, s4) else Some (JNum x, s4)
      end
  end = Some (JNum x, rest).
Proof. intros (c & r & -> & [-> | [-> | ->]]); reflexivity. Qed.

Lemma parse_number_natural (n : Z) (rest : string) :
  0 <= n -> delimited rest ->
  Json.read_int_part (decimal n ++ rest) = Some (n, rest).
Proof.
  intros Hn Hd. destruct (decimal_read n rest Hn) as [H0 H1].
  destruct (Z.eq_dec n 0) as [->|Hz].
  - rewrite H0 by reflexivity. reflexivity.
  - destruct (H1 ltac:(lia)) as (c & r & -> & Hc & Hc0 & Hr).
    unfold Json.read_int_part. rewrite Hc0, Hc, Hr.
    now rewrite read_digits_stop.
Qed.

Lemma decimal_first (n : Z) (rest : string) :
  0 <= n ->
  exists c r, (decimal n ++ rest)%string = String c r /\ Json.is_digit c = true.
Proof.
  intros Hn. destruct (decimal_read n rest Hn) as [H0 H1].
  destruct (Z.eq_dec n 0) as [->|Hz].
  - exists "0"%char, rest. split; [now apply H0 | reflexivity].
  - destruct (H1 ltac:(lia)) as (c & r & E & Hc & _). now exists c, r.
Qed.

(** A printed integer, read by [parse_value] in front of a delimiter. *)
Lemma parse_value_number (fuel : nat) (z : Z) (rest : string) :
  (0 < fuel)%nat -> delimited rest ->
  Json.parse_value fuel (stringify_number (Int z) ++ rest) = Some (JNum z, rest).
Proof.
  intros Hf Hd. destruct fuel as [|fuel]; [lia|].
  cbn [stringify_number]. destruct (z <? 0) eqn:E.
  - apply Z.ltb_lt in E. cbn [append Json.parse_value Json.skip_ws].
    change (Json.is_ws "-") with false. cbv iota.
    change (Ascii.eqb "-" "{") with false. change (Ascii.eqb "-" "[") with false.
    change (Ascii.eqb "-" dquote) with false. change (Ascii.eqb "-" "t") with false.
    change (Ascii.eqb "-" "f") with false. change (Ascii.eqb "-" "n") with false.
    cbv iota. unfold Json.parse_number.
    change (Ascii.eqb "-" "-") with true. cbv iota.
    rewrite parse_number_natural by (try lia; exact Hd).
    rewrite (number_tail (- - z) rest Hd). now rewrite Z.opp_involutive.
  - apply Z.ltb_ge in E.
    pose proof (parse_number_natural z rest E Hd) as Hp.
    destruct (decimal_first z rest E) as (c & r & Ec & Hc).
    rewrite Ec in *. destruct (digit_tests c Hc) as (T1 & T2 & T3 & T4 & T5 & T6 & T7 & T8).
    cbn [Json.parse_value Json.skip_ws]. rewrite T1, T2, T3, T4, T5, T6, T7.
    unfold Json.parse_number. rewrite T8, Hp.
    apply (number_tail z rest Hd).
Qed.

(** ** JSON: the container *)

Lemma join_then (l : list string) (k : string) :
  (join "," l ++ k)%string = elements_then l k.
Proof.
  induction l as [|x l IH]; [reflexivity|].
  destruct l as [|y l]; [reflexivity|].
  cbn [join elements_then] in *. now rewrite !append_assoc, IH.
Qed.

(** The first character of a printed integer. *)
Lemma number_first (z : Z) (rest : string) :
  exists c r, (stringify_number (Int z) ++ rest)%string = String c r
              /\ Json.is_ws c = false /\ Ascii.eqb c "]" = false
              /\ Ascii.eqb c "}" = false.
Proof.
  cbn [stringify_number]. destruct (z <? 0) eqn:E.
  - eexists _, _. split; [reflexivity | repeat split].
  - apply Z.ltb_ge in E. destruct (decimal_first z rest E) as (c & r & -> & Hc).
    exists c, r. split; [reflexivity|].
    destruct c as [[] [] [] [] [] [] [] []]; try discriminate Hc; repeat split.
Qed.

Lemma length_number_pos (z : Z) (rest : string) :
  (String.length rest < String.length (stringify_number (Int z) ++ rest))%nat.
Proof.
  destruct (number_first z EmptyString) as (c & r & E & _).
  rewrite append_empty_r in E. rewrite length_append, E. cbn [String.length]. lia.
Qed.

Lemma parse_elements_numbers (l : list Z) :
  l <> [] ->
  forall (acc : list json) (fuel : nat) (rest : string),
    (length l < fuel)%nat ->
    Json.parse_elements fuel
      (elements_then (map stringify_number (ints l)) (String "]" rest)) acc
    = Some (JArr (rev acc ++ map JNum l), rest).
Proof.
  induction l as [|z l IH]; intros Hne acc fuel rest Hf; [contradiction|].
  destruct fuel as [|fuel]; [lia|].
  assert (Hd : forall s, delimited (String "]" s)) by (intros; eexists _, _; eauto).
  assert (Hd' : forall s, delimited (String "," s)) by (intros; eexists _, _; eauto).
  destruct l as [|z' l'].
  - cbn [ints map elements_then Json.parse_elements].
    rewrite parse_value_number by (simpl in Hf; try lia; apply Hd).
    cbn [Json.skip_ws]. change (Json.is_ws "]") with false.
    change (Ascii.eqb "]" ",") with false. change (Ascii.eqb "]" "]") with true.
    cbv iota. cbn [rev]. reflexivity.
  - change (elements_then (map stringify_number (ints (z :: z' :: l'))) (String "]" rest))
      with (stringify_number (Int z)
            ++ String "," (elements_then (map stringify_number (ints (z' :: l')))
                                         (String "]" rest)))%string.
    cbn [Json.parse_elements].
    rewrite parse_value_number by (simpl in Hf; try lia; apply Hd').
    cbn [Json.skip_ws]. change (Json.is_ws ",") with false.
    change (Ascii.eqb "," ",") with true. cbv iota.
    rewrite IH by (simpl in *; try lia; discriminate).
    cbn [rev map]. now rewrite <- app_assoc.
Qed.

Lemma parse_value_vector (fuel : nat) (x : list Z) (rest : string) :
  (length x + 1 < fuel)%nat ->
  Json.parse_value fuel (stringify_vector (ints x) ++ rest)
  = Some (JArr (map JNum x), rest).
Proof.
  intros Hf. destruct fuel as [|fuel]; [lia|].
  unfold stringify_vector. rewrite !append_assoc, join_then.
  cbn [append Json.parse_value Json.skip_ws].
  change (Json.is_ws "[") with false. cbv iota.
  change (Ascii.eqb "[" "{") with false. change (Ascii.eqb "[" "[") with true.
  cbv iota.
  destruct x as [|z x].
  - reflexivity.
  - assert (Hs : exists c r,
               elements_then (map stringify_number (ints (z :: x))) (String "]" rest)
               = String c r /\ Json.is_ws c = false /\ Ascii.eqb c "]" = false).
    { destruct x as [|z' x'].
      - destruct (number_first z (String "]" rest)) as (c & r & E & H1 & H2 & _).
        exists c, r. auto.
      - destruct (number_first z
                    (String "," (elements_then (map stringify_number (ints (z' :: x')))
                                               (String "]" rest))))
          as (c & r & E & H1 & H2 & _).
        exists c, r. auto. }
    destruct Hs as (c & r & E & H1 & H2).
    rewrite E. cbn [Json.skip_ws]. rewrite H1, H2, <- E.
    rewrite parse_elements_numbers by (simpl in *; try lia; discriminate).
    reflexivity.
Qed.

Lemma stringify_block_then (x : list Z) (vz : Z) (rest : string) :
  (stringify_block {| u := ints x; v := Int vz |} ++ rest)%string
  = String "{" (String dquote (String "u" (String dquote (String ":"
      (stringify_vector (ints x)
       ++ String "," (String dquote (String "v" (String dquote (String ":"
            (stringify_number (Int vz) ++ String "}" rest)))))))))).
Proof.
  unfold stringify_block, quoted, str. cbn [u v].
  rewrite !append_assoc. cbn [append]. rewrite ?append_assoc. reflexivity.
Qed.

Lemma string_body_u (r : string) :
  Json.parse_string_body (String "u" (String dquote r)) = Some (units "u", r).
Proof. reflexivity. Qed.

Lemma string_body_v (r : string) :
  Json.parse_string_body (String "v" (String dquote r)) = Some (units "v", r).
Proof. reflexivity. Qed.

Lemma json_of_ints (x : list Z) : map json_of_number (ints x) = map JNum x.
Proof. unfold ints. rewrite map_map. reflexivity. Qed.

Lemma parse_value_block (fuel : nat) (x : list Z) (vz : Z) (rest : string) :
  (length x + 3 < fuel)%nat ->
  Json.parse_value fuel (stringify_block {| u := ints x; v := Int vz |} ++ rest)
  = Some (json_of_block {| u := ints x; v := Int vz |}, rest).
Proof.
  intros Hf. rewrite stringify_block_then.
  destruct fuel as [|[|[|fuel]]]; try lia.
  cbn [Json.parse_value Json.skip_ws].
  change (Json.is_ws "{") with false. change (Json.is_ws dquote) with false.
  cbv iota.
  change (Ascii.eqb "{" "{") with true. change (Ascii.eqb dquote "}") with false.
  cbv iota.
  cbn [Json.parse_members Json.skip_ws].
  change (Json.is_ws dquote) with false. cbv iota.
  change (Ascii.eqb dquote dquote) with true. cbv iota.
  rewrite string_body_u.
  cbv iota beta. cbn [Json.skip_ws].
  change (Json.is_ws ":") with false. cbv iota.
  change (Ascii.eqb ":" ":") with true. cbv iota.
  rewrite parse_value_vector by lia.
  cbn [Json.skip_ws]. change (Json.is_ws ",") with false. cbv iota.
  change (Ascii.eqb "," ",") with true. cbv iota.
  cbn [Json.parse_members Json.skip_ws].
  change (Json.is_ws dquote) with false. cbv iota.
  change (Ascii.eqb dquote dquote) with true. cbv iota.
  rewrite string_body_v.
  cbv iota beta. cbn [Json.skip_ws].
  change (Json.is_ws ":") with false. cbv iota.
  change (Ascii.eqb ":" ":") with true. cbv iota.
  rewrite parse_value_number by (try lia; eexists _, _; eauto).
  unfold json_of_block. cbn [u v json_of_number]. rewrite json_of_ints.
  reflexivity.
Qed.

Lemma length_elements_numbers (x : list Z) (k : string) :
  (length x + String.length k
   <= String.length (elements_then (map stringify_number (ints x)) k))%nat.
Proof.
  induction x as [|z x IH]; [simpl; lia|].
  destruct x as [|z' x'].
  - cbn [ints map elements_then length]. pose proof (length_number_pos z k).
    lia.
  - change (elements_then (map stringify_number (ints (z :: z' :: x'))) k)
      with (stringify_number (Int z)
            ++ String "," (elements_then (map stringify_number (ints (z' :: x'))) k))%string.
    pose proof (length_number_pos z
                  (String "," (elements_then (map stringify_number (ints (z' :: x'))) k))).
    cbn [String.length length] in *. lia.
Qed.

Lemma length_block (x : list Z) (vz : Z) (rest : string) :
  (length x + 4 + String.length rest
   < String.length (stringify_block {| u := ints x; v := Int vz |} ++ rest))%nat.
Proof.
  rewrite stringify_block_then. unfold stringify_vector.
  rewrite !append_assoc, join_then. cbn [append String.length].
  match goal with |- context [elements_then _ ?k] =>
    pose proof (length_elements_numbers x k) as H end.
  cbn [append String.length] in H. rewrite length_append in H.
  cbn [String.length] in H. lia.
Qed.

Lemma block_first (blk : EncryptedBlock) (rest : string) :
  exists r, (stringify_block blk ++ rest)%string = String "{" r.
Proof. eexists. unfold stringify_block. cbn [append]. reflexivity. Qed.

Lemma parse_elements_blocks (bl : list EncryptedBlock) :
  Forall int_block bl -> bl <> [] ->
  forall (acc : list json) (fuel : nat) (rest : string),
    (String.length (elements_then (map stringify_block bl) (String "]" rest))
     < fuel)%nat ->
    Json.parse_elements fuel
      (elements_then (map stringify_block bl) (String "]" rest)) acc
    = Some (JArr (rev acc ++ map json_of_block bl), rest).
Proof.
  induction 1 as [|blk bl (x & vz & ->) Hbl IH]; intros Hne acc fuel rest Hf;
    [contradiction|].
  destruct fuel as [|fuel]; [lia|].
  destruct bl as [|blk' bl'].
  - cbn [map elements_then] in *.
    pose proof (length_block x vz (String "]" rest)).
    cbn [Json.parse_elements].
    rewrite parse_value_block by lia.
    cbn [Json.skip_ws]. change (Json.is_ws "]") with false.
    change (Ascii.eqb "]" ",") with false. change (Ascii.eqb "]" "]") with true.
    cbv iota. cbn [rev]. reflexivity.
  - set (tail := elements_then (map stringify_block (blk' :: bl')) (String "]" rest)) in *.
    change (elements_then (map stringify_block ({| u := ints x; v := Int vz |} :: blk' :: bl'))
                          (String "]" rest))
      with (stringify_block {| u := ints x; v := Int vz |} ++ String "," tail)%string in *.
    pose proof (length_block x vz (String "," tail)) as Hl.
    cbn [String.length] in Hl.
    cbn [Json.parse_elements].
    rewrite parse_value_block by lia.
    cbn [Json.skip_ws]. change (Json.is_ws ",") with false.
    change (Ascii.eqb "," ",") with true. cbv iota.
    subst tail. rewrite IH by (try discriminate; lia).
    cbn [rev map]. now rewrite <- app_assoc.
Qed.

Lemma string_body_blocks (r : string) :
  Json.parse_string_body ltac:(let t := eval cbn [append] in ("blocks" ++ String dquote r)%string in exact t)
  = Some (units "blocks", r).
Proof. reflexivity. Qed.

Lemma string_body_meta (r : string) :
  Json.parse_string_body ltac:(let t := eval cbn [append] in ("meta" ++ String dquote r)%string in exact t)
  = Some (units "meta", r).
Proof. reflexivity. Qed.

Lemma string_body_timestamp (r : string) :
  Json.parse_string_body ltac:(let t := eval cbn [append] in ("timestamp" ++ String dquote r)%string in exact t)
  = Some (units "timestamp", r).
Proof. reflexivity. Qed.

Lemma stringify_then (bl : list EncryptedBlock) (now : Z) :
  stringify (container_of bl now)
  = ("{" ++ quoted "blocks" ++ ":["
     ++ elements_then (map stringify_block bl)
          (String "]" (String "," (meta_text now))))%string.
Proof.
  unfold stringify, container_of, meta_text. cbn [blocks meta timestamp].
  rewrite <- join_then. rewrite ?append_assoc. reflexivity.
Qed.

Lemma parse_members_meta (fuel : nat) (now : Z) (acc : list (list Z * json)) :
  (5 <= fuel)%nat ->
  Json.parse_members fuel (meta_text now) acc
  = Some (JObj (rev ((units "meta",
                      JObj [(units "timestamp", JNum now);
                            (units "algorithm", JStr (units "LWE-Regev"))])
                       :: acc)), EmptyString).
Proof.
  intros Hf. destruct fuel as [|[|[|[|[|fuel]]]]]; try lia.
  unfold meta_text, quoted, str.
  rewrite !append_assoc. cbn [append]. rewrite ?append_assoc. cbn [append].
  cbn [Json.parse_members Json.skip_ws].
  change (Json.is_ws dquote) with false. cbv iota.
  change (Ascii.eqb dquote dquote) with true. cbv iota.
  rewrite string_body_meta. cbv iota beta. cbn [Json.skip_ws].
  change (Json.is_ws ":") with false. cbv iota.
  change (Ascii.eqb ":" ":") with true. cbv iota.
  cbn [Json.parse_value Json.skip_ws].
  change (Json.is_ws "{") with false. change (Json.is_ws dquote) with false.
  cbv iota.
  change (Ascii.eqb "{" "{") with true. change (Ascii.eqb dquote "}") with false.
  cbv iota.
  cbn [Json.parse_members Json.skip_ws].
  change (Json.is_ws dquote) with false. cbv iota.
  change (Ascii.eqb dquote dquote) with true. cbv iota.
  rewrite string_body_timestamp. cbv iota beta. cbn [Json.skip_ws].
  change (Json.is_ws ":") with false. cbv iota.
  change (Ascii.eqb ":" ":") with true. cbv iota.
  rewrite parse_value_number by (try lia; eexists _, _; eauto).
  reflexivity.
Qed.

Lemma parse_value_container (bl : list EncryptedBlock) (now : Z) (fuel : nat) :
  Forall int_block bl ->
  (String.length (stringify (container_of bl now)) + 2 <= fuel)%nat ->
  Json.parse_value fuel (stringify (container_of bl now))
  = Some (json_of_container (container_of bl now), EmptyString).
Proof.
  intros Hbl Hf. rewrite stringify_then in *.
  unfold quoted, str in *. cbn [append String.length] in Hf.
  cbn [append].
  set (elems := elements_then (map stringify_block bl)
                              (String "]" (String "," (meta_text now)))) in *.
  destruct fuel as [|fuel]; [lia|].
  cbn [Json.parse_value Json.skip_ws].
  change (Json.is_ws "{") with false. change (Json.is_ws dquote) with false.
  cbv iota.
  change (Ascii.eqb "{" "{") with true. change (Ascii.eqb dquote "}") with false.
  cbv iota.
  destruct fuel as [|fuel]; [lia|].
  cbn [Json.parse_members Json.skip_ws].
  change (Json.is_ws dquote) with false. cbv iota.
  change (Ascii.eqb dquote dquote) with true. cbv iota.
  rewrite string_body_blocks. cbv iota beta. cbn [Json.skip_ws].
  change (Json.is_ws ":") with false. cbv iota.
  change (Ascii.eqb ":" ":") with true. cbv iota.
  assert (Harr : Json.parse_value fuel (String "[" elems)
                 = Some (JArr (map json_of_block bl), String "," (meta_text now))).
  { destruct fuel as [|fuel]; [lia|].
    cbn [Json.parse_value Json.skip_ws].
    change (Json.is_ws "[") with false. cbv iota.
    change (Ascii.eqb "[" "{") with false. change (Ascii.eqb "[" "[") with true.
    cbv iota.
    destruct bl as [|blk bl'].
    - reflexivity.
    - destruct (block_first blk
                  (match bl' with
                   | [] => String "]" (String "," (meta_text now))
                   | _ => String "," (elements_then (map stringify_block bl')
                                        (String "]" (String "," (meta_text now))))
                   end)) as (r & E).
      assert (E' : elems = String "{" r)
        by (rewrite <- E; subst elems; destruct bl'; reflexivity).
      rewrite E'. cbn [Json.skip_ws]. change (Json.is_ws "{") with false.
      change (Ascii.eqb "{" "]") with false. cbv iota.
      rewrite <- E'. subst elems.
      rewrite parse_elements_blocks by (try discriminate; try assumption; lia).
      reflexivity. }
  rewrite Harr. cbn [Json.skip_ws]. change (Json.is_ws ",") with false.
  cbv iota. change (Ascii.eqb "," ",") with true. cbv iota.
  rewrite parse_members_meta by lia. reflexivity.
Qed.

(** [JSON.parse] inverts [JSON.stringify] on a container of integer blocks. *)
Lemma parse_stringify (bl : list EncryptedBlock) (now : Z) :
  Forall int_block bl ->
  Json.parse (stringify (container_of bl now))
  = Ok (json_of_container (container_of bl now)).
Proof.
  intros Hbl. unfold Json.parse.
  rewrite parse_value_container by (try assumption; lia). reflexivity.
Qed.

(** ** Decryption of a ciphertext *)

Lemma decryptText_try_container (sk : Vector) (bl : list EncryptedBlock) (now : Z) :
  Forall int_block bl ->
  decryptText_try sk (Base64.btoa (stringify (container_of bl now)))
  = rbind (mapR (decryptBlock sk) (map json_of_block bl)) (fun bits =>
    Ok (TextDecoder_decode (Uint8Array (bits_to_bytes bits)))).
Proof.
  intros Hbl. unfold decryptText_try.
  rewrite atob_btoa. cbn [rbind].
  rewrite parse_stringify by exact Hbl. reflexivity.
Qed.

Lemma int_blocks_doc (a : list (list Z)) (bz bits : list Z) (rs : list (list Z)) :
  Forall int_block (blocks_doc a bz bits rs).
Proof.
  unfold blocks_doc. apply Forall_map, Forall_forall. intros p _.
  eexists _, _. reflexivity.
Qed.

Lemma decrypt_blocks_doc (a : list (list Z)) (s e : list Z) :
  dims a M N -> length s = N -> length e = M -> all_between (-3) 3 e ->
  forall (bits : list Z) (rs : list (list Z)),
    all_between 0 1 bits -> Forall binary_vector rs -> length rs = length bits ->
    mapR (decryptBlock (ints s))
         (map json_of_block (blocks_doc a (noisy_product a s e Q) bits rs))
    = Ok bits.
Proof.
  intros Hd Hs He Hb bits. induction bits as [|bit bits IH];
    intros rs Hbits Hrs Hl.
  - reflexivity.
  - destruct rs as [|r rs]; [discriminate|].
    inversion Hbits; subst. inversion Hrs; subst.
    unfold blocks_doc in *. cbn [combine map mapR fst snd].
    unfold block_doc at 1.
    rewrite decryptBlock_ints by (rewrite length_matTransVecMul_doc; lia).
    fold (decrypt_doc s (matTransVecMul_doc a r Q N)
            ((vecDot_doc (noisy_product a s e Q) r Q + bit * (Q / 2)) mod Q)).
    rewrite decrypt_doc_correct by assumption.
    cbn [rbind]. rewrite IH by (try assumption; simpl in Hl; lia).
    reflexivity.
Qed.

Lemma length_noisy_product (a : list (list Z)) (s e : list Z) (q : Z) :
  length (noisy_product a s e q) = length a.
Proof. unfold noisy_product. now rewrite length_map, length_seq. Qed.

(** What decryption returns on an encryption under a generated key, for any
    well-formed text. *)
Lemma decrypt_encrypt (entropy1 entropy2 : nat -> Z) (k1 k2 : nat) (now : Z)
  (m : text) :
  Forall scalar_value m ->
  exists kp k1' c k2',
    generateKeys entropy1 k1 = Ok (kp, k1')
    /\ encryptText entropy2 (pk kp) m now k2 = Ok (c, k2')
    /\ decryptText (sk kp) (ciphertext c)
       = Ok (TextDecoder_decode (TextEncoder_encode m)).
Proof.
  intros Hm.
  destruct (generateKeys_ok entropy1 k1)
    as (a & s & e & k1' & Eg & Hs & _ & Hd & _ & He & Hb & _).
  pose proof Hd as [Hlen _].
  destruct (encryptText_ok entropy2 a (noisy_product a s e Q) m now k2 Hd
              ltac:(rewrite length_noisy_product; exact Hlen))
    as (rs & sts & k2' & Ee & Hl & Hrs).
  eexists _, k1', _, k2'. split; [exact Eg|]. cbn [pk sk].
  split; [exact Ee|]. cbn [ciphertext].
  unfold decryptText.
  rewrite decryptText_try_container by apply int_blocks_doc.
  rewrite (decrypt_blocks_doc a s e Hd Hs He Hb) by (try assumption; apply bits_binary).
  cbn [rbind].
  pose proof (TextEncoder_encode_range m Hm) as Hr.
  now rewrite bits_to_bytes_bits, Uint8Array_bytes by exact Hr.
Qed.

(** The round trip fails on the text made of U+FEFF alone, under the key
    pair and the random vectors drawn from a source of zeros: decryption
    returns the empty text. *)
Lemma round_trip_counterexample :
  exists kp k c k',
    generateKeys zeros 0%nat = Ok (kp, k)
    /\ encryptText zeros (pk kp) [0xFEFF] 0 k = Ok (c, k')
    /\ decryptText (sk kp) (ciphertext c) = Ok []
    /\ scalar_value 0xFEFF
    /\ (@Ok text [] <> Ok [0xFEFF]).
Proof.
  assert (Hsv : scalar_value 0xFEFF) by (split; lia).
  destruct (generateKeys_ok zeros 0%nat) as (a & s & e & k & Eg & _).
  destruct (decrypt_encrypt zeros zeros 0%nat k 0 [0xFEFF] ltac:(repeat constructor; lia))
    as (kp & k1 & c & k' & Eg' & Ee & Ed).
  rewrite Eg in Eg'. injection Eg' as <- <-.
  eexists _, k, c, k'. split; [exact Eg|]. split; [exact Ee|].
  split; [exact Ed|]. split; [exact Hsv | discriminate].
Qed.

(** C1 as amended: for every well-formed text [m] that does not start with
    U+FEFF, every key pair that [generateKeys] returns and every choice of
    the random vectors drawn during encryption,
    [decryptText(sk, encryptText(pk, m).ciphertext)] returns exactly [m]. *)
Theorem round_trip :
  forall (entropy1 entropy2 : nat -> Z) (k1 k2 : nat) (now : Z) (m : text),
    plain_text m ->
    exists kp k1' c k2',
      generateKeys entropy1 k1 = Ok (kp, k1')
      /\ encryptText entropy2 (pk kp) m now k2 = Ok (c, k2')
      /\ decryptText (sk kp) (ciphertext c) = Ok m.
Proof.
  intros entropy1 entropy2 k1 k2 now m Hm.
  destruct (decrypt_encrypt entropy1 entropy2 k1 k2 now m (proj1 Hm))
    as (kp & k1' & c & k2' & Eg & Ee & Ed).
  exists kp, k1', c, k2'. split; [exact Eg|]. split; [exact Ee|].
  rewrite Ed. now rewrite TextDecoder_decode_encode.
Qed.

Lemma round_trip_witness :
  exists kp k1' c k2',
    generateKeys zeros 0%nat = Ok (kp, k1')
    /\ encryptText zeros (pk kp) [72; 105; 0x20AC] 1700000000000 0%nat = Ok (c, k2')
    /\ decryptText (sk kp) (ciphertext c) = Ok [72; 105; 0x20AC].
Proof.
  apply (round_trip zeros zeros 0%nat 0%nat 1700000000000 [72; 105; 0x20AC]).
  split; [|discriminate].
  repeat constructor; lia.
Defined.

Lemma dims_zero_matrix : dims (repeat (repeat 0 N) M) M N.
Proof.
  split; [apply repeat_length|].
  apply Forall_forall. intros row Hrow.
  apply repeat_spec in Hrow. subst row. apply repeat_length.
Defined.

Lemma encryptText_well_formed_witness :
  exists c k' blks,
    encryptText zeros {| A := int_rows (repeat (repeat 0 N) M);
                         b := ints (repeat 0 M) |} [72; 105] 0 0%nat
    = Ok (c, k')
    /\ ciphertext c = Base64.btoa (stringify (container_of blks 0))
    /\ Forall block_in_range blks
    /\ length blks = 16%nat.
Proof.
  destruct (encryptText_well_formed zeros (repeat (repeat 0 N) M) (repeat 0 M)
              [72; 105] 0 0%nat dims_zero_matrix (repeat_length 0 M))
    as (blks & sts & k' & E & Hr & Hlen).
  eexists _, k', blks. split; [exact E|]. split; [reflexivity|].
  split; [exact Hr | exact Hlen].
Defined.

(** ** Empty plaintext *)

(** C9: for every public key, [encryptText(pk, "")] returns without an
    error a ciphertext whose container has an empty array of blocks, and
    [decryptText] returns the empty text from it, under any secret key. *)
Theorem empty_plaintext :
  forall (entropy : nat -> Z) (pk : PublicKey) (sk : Vector) (now : Z) (k : nat),
    let c := Base64.btoa (stringify (container_of [] now)) in
    encryptText entropy pk [] now k = Ok ({| ciphertext := c; stats := [] |}, k)
    /\ rbind (Base64.atob c) Json.parse
       = Ok (JObj [(units "blocks", JArr []);
                   (units "meta",
                    JObj [(units "timestamp", JNum now);
                          (units "algorithm", JStr (units "LWE-Regev"))])])
    /\ decryptText sk c = Ok [].
Proof.
  intros entropy pk sk now k c. subst c.
  split; [reflexivity|]. split.
  - rewrite atob_btoa. cbn [rbind].
    rewrite parse_stringify by constructor. reflexivity.
  - unfold decryptText.
    rewrite decryptText_try_container by constructor. reflexivity.
Qed.

(** ** Ill-formed UTF-8 *)



(** ** Malformed ciphertexts *)



(** * Further properties of the code *)

(** ** Use of the random source *)

Lemma draws_bind {T U : Type} (c : Rand T) (f : T -> Rand U) (d1 d2 : nat)
  (P : T -> Prop) (R : U -> Prop) :
  draws c d1 P -> (forall x, P x -> draws (f x) d2 R) ->
  draws (bind c f) (d1 + d2) R.
Proof.
  intros Hc Hf k. destruct (Hc k) as (x & E & Hx).
  destruct (Hf x Hx (k + d1)%nat) as (y & E' & Hy).
  exists y. rewrite (bind_ok _ _ _ _ _ E), E'. split; [|exact Hy].
  do 2 f_equal. lia.
Qed.

Lemma draws_repeatM {T : Type} (c : Rand T) (d : nat) (P : T -> Prop) (n : nat) :
  draws c d P ->
  draws (repeatM n c) (n * d) (fun l => length l = n /\ Forall P l).
Proof.
  intros Hc. induction n as [|n IH]; intros k.
  - exists []. rewrite Nat.add_0_r. repeat split. constructor.
  - destruct (Hc k) as (x & E1 & Hx).
    destruct (IH (k + d)%nat) as (xs & E2 & Hlen & Hxs).
    exists (x :: xs). cbn [repeatM].
    rewrite (bind_ok _ _ _ _ _ E1), (bind_ok _ _ _ _ _ E2). unfold ret.
    split; [do 2 f_equal; lia|].
    split; [simpl; now rewrite Hlen | now constructor].
Qed.

Lemma draws_getRandomInt (entropy : nat -> Z) (q : Z) :
  0 < q -> draws (getRandomInt entropy (Int q)) 1 (int_in 0 (q - 1)).
Proof.
  intros Hq k. destruct (yields_getRandomInt entropy q Hq k) as (x & k' & E & Hx).
  exists x. split; [|exact Hx].
  unfold getRandomInt in *. inversion E. subst. do 2 f_equal. lia.
Qed.

Lemma draws_getRandomError (entropy : nat -> Z) (range : Z) :
  0 <= range ->
  draws (getRandomError entropy (Int range)) 1 (int_in (- range) range).
Proof.
  intros Hr k. unfold getRandomError. cbn [mul add].
  destruct (draws_getRandomInt entropy (range * 2 + 1) ltac:(lia) k)
    as (x & E & z & -> & Hz).
  rewrite (bind_ok _ _ _ _ _ E). unfold ret.
  eexists. split; [reflexivity|].
  exists (z - range). split; [reflexivity | lia].
Qed.

(** X1: [getRandomError(range)], for an integer [range >= 0], returns an
    integer between [-range] and [range] after exactly one draw from the
    random source, whatever value the source delivers. *)
Theorem getRandomError_range :
  forall (entropy : nat -> Z) (range : Z) (k : nat),
    0 <= range ->
    exists z, getRandomError entropy (Int range) k = Ok (Int z, S k)
              /\ - range <= z <= range.
Proof.
  intros entropy range k Hr.
  destruct (draws_getRandomError entropy range Hr k) as (x & E & z & -> & Hz).
  exists z. rewrite E. split; [do 2 f_equal; lia | exact Hz].
Qed.

Lemma getRandomError_range_witness :
  exists z, getRandomError zeros (Int 3) 0%nat = Ok (Int z, 1%nat) /\ - 3 <= z <= 3.
Proof. apply (getRandomError_range zeros 3 0%nat). lia. Defined.

(** X2: [generateMatrix(rows, cols, q)], for an integer [q > 0], returns
    [rows] rows of [cols] integers in [0, q) each, after [rows * cols] draws
    from the random source; with no rows asked it returns the empty matrix
    and draws nothing. *)
Theorem generateMatrix_shape :
  forall (entropy : nat -> Z) (rows cols : nat) (q : Z) (k : nat),
    0 < q ->
    exists a,
      generateMatrix entropy rows cols (Int q) k
      = Ok (int_rows a, (k + rows * cols)%nat)
      /\ dims a rows cols /\ Forall (all_in 0 q) a.
Proof.
  intros entropy rows cols q k Hq. unfold generateMatrix.
  destruct (draws_repeatM _ _ _ rows
              (draws_repeatM _ _ _ cols (draws_getRandomInt entropy q Hq)) k)
    as (m & E & Hlen & Hm).
  destruct (int_rows_of_Forall _ _ _ _ Hm) as (a & -> & Hrows & Ha).
  rewrite length_int_rows in Hlen.
  exists a. rewrite E, Nat.mul_1_r. split; [reflexivity|].
  split; [split; assumption|].
  eapply Forall_impl; [|exact Ha]. intros row. apply all_between_in.
Qed.

Lemma generateMatrix_shape_witness :
  exists a,
    generateMatrix zeros 2 3 (Int 5) 7%nat = Ok (int_rows a, (7 + 2 * 3)%nat)
    /\ dims a 2 3 /\ Forall (all_in 0 5) a.
Proof. apply (generateMatrix_shape zeros 2 3 5 7%nat). lia. Defined.

(** A loop whose body draws [d] values and returns [g k] from state [k]. *)
Lemma repeatM_draw {T : Type} (c : Rand T) (g : nat -> T) (d n : nat) :
  (forall k, c k = Ok (g k, (k + d)%nat)) ->
  forall k, repeatM n c k
            = Ok (map (fun i => g (k + i * d)%nat) (seq 0 n), (k + n * d)%nat).
Proof.
  intros Hc. induction n as [|n IH]; intros k.
  - cbn. unfold ret. do 2 f_equal. lia.
  - cbn [repeatM]. rewrite (bind_ok _ _ _ _ _ (Hc k)).
    rewrite (bind_ok _ _ _ _ _ (IH (k + d)%nat)). unfold ret.
    cbn [seq map]. rewrite <- seq_shift, map_map.
    f_equal. f_equal; [f_equal|].
    + f_equal. lia.
    + apply map_ext. intros i. f_equal. lia.
    + lia.
Qed.

Lemma drawn_nonneg (entropy : nat -> Z) (k : nat) : 0 <= drawn entropy k.
Proof. unfold drawn. apply Z.mod_pos_bound. reflexivity. Qed.

Lemma getRandomInt_drawn (entropy : nat -> Z) (q : Z) (k : nat) :
  0 < q ->
  getRandomInt entropy (Int q) k = Ok (Int (drawn entropy k mod q), (k + 1)%nat).
Proof.
  intros Hq. unfold getRandomInt, rem.
  destruct (q =? 0) eqn:E; [apply Z.eqb_eq in E; lia|].
  fold (drawn entropy k).
  rewrite Z.rem_mod_nonneg by (try apply drawn_nonneg; lia).
  do 2 f_equal. lia.
Qed.

Lemma getRandomError_drawn (entropy : nat -> Z) (range : Z) (k : nat) :
  0 <= range ->
  getRandomError entropy (Int range) k
  = Ok (Int (drawn entropy k mod (range * 2 + 1) - range), (k + 1)%nat).
Proof.
  intros Hr. unfold getRandomError. cbn [mul add].
  rewrite (bind_ok _ _ _ _ _ (getRandomInt_drawn entropy (range * 2 + 1) k ltac:(lia))).
  reflexivity.
Qed.

Lemma dims_map_seq (f : nat -> nat -> Z) (m n : nat) :
  dims (map (fun i => map (f i) (seq 0 n)) (seq 0 m)) m n.
Proof.
  split; [now rewrite length_map, length_seq|].
  apply Forall_map, Forall_forall. intros i _.
  now rewrite length_map, length_seq.
Qed.

(** X3: [generateKeys] draws exactly N + M*N + M = 33152 values from the
    random source, and the key pair is a fixed function of them: the secret
    vector comes from the first N values (each reduced modulo 7, minus 3),
    the matrix from the next M*N values row by row (each reduced modulo Q),
    the error vector from the last M values, and b = (A*s + e) mod Q. *)
Theorem generateKeys_draws :
  forall (entropy : nat -> Z) (k : nat),
    let s := secret_doc entropy k in
    let a := matrix_doc entropy k in
    let e := error_doc entropy k in
    generateKeys entropy k
    = Ok ({| pk := {| A := int_rows a; b := ints (noisy_product a s e Q) |};
             sk := ints s |}, (k + (N + M * N + M))%nat)
    /\ Z.of_nat (N + M * N + M) = 33152.
Proof.
  intros entropy k s a e. split; [|reflexivity].
  assert (HQ : 0 < Q) by reflexivity.
  unfold generateKeys, generateMatrix.
  rewrite (bind_ok _ _ _ _ _
             (repeatM_draw _ _ 1 N
                (fun k => getRandomError_drawn entropy ERROR_RANGE k
                            ltac:(discriminate)) k)).
  rewrite (bind_ok _ _ _ _ _
             (repeatM_draw _ _ (N * 1) M
                (repeatM_draw _ _ 1 N
                   (fun k => getRandomInt_drawn entropy Q k HQ)) _)).
  rewrite (bind_ok _ _ _ _ _
             (repeatM_draw _ _ 1 M
                (fun k => getRandomError_drawn entropy ERROR_RANGE k
                            ltac:(discriminate)) _)).
  assert (Es : map (fun i => Int (drawn entropy (k + i * 1)
                                  mod (ERROR_RANGE * 2 + 1) - ERROR_RANGE))
                   (seq 0 N) = ints s).
  { unfold s, secret_doc, ints. rewrite map_map. apply map_ext.
    intros i. now rewrite Nat.mul_1_r. }
  assert (Ea : map (fun i => map (fun j => Int (drawn entropy
                                    (k + N * 1 + i * (N * 1) + j * 1) mod Q))
                                 (seq 0 N)) (seq 0 M) = int_rows a).
  { unfold a, matrix_doc, int_rows, ints. rewrite map_map. apply map_ext.
    intros i. rewrite map_map. apply map_ext. intros j.
    now rewrite !Nat.mul_1_r. }
  assert (Ee : map (fun i => Int (drawn entropy
                                    (k + N * 1 + M * (N * 1) + i * 1)
                                  mod (ERROR_RANGE * 2 + 1) - ERROR_RANGE))
                   (seq 0 M) = ints e).
  { unfold e, error_doc, ints. rewrite map_map. apply map_ext.
    intros i. now rewrite !Nat.mul_1_r. }
  rewrite Es, Ea, Ee.
  assert (Hd : dims a M N) by apply dims_map_seq.
  assert (Hs : length s = N) by (unfold s, secret_doc; now rewrite length_map, length_seq).
  assert (He : length e = M) by (unfold e, error_doc; now rewrite length_map, length_seq).
  rewrite (matVecMul_ints a s Q M N HQ ltac:(apply Nat.lt_0_succ) Hd Hs).
  unfold lift, rbind, bind, ret.
  rewrite vecAdd_ints
    by (try exact HQ; unfold matVecMul_doc; rewrite length_map; destruct Hd; lia).
  rewrite (vecAdd_matVecMul a s e Q M N HQ Hd He).
  do 2 f_equal. lia.
Qed.

(** ** Encryption: statistics and use of the random source *)

Lemma encryptBit_run (entropy : nat -> Z) (a : list (list Z)) (bz : list Z)
  (bit : Z) (index k : nat) :
  dims a M N -> length bz = M -> 0 <= bit <= 1 ->
  exists r,
    encryptBit entropy {| A := int_rows a; b := ints bz |} bit index k
    = Ok ((block_doc a bz bit r, stat_doc bz bit r index), (k + M)%nat)
    /\ binary_vector r.
Proof.
  intros Hd Hb Hbit. unfold encryptBit. cbn [A b].
  destruct (draws_repeatM _ _ _ M
              (draws_getRandomInt entropy 2 ltac:(reflexivity)) k)
    as (r' & E1 & Hr1 & Hr2).
  destruct (ints_of_Forall _ _ _ Hr2) as (r & -> & Hr).
  rewrite length_ints in Hr1.
  rewrite (bind_ok _ _ _ _ _ E1).
  rewrite (matTransVecMul_ints a r Q M N ltac:(reflexivity)
             ltac:(apply Nat.lt_0_succ) Hd Hr1).
  rewrite vecDot_ints by (try reflexivity; lia).
  unfold lift, rbind, bind, ret. cbn [mul add].
  assert (HQ : 0 < Q) by reflexivity.
  pose proof (Z.mod_pos_bound (dot bz r) Q HQ) as Hv.
  assert (Hh : 0 <= floor_div Q 2) by discriminate.
  assert (Hrem : rem (Int (vecDot_doc bz r Q + bit * floor_div Q 2)) (Int Q)
                 = Int ((vecDot_doc bz r Q + bit * (Q / 2)) mod Q)).
  { unfold rem. change (Q =? 0) with false. cbv beta iota. f_equal.
    apply Z.rem_mod_nonneg; [|exact HQ].
    unfold vecDot_doc. apply Z.add_nonneg_nonneg; [lia|].
    apply Z.mul_nonneg_nonneg; [lia | exact Hh]. }
  rewrite Hrem.
  exists r. split; [|split; assumption].
  unfold block_doc, stat_doc, floor_div. rewrite Nat.mul_1_r. reflexivity.
Qed.

Lemma forEachM_run (entropy : nat -> Z) (a : list (list Z)) (bz : list Z)
  (bits : list Z) :
  dims a M N -> length bz = M -> all_between 0 1 bits ->
  forall index k,
  exists rs pushed,
    forEachM (encryptBit entropy {| A := int_rows a; b := ints bz |}) bits index k
    = Ok (pushed, (k + length bits * M)%nat)
    /\ map fst pushed = blocks_doc a bz bits rs
    /\ flat_map snd pushed = stats_doc bz bits rs index
    /\ length rs = length bits /\ Forall binary_vector rs.
Proof.
  intros Hd Hb Hbits. induction Hbits as [|bit bits Hbit _ IH]; intros index k.
  - exists [], []. cbn. unfold ret. rewrite Nat.add_0_r.
    repeat split. constructor.
  - destruct (encryptBit_run entropy a bz bit index k Hd Hb Hbit) as (r & E1 & Hr).
    destruct (IH (S index) (k + M)%nat) as (rs & pushed & E2 & Hf & Hs & Hl & Hrs).
    exists (r :: rs), ((block_doc a bz bit r, stat_doc bz bit r index) :: pushed).
    cbn [forEachM].
    rewrite (bind_ok _ _ _ _ _ E1), (bind_ok _ _ _ _ _ E2). unfold ret.
    split; [do 2 f_equal; cbn [length]; rewrite Nat.mul_succ_l; lia|].
    split; [unfold blocks_doc in *; cbn [map fst combine snd]; now rewrite Hf|].
    split; [cbn [flat_map snd stats_doc]; now rewrite Hs|].
    split; [simpl; now rewrite Hl | now constructor].
Qed.

(** What [encryptText] returns, and the state of the random source after
    it, for a public key of the right dimensions. *)
Lemma encryptText_run (entropy : nat -> Z) (a : list (list Z)) (bz : list Z)
  (plaintext : text) (now : Z) (k : nat) :
  dims a M N -> length bz = M ->
  let bits := flat_map byte_bits (TextEncoder_encode plaintext) in
  exists rs,
    encryptText entropy {| A := int_rows a; b := ints bz |} plaintext now k
    = Ok ({| ciphertext :=
               Base64.btoa (stringify (container_of (blocks_doc a bz bits rs) now));
             stats := stats_doc bz bits rs 0 |}, (k + length bits * M)%nat)
    /\ length rs = length bits /\ Forall binary_vector rs.
Proof.
  intros Hd Hb bits. unfold encryptText. fold bits.
  destruct (forEachM_run entropy a bz bits Hd Hb (bits_binary _) 0%nat k)
    as (rs & pushed & E & Hf & Hs & Hl & Hrs).
  rewrite (bind_ok _ _ _ _ _ E). unfold ret. rewrite Hf, Hs.
  exists rs. split; [reflexivity|]. split; assumption.
Qed.

(** X4: for a public key of M rows, N columns and a vector of length M,
    [encryptText] draws exactly M = 256 values from the random source for
    each bit of the plaintext, that is 2048 for each byte of its UTF-8
    encoding, and nothing else. *)
Theorem encryptText_draws :
  forall (entropy : nat -> Z) (a : list (list Z)) (bz : list Z)
         (plaintext : text) (now : Z) (k : nat),
    dims a M N -> length bz = M ->
    exists c,
      encryptText entropy {| A := int_rows a; b := ints bz |} plaintext now k
      = Ok (c, (k + 2048 * length (TextEncoder_encode plaintext))%nat).
Proof.
  intros entropy a bz plaintext now k Hd Hb.
  destruct (encryptText_run entropy a bz plaintext now k Hd Hb) as (rs & E & _).
  eexists. rewrite E. do 2 f_equal. rewrite bits_length.
  change M with 256%nat. lia.
Qed.

Lemma stats_doc_late (bz bits : list Z) (rs : list (list Z)) (index : nat) :
  (20 <= index)%nat -> stats_doc bz bits rs index = [].
Proof.
  revert rs index. induction bits as [|bit bits IH]; intros rs index Hi;
    [reflexivity|].
  destruct rs as [|r rs]; [reflexivity|]. cbn [stats_doc].
  rewrite IH by lia. unfold stat_doc.
  destruct (index <? 20)%nat eqn:E; [apply Nat.ltb_lt in E; lia | reflexivity].
Qed.

Lemma stats_doc_early (bz bits : list Z) (rs : list (list Z)) (index : nat) :
  length rs = length bits ->
  stats_doc bz bits rs index
  = map (fun i => {| bitIndex := (index + i)%nat; originalBit := nth i bits 0;
                     vVal := Int (vecDot_doc bz (nth i rs []) Q);
                     vPrime := Int ((vecDot_doc bz (nth i rs []) Q
                                     + nth i bits 0 * (Q / 2)) mod Q);
                     encodedVal := Int (nth i bits 0 * (Q / 2)) |})
        (seq 0 (Nat.min (20 - index) (length bits))).
Proof.
  revert rs index. induction bits as [|bit bits IH]; intros rs index Hl.
  - rewrite Nat.min_0_r. reflexivity.
  - destruct rs as [|r rs]; [discriminate|]. cbn [stats_doc].
    destruct (Nat.le_gt_cases 20 index) as [Hi|Hi].
    + rewrite stats_doc_late by lia. unfold stat_doc.
      destruct (index <? 20)%nat eqn:E; [apply Nat.ltb_lt in E; lia|].
      replace (20 - index)%nat with 0%nat by lia. reflexivity.
    + unfold stat_doc.
      destruct (index <? 20)%nat eqn:E; [|apply Nat.ltb_ge in E; lia].
      rewrite IH by (simpl in Hl; lia).
      replace (20 - index)%nat with (S (20 - S index)) by lia.
      cbn [length Nat.min seq map app nth].
      rewrite Nat.add_0_r. f_equal.
      rewrite <- seq_shift, map_map. apply map_ext. intros i.
      cbn [nth]. f_equal. lia.
Qed.

Lemma v_blocks_doc (a : list (list Z)) (bz bits : list Z) (rs : list (list Z))
  (i : nat) (d : EncryptedBlock) :
  length rs = length bits -> (i < length bits)%nat ->
  v (nth i (blocks_doc a bz bits rs) d)
  = Int ((vecDot_doc bz (nth i rs []) Q + nth i bits 0 * (Q / 2)) mod Q).
Proof.
  revert rs i. induction bits as [|bit bits IH]; intros rs i Hl Hi;
    [simpl in Hi; lia|].
  destruct rs as [|r rs]; [discriminate|].
  unfold blocks_doc in *. cbn [combine map].
  destruct i as [|i]; [reflexivity|].
  cbn [nth]. apply IH; simpl in *; lia.
Qed.

(** X5: for a public key of M rows, N columns and a vector of length M,
    [encryptText] returns statistics for the first 20 bits only (for all of
    them when there are fewer).  The entry of index [i] holds
    [bitIndex = i], the bit itself, its encoding [bit * floor(Q/2)], a value
    [vVal] in [0, Q) and [vPrime = (vVal + encodedVal) mod Q], and [vPrime]
    is the [v] of block [i] of the ciphertext. *)
Theorem encryptText_stats :
  forall (entropy : nat -> Z) (a : list (list Z)) (bz : list Z)
         (plaintext : text) (now : Z) (k : nat),
    dims a M N -> length bz = M ->
    let bits := flat_map byte_bits (TextEncoder_encode plaintext) in
    exists (blks : list EncryptedBlock) (sts : list Stat) (k' : nat),
      encryptText entropy {| A := int_rows a; b := ints bz |} plaintext now k
      = Ok ({| ciphertext := Base64.btoa (stringify (container_of blks now));
               stats := sts |}, k')
      /\ length sts = Nat.min 20 (length bits)
      /\ forall (i : nat) (d : Stat) (d' : EncryptedBlock),
           (i < length sts)%nat ->
           exists vz,
             0 <= vz < Q
             /\ nth i sts d
                = {| bitIndex := i; originalBit := nth i bits 0;
                     vVal := Int vz;
                     vPrime := Int ((vz + nth i bits 0 * 1664) mod Q);
                     encodedVal := Int (nth i bits 0 * 1664) |}
             /\ v (nth i blks d') = vPrime (nth i sts d).
Proof.
  intros entropy a bz plaintext now k Hd Hb bits.
  destruct (encryptText_run entropy a bz plaintext now k Hd Hb)
    as (rs & E & Hl & _). fold bits in E, Hl.
  eexists _, _, _. split; [exact E|].
  rewrite (stats_doc_early bz bits rs 0 Hl). cbn [Nat.sub].
  rewrite !length_map, !length_seq. split; [reflexivity|].
  intros i d d' Hi.
  exists (vecDot_doc bz (nth i rs []) Q).
  split; [apply Z.mod_pos_bound; reflexivity|].
  set (f := fun i : nat => _).
  rewrite (nth_indep _ d (f 0%nat)) by (rewrite length_map, length_seq; exact Hi).
  rewrite (map_nth f), seq_nth by exact Hi. subst f. cbn [Nat.add vPrime].
  split; [reflexivity|].
  apply v_blocks_doc; [exact Hl | lia].
Qed.

Lemma encryptText_stats_witness :
  exists c k',
    encryptText zeros {| A := int_rows (repeat (repeat 0 N) M);
                         b := ints (repeat 0 M) |} [72; 105; 33] 0 0%nat
    = Ok (c, k')
    /\ length (stats c) = 20%nat.
Proof.
  destruct (encryptText_stats zeros (repeat (repeat 0 N) M) (repeat 0 M)
              [72; 105; 33] 0 0%nat dims_zero_matrix (repeat_length 0 M))
    as (blks & sts & k' & E & Hlen & _).
  eexists _, k'. split; [exact E | exact Hlen].
Defined.

Lemma encryptText_draws_witness :
  exists c,
    encryptText zeros {| A := int_rows (repeat (repeat 0 N) M);
                         b := ints (repeat 0 M) |} [72; 105] 0 0%nat
    = Ok (c, (0 + 2048 * 2)%nat).
Proof.
  exact (encryptText_draws zeros (repeat (repeat 0 N) M) (repeat 0 M)
           [72; 105] 0 0%nat dims_zero_matrix (repeat_length 0 M)).
Defined.

(** ** Round trip of any text *)

Lemma USVString_scalar (s : text) :
  code_points s -> Forall scalar_value (USVString s).
Proof.
  intros H. unfold USVString. apply Forall_map.
  eapply Forall_impl; [|exact H]. intros c Hc. cbv beta in Hc |- *.
  unfold is_surrogate. destruct (0xD800 <=? c) eqn:E1;
    [destruct (c <=? 0xDFFF) eqn:E2|]; cbn [andb];
    rewrite ?Z.leb_le, ?Z.leb_gt in *; split; lia.
Qed.

Lemma TextEncoder_encode_USVString (s : text) :
  TextEncoder_encode (USVString s) = TextEncoder_encode s.
Proof.
  unfold TextEncoder_encode, USVString.
  induction s as [|c s IH]; [reflexivity|].
  cbn [map flat_map]. rewrite IH. f_equal.
  destruct (is_surrogate c) eqn:E; [reflexivity | now rewrite E].
Qed.

(** Decoding an encoded well-formed text gives it back without its leading
    U+FEFF, if it has one. *)
Lemma TextDecoder_decode_encode_scalar (s : text) :
  Forall scalar_value s ->
  TextDecoder_decode (TextEncoder_encode s) = without_BOM s.
Proof.
  intros Hs. destruct s as [|c s]; [reflexivity|].
  cbn [without_BOM]. destruct (c =? 0xFEFF) eqn:E.
  - apply Z.eqb_eq in E. subst c. inversion Hs; subst.
    unfold TextDecoder_decode.
    change (TextEncoder_encode (0xFEFF :: s))
      with (0xEF :: 0xBB :: 0xBF :: TextEncoder_encode s).
    cbn [skip_BOM Z.eqb Pos.eqb andb]. now apply utf8_decode_encode.
  - apply TextDecoder_decode_encode. split; [exact Hs|].
    cbn [hd]. now apply Z.eqb_neq.
Qed.

Lemma encryptText_USVString (entropy : nat -> Z) (pk : PublicKey) (m : text)
  (now : Z) (k : nat) :
  encryptText entropy pk (USVString m) now k = encryptText entropy pk m now k.
Proof. unfold encryptText. now rewrite TextEncoder_encode_USVString. Qed.

(** X6: for every string [m], every key pair that [generateKeys] returns
    and every choice of the random vectors, decrypting the encryption of [m]
    returns [m] with each unpaired surrogate replaced by U+FFFD and one
    leading U+FEFF, if any, removed: these are the only two ways in which
    the text that comes back differs from the text that went in. *)
Theorem round_trip_any_text :
  forall (entropy1 entropy2 : nat -> Z) (k1 k2 : nat) (now : Z) (m : text),
    code_points m ->
    exists kp k1' c k2',
      generateKeys entropy1 k1 = Ok (kp, k1')
      /\ encryptText entropy2 (pk kp) m now k2 = Ok (c, k2')
      /\ decryptText (sk kp) (ciphertext c) = Ok (without_BOM (USVString m)).
Proof.
  intros entropy1 entropy2 k1 k2 now m Hm.
  pose proof (USVString_scalar m Hm) as Hs.
  destruct (decrypt_encrypt entropy1 entropy2 k1 k2 now (USVString m) Hs)
    as (kp & k1' & c & k2' & Eg & Ee & Ed).
  exists kp, k1', c, k2'. split; [exact Eg|].
  rewrite encryptText_USVString in Ee. split; [exact Ee|].
  rewrite Ed. now rewrite TextDecoder_decode_encode_scalar.
Qed.

Lemma round_trip_any_text_witness :
  exists kp k1' c k2',
    generateKeys zeros 0%nat = Ok (kp, k1')
    /\ encryptText zeros (pk kp) [0xFEFF; 0xD800; 65] 0 0%nat = Ok (c, k2')
    /\ decryptText (sk kp) (ciphertext c) = Ok [0xFFFD; 65].
Proof.
  apply (round_trip_any_text zeros zeros 0%nat 0%nat 0 [0xFEFF; 0xD800; 65]).
  repeat constructor; lia.
Defined.

(** ** Operands of different lengths *)

Lemma for_sum_NaN (n i : nat) (f : nat -> num) :
  (i < n)%nat -> f i = NaN -> for_sum n f = NaN.
Proof.
  intros Hi Hf. induction n as [|n IH]; [lia|].
  cbn [for_sum]. destruct (Nat.eq_dec i n) as [->|Hn].
  - rewrite Hf. now destruct (for_sum n f).
  - now rewrite IH by lia.
Qed.

Lemma idx_ints_past (x : list Z) (i : nat) :
  (length x <= i)%nat -> idx (ints x) i = NaN.
Proof.
  intros Hi. unfold idx. apply nth_overflow. now rewrite length_ints.
Qed.

Lemma positive_mod_NaN (q : num) : positive_mod NaN q = NaN.
Proof. reflexivity. Qed.

Lemma vecDot_short (x y : list Z) (q : num) :
  (length y < length x)%nat -> vecDot (ints x) (ints y) q = NaN.
Proof.
  intros Hl. unfold vecDot.
  rewrite (for_sum_NaN _ (length y)); [reflexivity | now rewrite length_ints|].
  rewrite (idx_ints_past y) by lia. now destruct (idx (ints x) (length y)).
Qed.

(** X7: the linear algebra helpers do not check the lengths of their
    operands.  When the second vector is shorter than the first, the missing
    entries are read as [undefined]: [vecDot] returns [NaN], and [vecAdd]
    returns a vector as long as the first operand with [NaN] at the missing
    positions; entries of the second vector beyond the length of the first
    are ignored. *)
Theorem vector_length_mismatch :
  forall (x y extra : list Z) (q : Z),
    0 < q ->
    ((length y < length x)%nat ->
     vecDot (ints x) (ints y) (Int q) = NaN
     /\ length (vecAdd (ints x) (ints y) (Int q)) = length x
     /\ forall i, (length y <= i < length x)%nat ->
                  nth i (vecAdd (ints x) (ints y) (Int q)) (Int 0) = NaN)
    /\ (length y = length x ->
        vecDot (ints x) (ints (y ++ extra)) (Int q)
        = vecDot (ints x) (ints y) (Int q)
        /\ vecAdd (ints x) (ints (y ++ extra)) (Int q)
           = vecAdd (ints x) (ints y) (Int q)).
Proof.
  intros x y extra q Hq. split.
  - intros Hl. split; [now apply vecDot_short|].
    unfold vecAdd. rewrite length_map, length_seq, length_ints.
    split; [reflexivity|]. intros i Hi.
    rewrite (nth_indep _ (Int 0)
               ((fun i => positive_mod (add (idx (ints x) i) (idx (ints y) i))
                                       (Int q)) 0%nat))
      by (rewrite length_map, length_seq; lia).
    rewrite (map_nth (fun i => positive_mod (add (idx (ints x) i)
                                               (idx (ints y) i)) (Int q))).
    rewrite seq_nth by lia. cbn [Nat.add].
    rewrite (idx_ints_past y) by lia. now destruct (idx (ints x) i).
  - intros Hl. split.
    + rewrite !vecDot_ints by (rewrite ?length_app; lia).
      unfold vecDot_doc, dot. do 2 f_equal. apply zsum_ext. intros i Hi.
      now rewrite entry_app_l by lia.
    + rewrite !vecAdd_ints by (rewrite ?length_app; lia).
      unfold vecAdd_doc. f_equal. apply map_seq_ext. intros i Hi.
      now rewrite entry_app_l by lia.
Qed.

Lemma vector_length_mismatch_witness :
  vecDot (ints [1; 2; 3]) (ints [4; 5]) (Int 7) = NaN.
Proof.
  refine (proj1 (proj1 (vector_length_mismatch [1; 2; 3] [4; 5] [] 7 _) _)).
  - reflexivity.
  - simpl. lia.
Defined.

(** ** Incomplete blocks *)

Lemma operands_numbers (n : nat) (x : list Z) :
  operands n (Some (JArr (map JNum x))) = Ok (ints (firstn n x)).
Proof. rewrite <- json_of_ints. apply operands_ints. Qed.

(** X8: [decryptText] does not check the shape of a block.  A block whose
    [u] is shorter than the secret key, and a block without a member [v],
    are not refused: the difference is [NaN], both tests fail and the block
    is read as the bit 0. *)
Theorem decryptBlock_incomplete :
  forall (s uz : list Z) (vz : Z),
    ((length uz < length s)%nat ->
     decryptBlock (ints s) (json_of_block {| u := ints uz; v := Int vz |}) = Ok 0)
    /\ decryptBlock (ints s) (JObj [(units "u", JArr (map JNum uz))]) = Ok 0.
Proof.
  intros s uz vz. split.
  - intros Hl. unfold decryptBlock.
    rewrite get_u, get_v. cbn [rbind u v json_of_number].
    rewrite length_ints, operands_ints. cbn [rbind to_number].
    rewrite firstn_all2 by lia.
    rewrite vecDot_short by exact Hl. reflexivity.
  - unfold decryptBlock.
    change (get (Some (JObj [(units "u", JArr (map JNum uz))])) "u")
      with (@Ok (option json) (Some (JArr (map JNum uz)))).
    change (get (Some (JObj [(units "u", JArr (map JNum uz))])) "v")
      with (@Ok (option json) None).
    cbn [rbind]. rewrite operands_numbers. cbn [rbind to_number].
    reflexivity.
Qed.

Lemma decryptBlock_incomplete_witness :
  decryptBlock (ints [1; 1]) (json_of_block {| u := ints [5]; v := Int 1664 |})
  = Ok 0.
Proof.
  refine (proj1 (decryptBlock_incomplete [1; 1] [5] 1664) _). simpl. lia.
Defined.

(** ** The container in transit *)

(** X9: serialisation round trip.  For every list of blocks with integer
    entries and every timestamp, the text that [encryptText] makes of the
    container ([JSON.stringify], then [btoa]) is read back by [decryptText]
    ([atob], then [JSON.parse]) as the same container: the same blocks in
    the same order, the timestamp and the algorithm name. *)
Theorem container_round_trip :
  forall (bl : list EncryptedBlock) (now : Z),
    Forall int_block bl ->
    rbind (Base64.atob (Base64.btoa (stringify (container_of bl now)))) Json.parse
    = Ok (json_of_container (container_of bl now)).
Proof.
  intros bl now Hbl. rewrite atob_btoa. cbn [rbind].
  now apply parse_stringify.
Qed.

Lemma container_round_trip_witness :
  rbind (Base64.atob (Base64.btoa
           (stringify (container_of [ {| u := ints [1; -2]; v := Int 3 |} ] 5))))
        Json.parse
  = Ok (json_of_container (container_of [ {| u := ints [1; -2]; v := Int 3 |} ] 5)).
Proof.
  apply (container_round_trip [ {| u := ints [1; -2]; v := Int 3 |} ] 5).
  repeat constructor. eexists _, _. reflexivity.
Defined.

(** ** Ciphertexts can be altered without the key *)

Lemma decrypt_doc_shifted (a : list (list Z)) (s e r : list Z) (c : Z) :
  dims a M N -> length s = N ->
  decrypt_doc s (matTransVecMul_doc a r Q N)
              ((vecDot_doc (noisy_product a s e Q) r Q + c) mod Q)
  = decide_bit (centered ((c + zsum M (fun i => entry e i * entry r i)) mod Q)).
Proof.
  intros Hd Hs. unfold decrypt_doc.
  rewrite Zminus_mod, Zmod_mod, <- Zminus_mod.
  now rewrite (decryption_difference a s e r Q c M N Hd Hs).
Qed.

(** X10: the scheme gives no integrity.  Adding [floor(Q/2)] to the [v] of a
    block that [encryptText] made under a generated key, modulo Q, gives a
    block that decrypts to the opposite bit: whoever holds a ciphertext can
    flip any bit of the plaintext without knowing the secret key. *)
Theorem block_bit_flip :
  forall (a : list (list Z)) (s e r : list Z) (bit : Z),
    dims a M N -> length s = N -> length e = M -> all_between (-3) 3 e ->
    binary_vector r -> 0 <= bit <= 1 ->
    let blk := block_doc a (noisy_product a s e Q) bit r in
    exists vz,
      v blk = Int vz
      /\ decryptBlock (ints s) (json_of_block blk) = Ok bit
      /\ decryptBlock (ints s)
           (json_of_block {| u := u blk; v := Int ((vz + Q / 2) mod Q) |})
         = Ok (1 - bit).
Proof.
  intros a s e r bit Hd Hs He Hb Hr Hbit blk. subst blk. unfold block_doc.
  eexists. cbn [u v]. split; [reflexivity|].
  rewrite !decryptBlock_ints by (rewrite length_matTransVecMul_doc; lia).
  split; [now rewrite decrypt_doc_correct|].
  f_equal. rewrite Zplus_mod_idemp_l, <- Z.add_assoc.
  rewrite decrypt_doc_shifted by assumption.
  pose proof (noise_bound e r He Hb Hr) as Hn.
  set (noise := zsum M _) in *. clearbody noise.
  unfold decide_bit, centered. change Q with 3329.
  change (3329 / 2) with 1664. change (3329 / 4) with 832.
  assert (Hc : bit = 0 \/ bit = 1) by lia.
  destruct Hc as [-> | ->].
  - rewrite Z.mod_small by lia.
    destruct (3329 - 832 <? _) eqn:E1; [apply Z.ltb_lt in E1; lia|].
    destruct (Z.abs _ <? 832) eqn:E2; [reflexivity | apply Z.ltb_ge in E2; lia].
  - destruct (Z_lt_le_dec (noise - 1) 0) as [Hneg|Hpos].
    + replace (1 * 1664 + 1664 + noise) with (noise - 1 + 1 * 3329) by lia.
      rewrite Z_mod_plus_full.
      rewrite <- (Z_mod_plus_full _ 1), Z.mod_small by lia.
      destruct (3329 - 832 <? _) eqn:E1; [|apply Z.ltb_ge in E1; lia].
      destruct (Z.abs _ <? 832) eqn:E2; [apply Z.ltb_lt in E2; lia | reflexivity].
    + replace (1 * 1664 + 1664 + noise) with (noise - 1 + 1 * 3329) by lia.
      rewrite Z_mod_plus_full, Z.mod_small by lia.
      destruct (3329 - 832 <? _) eqn:E1; [apply Z.ltb_lt in E1; lia|].
      destruct (Z.abs _ <? 832) eqn:E2; [apply Z.ltb_lt in E2; lia | reflexivity].
Qed.

(** ** The byte cipher *)

Lemma charCodes_fromCharCodes (l : list Z) :
  all_in 0 256 l -> Crypto.charCodes (Crypto.fromCharCodes l) = l.
Proof.
  intros H. unfold Crypto.charCodes, Crypto.fromCharCodes.
  rewrite list_ascii_of_string_of_list_ascii, map_map.
  induction H as [|x l Hx _ IH]; [reflexivity|].
  cbn [map]. now rewrite IH, code_char.
Qed.

Lemma rem_mod_same (x q : Z) : 0 < q -> Z.rem x q mod q = x mod q.
Proof.
  intros Hq. rewrite (Z.rem_eq x q) by lia.
  replace (x - q * (x ÷ q)) with (x + (- (x ÷ q)) * q) by ring.
  apply Z_mod_plus_full.
Qed.

Lemma shift_byte (d k : Z) :
  Crypto.ToUint8 (rem (add (Int d) (Int k)) (Int 256)) = (d + k) mod 256.
Proof. cbn. apply rem_mod_same. reflexivity. Qed.

Lemma unshift_byte (c k : Z) :
  Crypto.ToUint8
    (if lt (rem (sub (Int c) (Int k)) (Int 256)) (Int 0)
     then add (rem (sub (Int c) (Int k)) (Int 256)) (Int 256)
     else rem (sub (Int c) (Int k)) (Int 256))
  = (c - k) mod 256.
Proof.
  cbn [sub]. rewrite canonical_difference by reflexivity.
  cbn [Crypto.ToUint8]. apply Zmod_mod.
Qed.

Lemma code_points_bytes (s : text) :
  code_points s -> all_in 0 256 (TextEncoder_encode s).
Proof.
  intros H. rewrite <- TextEncoder_encode_USVString.
  apply TextEncoder_encode_range, USVString_scalar, H.
Qed.

Lemma key_entry (kz : list Z) (i : nat) :
  kz <> [] ->
  idx (ints kz) (i mod length (ints kz)) = Int (entry kz (i mod length kz)).
Proof.
  intros Hk. rewrite length_ints. apply idx_ints.
  apply Nat.mod_upper_bound. now destruct kz.
Qed.

Lemma key_not_empty (kz : list Z) :
  kz <> [] -> (length (ints kz) =? 0)%nat = false.
Proof. intros H. destruct kz; [contradiction | reflexivity]. Qed.

(** The bytes that [encryptText] hands to [btoa]. *)
Lemma encryptText_bytes (s : text) (kz : list Z) :
  kz <> [] ->
  Crypto.encryptText s (ints kz)
  = Base64.btoa (Crypto.fromCharCodes
      (map (fun i => (nth i (TextEncoder_encode s) 0
                      + entry kz (i mod length kz)) mod 256)
           (seq 0 (length (TextEncoder_encode s))))).
Proof.
  intros Hk. unfold Crypto.encryptText. rewrite key_not_empty by exact Hk.
  do 2 f_equal. apply map_ext. intros i.
  now rewrite key_entry, shift_byte by exact Hk.
Qed.

(** Decryption undoes encryption under the same key of integers. *)
Lemma byte_cipher_inverse (s : text) (kz : list Z) :
  code_points s -> kz <> [] ->
  Crypto.decryptText (Crypto.encryptText s (ints kz)) (ints kz)
  = Ok (without_BOM (USVString s)).
Proof.
  intros Hs Hk. rewrite encryptText_bytes by exact Hk.
  unfold Crypto.decryptText. rewrite key_not_empty by exact Hk.
  rewrite atob_btoa.
  pose proof (code_points_bytes s Hs) as Hr.
  set (data := TextEncoder_encode s) in *.
  set (out := map _ (seq 0 (length data))).
  assert (Ho : all_in 0 256 out) by (apply mod_all_in; reflexivity).
  assert (Hl : length out = length data)
    by (unfold out; now rewrite length_map, length_seq).
  rewrite charCodes_fromCharCodes by exact Ho.
  assert (Hu : map (fun c => Crypto.ToUint8 (Int c)) out = out).
  { apply (Uint8Array_bytes out Ho). }
  rewrite Hu, Hl.
  rewrite (map_seq_ext _ (fun i => nth i data 0)).
  - rewrite map_nth_seq. f_equal.
    unfold data. rewrite <- TextEncoder_encode_USVString.
    apply TextDecoder_decode_encode_scalar, USVString_scalar, Hs.
  - intros i Hi. rewrite key_entry, unshift_byte by exact Hk.
    unfold out.
    rewrite (nth_indep _ 0 ((fun i => (nth i data 0
                                       + entry kz (i mod length kz)) mod 256) 0%nat))
      by (rewrite length_map, length_seq; lia).
    rewrite (map_nth (fun i => (nth i data 0 + entry kz (i mod length kz)) mod 256)).
    rewrite seq_nth by lia. cbn [Nat.add].
    rewrite Zminus_mod_idemp_l.
    replace (nth i data 0 + entry kz (i mod length kz) - entry kz (i mod length kz))
      with (nth i data 0) by ring.
    apply Z.mod_small.
    unfold all_in in Hr. rewrite Forall_forall in Hr. apply Hr, nth_In. lia.
Qed.

(** X12: the key of zeros hides nothing.  With a key that holds only zeros
    (the key that the audio analysis falls back to for silence), the
    ciphertext is the plain base64 text of the UTF-8 bytes of the message. *)
Theorem byte_cipher_zero_key :
  forall (s : text) (n : nat),
    code_points s -> (0 < n)%nat ->
    Crypto.encryptText s (repeat (Int 0) n)
    = Base64.btoa (Crypto.fromCharCodes (TextEncoder_encode s)).
Proof.
  intros s n Hs Hn.
  replace (repeat (Int 0) n) with (ints (repeat 0 n))
    by (unfold ints; apply map_repeat).
  assert (Hk : repeat 0 n <> []) by (destruct n; [lia | discriminate]).
  rewrite encryptText_bytes by exact Hk.
  pose proof (code_points_bytes s Hs) as Hr.
  do 2 f_equal.
  rewrite (map_seq_ext _ (fun i => nth i (TextEncoder_encode s) 0)).
  - apply map_nth_seq.
  - intros i Hi. unfold entry.
    rewrite nth_repeat, Z.add_0_r. apply Z.mod_small.
    unfold all_in in Hr. rewrite Forall_forall in Hr. apply Hr, nth_In. lia.
Qed.

Lemma byte_cipher_zero_key_witness :
  Crypto.encryptText [72; 105] (repeat (Int 0) 64)
  = Base64.btoa (Crypto.fromCharCodes (TextEncoder_encode [72; 105])).
Proof.
  apply (byte_cipher_zero_key [72; 105] 64).
  - repeat constructor; lia.
  - apply Nat.lt_0_succ.
Defined.

Lemma length_btoa_exact (s : string) :
  String.length (Base64.btoa s) = (4 * ((String.length s + 2) / 3))%nat.
Proof.
  induction s as [| c1 | c1 c2 | c1 c2 c3 rest IH] using string_ind3;
    try reflexivity.
  cbn [Base64.btoa String.length]. cbv zeta. cbn [String.length].
  rewrite IH.
  replace (S (S (S (String.length rest))) + 2)%nat
    with (1 * 3 + (String.length rest + 2))%nat by lia.
  rewrite Nat.div_add_l by discriminate. lia.
Qed.

Lemma length_fromCharCodes (l : list Z) :
  String.length (Crypto.fromCharCodes l) = length l.
Proof.
  unfold Crypto.fromCharCodes. induction l as [|x l IH]; [reflexivity|].
  cbn [map string_of_list_ascii String.length]. now rewrite IH.
Qed.

(** X13: the length of a ciphertext of the byte cipher depends only on the
    number [n] of bytes of the UTF-8 encoding of the message: it is
    [4 * ceil(n / 3)] characters, whatever the non-empty key. *)
Theorem byte_cipher_length :
  forall (s : text) (key : Crypto.KeyArray),
    key <> [] ->
    String.length (Crypto.encryptText s key)
    = (4 * ((length (TextEncoder_encode s) + 2) / 3))%nat.
Proof.
  intros s key Hk. unfold Crypto.encryptText.
  destruct key as [|k0 key]; [contradiction|]. cbn [length Nat.eqb].
  now rewrite length_btoa_exact, length_fromCharCodes, length_map, length_seq.
Qed.

Lemma byte_cipher_length_witness :
  String.length (Crypto.encryptText [72; 105; 0x20AC] [Int 7; NaN])
  = Nat.mul 4 (Nat.div (length (TextEncoder_encode [72; 105; 0x20AC]) + 2) 3).
Proof.
  apply (byte_cipher_length [72; 105; 0x20AC] [Int 7; NaN]). discriminate.
Defined.

Lemma code_points_charCodes (s : string) : code_points (Crypto.charCodes s).
Proof.
  unfold code_points, Crypto.charCodes. apply Forall_map, Forall_forall.
  intros c _. pose proof (code_bound c). lia.
Qed.

(** ** The clock of the recorder *)

(** The minutes are read back from the text in front of the colon. *)
Lemma minutes_injective (a b : Z) (r r' : string) :
  0 <= a -> 0 <= b ->
  (decimal a ++ String ":" r)%string = (decimal b ++ String ":" r')%string ->
  a = b /\ r = r'.
Proof.
  intros Ha Hb E.
  destruct (decimal_read a (String ":" r) Ha) as [A0 A1].
  destruct (decimal_read b (String ":" r') Hb) as [B0 B1].
  destruct (Z.eq_dec a 0) as [->|Hza]; destruct (Z.eq_dec b 0) as [->|Hzb].
  - rewrite A0, B0 in E by reflexivity. inversion E. now split.
  - destruct (B1 ltac:(lia)) as (c & t & Eb & _ & Hc & _).
    rewrite A0, Eb in E by reflexivity. inversion E; subst. discriminate Hc.
  - destruct (A1 ltac:(lia)) as (c & t & Ea & _ & Hc & _).
    rewrite B0, Ea in E by reflexivity. inversion E; subst. discriminate Hc.
  - destruct (A1 ltac:(lia)) as (c & t & Ea & _ & _ & Ra).
    destruct (B1 ltac:(lia)) as (c' & t' & Eb & _ & _ & Rb).
    rewrite Ea, Eb in E. inversion E; subst.
    rewrite Ra in Rb. cbn in Rb. inversion Rb. now split.
Qed.

Lemma two_digits_injective (y y' : Z) :
  0 <= y < 60 -> 0 <= y' < 60 -> two_digits y = two_digits y' -> y = y'.
Proof.
  intros Hy Hy' E. unfold two_digits in E.
  pose proof (f_equal (fun s => match s with
                                | String c _ => code c
                                | EmptyString => 0
                                end) E) as E1.
  pose proof (f_equal (fun s => match s with
                                | String _ (String c _) => code c
                                | _ => 0
                                end) E) as E2.
  change (code (char (48 + y / 10)) = code (char (48 + y' / 10))) in E1.
  change (code (char (48 + y mod 10)) = code (char (48 + y' mod 10))) in E2.
  rewrite !code_char in E1, E2 by dlia. dlia.
Qed.

(** ** The event handlers *)

Lemma btoa_nonempty (c : ascii) (r : string) :
  Base64.btoa (String c r) <> EmptyString.
Proof. destruct r as [|c2 [|c3 r]]; discriminate. Qed.

Lemma encryptText_nonempty (entropy : nat -> Z) (pk : PublicKey) (m : text)
  (now : Z) (k k' : nat) (c : Encrypted) :
  encryptText entropy pk m now k = Ok (c, k') -> ciphertext c <> EmptyString.
Proof.
  unfold encryptText, bind, ret.
  destruct (forEachM _ _ _ _) as [[pushed k1]| |]; try discriminate.
  intros H.
  apply (f_equal (fun r => match r with
                           | Ok (c, _) => ciphertext c
                           | _ => EmptyString
                           end)) in H.
  cbv beta iota in H. unfold ciphertext at 1 in H. rewrite <- H.
  unfold stringify. cbn [append]. apply btoa_nonempty.
Qed.

(** X16: encrypting and then decrypting in the application shows the
    message.  From a state that holds a key pair returned by [generateKeys]
    and a non-empty message, [handleEncrypt] followed by [handleDecrypt]
    leaves no error and the message as decrypted text (with unpaired
    surrogates replaced by U+FFFD and a leading U+FEFF removed), whatever
    the random values and the time. *)
Theorem App_encrypt_then_decrypt :
  forall (entropy1 entropy2 : nat -> Z) (k1 k2 : nat) (now : Z) (m : text),
    code_points m -> m <> [] ->
    exists kp k1',
      generateKeys entropy1 k1 = Ok (kp, k1')
      /\ forall st,
           App.keys st = Some kp -> App.inputMessage st = m ->
           exists st1 st2,
             App.handleEncrypt entropy2 st now k2 = Ok st1
             /\ App.handleDecrypt st1 = Ok st2
             /\ App.decryptedText st2 = without_BOM (USVString m)
             /\ App.decryptError st2 = None
             /\ App.ciphertext st2 = App.ciphertext st1
             /\ App.ciphertext st1 <> EmptyString.
Proof.
  intros entropy1 entropy2 k1 k2 now m Hm Hne.
  destruct (decrypt_encrypt entropy1 entropy2 k1 k2 now (USVString m)
              (USVString_scalar m Hm))
    as (kp & k1' & c & k2' & Eg & Ee & Ed).
  rewrite encryptText_USVString in Ee.
  rewrite TextEncoder_encode_USVString, <- (TextEncoder_encode_USVString m),
    TextDecoder_decode_encode_scalar in Ed by (apply USVString_scalar, Hm).
  exists kp, k1'. split; [exact Eg|].
  intros st Hk Hi.
  pose proof (encryptText_nonempty _ _ _ _ _ _ _ Ee) as Hc.
  destruct c as [base64Str sts]. cbn [ciphertext] in *.
  unfold App.handleEncrypt. rewrite Hk, Hi.
  destruct m as [|c0 m']; [contradiction|]. rewrite Ee.
  eexists _, _. split; [reflexivity|].
  unfold App.handleDecrypt.
  cbn [App.keys App.ciphertext App.isGenerating App.inputMessage
       App.encryptionStats App.activeTab].
  destruct base64Str as [|b0 rest]; [contradiction|].
  rewrite Ed. repeat split. exact Hc.
Qed.

Lemma App_encrypt_then_decrypt_witness :
  exists kp k1',
    generateKeys zeros 0%nat = Ok (kp, k1')
    /\ forall st,
         App.keys st = Some kp -> App.inputMessage st = [72; 105] ->
         exists st1 st2,
           App.handleEncrypt zeros st 0 0%nat = Ok st1
           /\ App.handleDecrypt st1 = Ok st2
           /\ App.decryptedText st2 = [72; 105].
Proof.
  destruct (App_encrypt_then_decrypt zeros zeros 0%nat 0%nat 0 [72; 105]
              ltac:(repeat constructor; lia) ltac:(discriminate))
    as (kp & k1' & Eg & H).
  exists kp, k1'. split; [exact Eg|].
  intros st Hk Hi. destruct (H st Hk Hi) as (st1 & st2 & E1 & E2 & E3 & _).
  exists st1, st2. split; [exact E1|]. split; [exact E2 | exact E3].
Defined.

(** What [decryptText] does when it gets no array of blocks. *)
Lemma decryptText_no_blocks (sk : Vector) (c : string) :
  no_blocks_array c -> decryptText sk c = Throw (Error decryption_failed).
Proof.
  intros H. unfold decryptText, decryptText_try.
  destruct H as [H | [(s & Ha & H) | (s & j & Ha & Hp & H)]].
  - destruct (Base64.atob c) as [s| |] eqn:E; [now elim (H s) | reflexivity|].
    unfold Base64.atob in E.
    repeat match type of E with
           | (if ?x then _ else _) = _ => destruct x
           | match ?x with _ => _ end = _ => destruct x
           end; discriminate.
  - rewrite Ha. cbn [rbind].
    destruct (Json.parse s) as [j| |] eqn:E; [now elim (H j) | reflexivity|].
    unfold Json.parse in E.
    repeat match type of E with
           | match ?x with _ => _ end = _ => destruct x
           end; discriminate.
  - rewrite Ha. cbn [rbind]. rewrite Hp. cbn [rbind].
    destruct (get (Some j) "blocks") as [[[]|]| |] eqn:E; try reflexivity.
    + now elim (H l).
    + unfold get in E. destruct j; discriminate.
Qed.

(** X17: [handleDecrypt] never throws, and a failed decryption leaves no
    plaintext on display.  With a key pair present and a non-empty
    ciphertext from which [decryptText] gets no array of blocks (not
    base64, not JSON, no member [blocks] that is an array), the handler sets
    the error message, empties the decrypted text, whatever an earlier
    decryption had left there, and changes nothing else. *)
Theorem App_handleDecrypt_failure :
  forall (st : App.State) (kp : KeyPair),
    App.keys st = Some kp ->
    App.ciphertext st <> EmptyString ->
    no_blocks_array (App.ciphertext st) ->
    App.handleDecrypt st
    = Ok {| App.keys := App.keys st;
            App.isGenerating := App.isGenerating st;
            App.inputMessage := App.inputMessage st;
            App.ciphertext := App.ciphertext st;
            App.decryptedText := [];
            App.encryptionStats := App.encryptionStats st;
            App.decryptError := Some App.decrypt_error;
            App.activeTab := App.activeTab st |}
    /\ forall (st' : App.State) (e : exn), App.handleDecrypt st' <> Throw e.
Proof.
  intros st kp Hk Hne Hc. split.
  - unfold App.handleDecrypt. rewrite Hk.
    destruct (App.ciphertext st) as [|c0 rest] eqn:E; [contradiction|].
    now rewrite (decryptText_no_blocks (sk kp) _ Hc).
  - intros st' e. unfold App.handleDecrypt.
    destruct (App.keys st'); [|discriminate].
    destruct (App.ciphertext st'); [discriminate|].
    destruct (decryptText _ _); discriminate.
Qed.

Lemma App_handleDecrypt_failure_witness :
  exists st',
    App.handleDecrypt
      {| App.keys := Some {| pk := {| A := []; b := [] |}; sk := ints [1; 2] |};
         App.isGenerating := false;
         App.inputMessage := [];
         App.ciphertext := "not base64!";
         App.decryptedText := [72; 105];
         App.encryptionStats := [];
         App.decryptError := None;
         App.activeTab := App.decrypt |}
    = Ok st'
    /\ App.decryptedText st' = []
    /\ App.decryptError st' = Some App.decrypt_error.
Proof.
  eexists. split.
  - refine (proj1 (App_handleDecrypt_failure _ _ _ _ _)).
    + reflexivity.
    + discriminate.
    + left. intros s H. vm_compute in H. discriminate H.
  - split; reflexivity.
Defined.

(** ** A public key without rows *)

Lemma utf8_encode_code_point_nonempty (c : Z) : utf8_encode_code_point c <> [].
Proof.
  unfold utf8_encode_code_point. destruct (c <=? 0x7F); [discriminate|].
  destruct (c <=? 0x7FF); [discriminate|].
  destruct (c <=? 0xFFFF); discriminate.
Qed.

(** X18: [encryptText] with a public key whose matrix has no rows throws a
    TypeError on every non-empty plaintext (the number of columns is read
    from the first row), and [handleEncrypt] then leaves the state of the
    application as it was. *)
Theorem encryptText_without_rows :
  forall (entropy : nat -> Z) (bv sv : Vector) (m : text) (now : Z) (k : nat)
         (st : App.State),
    m <> [] ->
    encryptText entropy {| A := []; b := bv |} m now k = Throw TypeError
    /\ (App.keys st = Some {| pk := {| A := []; b := bv |}; sk := sv |} ->
        App.inputMessage st = m ->
        App.handleEncrypt entropy st now k = Ok st).
Proof.
  intros entropy bv sv m now k st Hm.
  assert (E : encryptText entropy {| A := []; b := bv |} m now k = Throw TypeError).
  { destruct m as [|c m']; [contradiction|].
    unfold encryptText, TextEncoder_encode. cbn [flat_map].
    pose proof (utf8_encode_code_point_nonempty (if is_surrogate c then 0xFFFD else c)) as Hb.
    destruct (utf8_encode_code_point _) as [|byte bytes]; [contradiction|].
    cbn [app flat_map]. unfold byte_bits at 1. cbn [map app forEachM].
    unfold bind at 1. unfold bind at 1. unfold encryptBit at 1. unfold bind at 1.
    destruct (draws_repeatM _ _ _ M
                (draws_getRandomInt entropy 2 ltac:(reflexivity)) k)
      as (r & -> & _).
    reflexivity. }
  split; [exact E|].
  intros Hk Hi. unfold App.handleEncrypt. rewrite Hk, Hi. cbn [pk].
  destruct m as [|c m']; [contradiction|]. now rewrite E.
Qed.

Lemma encryptText_without_rows_witness :
  encryptText zeros {| A := []; b := [] |} [72; 105] 0 0%nat = Throw TypeError.
Proof.
  refine (proj1 (encryptText_without_rows zeros [] [] [72; 105] 0 0%nat
                   {| App.keys := None; App.isGenerating := false;
                      App.inputMessage := []; App.ciphertext := EmptyString;
                      App.decryptedText := []; App.encryptionStats := [];
                      App.decryptError := None; App.activeTab := App.encrypt |} _)).
  discriminate.
Defined.

Lemma all_between_repeat (lo hi z : Z) (n : nat) :
  lo <= z <= hi -> all_between lo hi (repeat z n).
Proof.
  intros H. apply Forall_forall. intros x Hx.
  apply repeat_spec in Hx. now subst x.
Defined.

Lemma block_bit_flip_witness :
  exists vz,
    v (block_doc (repeat (repeat 0 N) M)
         (noisy_product (repeat (repeat 0 N) M) (repeat 1 N) (repeat 2 M) Q)
         1 (repeat 1 M)) = Int vz
    /\ decryptBlock (ints (repeat 1 N))
         (json_of_block
            {| u := u (block_doc (repeat (repeat 0 N) M)
                         (noisy_product (repeat (repeat 0 N) M) (repeat 1 N)
                            (repeat 2 M) Q)
                         1 (repeat 1 M));
               v := Int ((vz + Q / 2) mod Q) |})
       = Ok (1 - 1).
Proof.
  destruct (block_bit_flip (repeat (repeat 0 N) M) (repeat 1 N) (repeat 2 M)
              (repeat 1 M) 1 dims_zero_matrix (repeat_length 1 N)
              (repeat_length 2 M)
              (all_between_repeat (-3) 3 2 M ltac:(lia))
              (conj (repeat_length 1 M) (all_between_repeat 0 1 1 M ltac:(lia)))
              ltac:(lia))
    as (vz & Ev & _ & Ef).
  exists vz. split; [exact Ev | exact Ef].
Defined.

(** ** The distribution of [getRandomInt] *)

(** X20: [getRandomInt(Q)] is not uniform on a uniform source.  It returns
    the residue [a] exactly for the raw 32-bit values [a + j*Q] with
    [0 <= j < preimages Q a]; there are 1290168 such values for each residue
    below 1353 and 1290167 for each of the others. *)
Theorem getRandomInt_bias :
  forall (entropy : nat -> Z) (k : nat) (a : Z),
    0 <= a < Q ->
    (getRandomInt entropy (Int Q) k = Ok (Int a, S k)
     <-> exists j, 0 <= j < preimages Q a /\ drawn entropy k = a + j * Q)
    /\ preimages Q a = (if a <? 1353 then 1290168 else 1290167).
Proof.
  intros entropy k a Ha.
  assert (HQ : 0 < Q) by reflexivity.
  pose proof (drawn_nonneg entropy k) as H0.
  assert (H1 : drawn entropy k < 2 ^ 32)
    by (unfold drawn; apply Z.mod_pos_bound; reflexivity).
  rewrite getRandomInt_drawn by exact HQ.
  replace (k + 1)%nat with (S k) by lia.
  unfold preimages. change Q with 3329 in *. change (2 ^ 32) with 4294967296 in *.
  split.
  - split.
    + intros E. injection E as E. exists (drawn entropy k / 3329).
      dlia.
    + intros (j & Hj & ->). do 3 f_equal.
      rewrite Z_mod_plus_full. apply Z.mod_small. lia.
  - destruct (a <? 1353) eqn:E; [apply Z.ltb_lt in E | apply Z.ltb_ge in E]; dlia.
Qed.

Lemma getRandomInt_bias_witness : preimages Q 5 = 1290168.
Proof. exact (proj2 (getRandomInt_bias zeros 0%nat 5 ltac:(unfold Q; lia))). Defined.

(** * Properties within the exact range of the numbers *)

(** ** Exact sums *)

Lemma exact_sum_bounded (n : nat) (f : nat -> Z) (P : Z) :
  (forall i, (i < n)%nat -> - P <= f i <= P) ->
  Z.of_nat n * P <= 2 ^ 53 ->
  exact_sum n f.
Proof.
  intros Hf Hn k Hk. unfold exact.
  pose proof (Hf k Hk) as Hfk.
  assert (HP : 0 <= P) by lia.
  pose proof (zsum_bound (S k) f P ltac:(intros; apply Hf; lia)) as Hs.
  assert (H1 : P * Z.of_nat (S k) <= Z.of_nat n * P) by nia.
  assert (H2 : P <= Z.of_nat n * P) by nia.
  lia.
Qed.

Lemma products_bounded (x y : list Z) (Bx By : Z) (i : nat) :
  all_between (- Bx) Bx x -> all_between (- By) By y ->
  (i < length x)%nat -> (i < length y)%nat ->
  - (Bx * By) <= entry x i * entry y i <= Bx * By.
Proof.
  intros Hx Hy Hi Hj.
  pose proof (all_between_entry _ _ x i Hx Hi).
  pose proof (all_between_entry _ _ y i Hy Hj). nia.
Qed.

Lemma exact_dot (x y : list Z) (Bx By : Z) (n : nat) :
  all_between (- Bx) Bx x -> all_between (- By) By y ->
  (n <= length x)%nat -> (n <= length y)%nat ->
  Z.of_nat n * (Bx * By) <= 2 ^ 53 ->
  exact_sum n (fun i => entry x i * entry y i).
Proof.
  intros Hx Hy Hnx Hny Hb. apply (exact_sum_bounded n _ (Bx * By)); [|exact Hb].
  intros i Hi. apply products_bounded; try assumption; lia.
Qed.

(** ** Modular linear algebra on exact numbers *)

(** On a matrix without rows the two matrix products throw, where the
    documented result is the empty list of sums. *)
Lemma empty_matrix_counterexample :
  dims [] 0 0
  /\ matVecMul (int_rows []) (ints []) (Int 7) = Throw TypeError
  /\ matTransVecMul (int_rows []) (ints []) (Int 7) = Throw TypeError
  /\ matVecMul_doc [] [] 7 = []
  /\ matTransVecMul_doc [] [] 7 0 = [].
Proof. repeat split. constructor. Qed.

(** C7 as amended: for a matrix of [m >= 1] rows and [n] columns, vectors
    of matching lengths, integer entries of magnitude at most [B] with
    [max(m, n, length x) * B^2 <= 2^53], and an integer modulus
    [0 < q <= 2^52], [matVecMul], [matTransVecMul], [vecDot] and [vecAdd]
    return the documented sums modulo [q], every entry a canonical
    representative in [0, q); every product, partial sum and sum of two
    entries on the way is exact, so that the numbers of the source are these
    integers; and [matVecMul([[1,2],[3,4]], [1,1], 7) = [3, 0]]. *)
Theorem linear_algebra_canonical :
  forall (a : list (list Z)) (s r x y : list Z) (q B : Z) (m n : nat),
    0 < q <= 2 ^ 52 -> (0 < m)%nat -> dims a m n ->
    length s = n -> length r = m -> length x = length y ->
    Forall (all_between (- B) B) a ->
    all_between (- B) B s -> all_between (- B) B r ->
    all_between (- B) B x -> all_between (- B) B y ->
    0 <= B <= 2 ^ 52 ->
    Z.of_nat (Nat.max (Nat.max m n) (length x)) * (B * B) <= 2 ^ 53 ->
    matVecMul (int_rows a) (ints s) (Int q) = Ok (ints (matVecMul_doc a s q))
    /\ matTransVecMul (int_rows a) (ints r) (Int q)
       = Ok (ints (matTransVecMul_doc a r q n))
    /\ vecDot (ints x) (ints y) (Int q) = Int (vecDot_doc x y q)
    /\ vecAdd (ints x) (ints y) (Int q) = ints (vecAdd_doc x y q)
    /\ all_in 0 q (matVecMul_doc a s q)
    /\ all_in 0 q (matTransVecMul_doc a r q n)
    /\ 0 <= vecDot_doc x y q < q
    /\ all_in 0 q (vecAdd_doc x y q)
    /\ (forall i, (i < m)%nat ->
          exact_sum n (fun j => entry (nth i a []) j * entry s j))
    /\ (forall j, (j < n)%nat ->
          exact_sum m (fun i => entry (nth i a []) j * entry r i))
    /\ exact_sum (length x) (fun i => entry x i * entry y i)
    /\ (forall i, (i < length x)%nat -> exact (entry x i + entry y i))
    /\ (forall z, exact (Z.rem z q + q))
    /\ matVecMul [[Int 1; Int 2]; [Int 3; Int 4]] [Int 1; Int 1] (Int 7)
       = Ok [Int 3; Int 0].
Proof.
  intros a s r x y q B m n Hq Hm Hd Hs Hr Hxy Ha Hbs Hbr Hbx Hby HB Hn.
  assert (Hq0 : 0 < q) by lia.
  assert (HBB : 0 <= B * B) by nia.
  split; [eapply matVecMul_ints; eassumption|].
  split; [eapply matTransVecMul_ints; eassumption|].
  split; [apply vecDot_ints; lia|].
  split; [apply vecAdd_ints; lia|].
  split; [apply mod_all_in; exact Hq0|].
  split; [apply mod_all_in; exact Hq0|].
  split; [apply Z.mod_pos_bound; exact Hq0|].
  split; [apply mod_all_in; exact Hq0|].
  assert (Hrow : forall i, (i < m)%nat -> all_between (- B) B (nth i a [])).
  { intros i Hi. rewrite Forall_forall in Ha. apply Ha, nth_In.
    destruct Hd as [Hlen _]. lia. }
  split.
  { intros i Hi. apply (exact_dot _ _ B B); try assumption.
    - now apply Hrow.
    - rewrite (row_length a m n i Hd Hi). lia.
    - lia.
    - nia. }
  split.
  { intros j Hj. apply (exact_sum_bounded m _ (B * B)); [|nia].
    intros i Hi.
    pose proof (all_between_entry _ _ (nth i a []) j (Hrow i Hi)
                  ltac:(rewrite (row_length a m n i Hd Hi); exact Hj)).
    pose proof (all_between_entry _ _ r i Hbr ltac:(lia)). nia. }
  split.
  { apply (exact_dot _ _ B B); try assumption; try lia. nia. }
  split.
  { intros i Hi.
    pose proof (all_between_entry _ _ x i Hbx Hi).
    pose proof (all_between_entry _ _ y i Hby ltac:(lia)).
    unfold exact. change (2 ^ 53) with (2 * 2 ^ 52). lia. }
  split.
  { intros z. pose proof (Z.rem_bound_abs z q ltac:(lia)).
    unfold exact. change (2 ^ 53) with (2 * 2 ^ 52). lia. }
  reflexivity.
Qed.

Lemma linear_algebra_canonical_witness :
  matVecMul (int_rows [[1; 2]; [3; 4]]) (ints [1; 1]) (Int 7)
  = Ok (ints (matVecMul_doc [[1; 2]; [3; 4]] [1; 1] 7)).
Proof.
  refine (proj1 (linear_algebra_canonical
                   [[1; 2]; [3; 4]] [1; 1] [1; 1] [5; 6] [3; 4] 7 6 2 2
                   _ _ _ _ _ _ _ _ _ _ _ _ _)).
  - split; [reflexivity | discriminate].
  - apply Nat.lt_0_succ.
  - split; [reflexivity | repeat constructor].
  - reflexivity.
  - reflexivity.
  - reflexivity.
  - repeat constructor; lia.
  - repeat constructor; lia.
  - repeat constructor; lia.
  - repeat constructor; lia.
  - repeat constructor; lia.
  - split; [lia | discriminate].
  - discriminate.
Defined.

(** ** Decryption of one block, on exact numbers *)



(** X19: the decision of [decryptText] tolerates a deviation of up to 831.
    For a block of integers within the range in which the numbers of the
    source are exact (as in C8), whose difference [v - sk.u] is, modulo Q,
    the encoding [bit * floor(Q/2)] of a bit plus a deviation [x] with
    [|x| <= 831], the block decrypts to that bit; with a deviation of 832 the
    bit 1 is read as 0. *)
Theorem decryptBlock_margin :
  forall (s uz : list Z) (vz bit x Bs Bu : Z),
    (length s <= length uz)%nat ->
    all_between (- Bs) Bs s -> all_between (- Bu) Bu uz ->
    Bs <= 2 ^ 53 -> Bu <= 2 ^ 53 ->
    Z.of_nat (length s) * (Bs * Bu) <= 2 ^ 53 ->
    Z.abs vz <= 2 ^ 53 - Q ->
    0 <= bit <= 1 -> - 831 <= x <= 831 ->
    (vz - vecDot_doc s uz Q) mod Q = (bit * (Q / 2) + x) mod Q ->
    decryptBlock (ints s) (json_of_block {| u := ints uz; v := Int vz |}) = Ok bit
    /\ exact_sum (length s) (fun i => entry s i * entry uz i)
    /\ exact (vz - vecDot_doc s uz Q)
    /\ decryptBlock (ints [1]) (json_of_block {| u := ints [0]; v := Int (1664 + 832) |})
       = Ok 0.
Proof.
  intros s uz vz bit x Bs Bu Hl Hs Hu HBs HBu Hb Hv Hbit Hx E.
  split; [|split; [|split]].
  2:{ apply (exact_dot _ _ Bs Bu); try assumption; lia. }
  2:{ pose proof (Z.mod_pos_bound (dot s uz) Q ltac:(reflexivity)).
      unfold exact, vecDot_doc. lia. }
  2:{ reflexivity. }
  rewrite decryptBlock_ints by exact Hl. f_equal.
  unfold decrypt_doc. rewrite E. clear E.
  unfold decide_bit, centered. change Q with 3329.
  change (3329 / 2) with 1664. change (3329 / 4) with 832.
  assert (Hc : bit = 0 \/ bit = 1) by lia.
  destruct Hc as [-> | ->].
  - destruct (Z_lt_le_dec x 0) as [Hneg|Hpos].
    + rewrite <- (Z_mod_plus_full _ 1), Z.mod_small by lia.
      destruct (3329 - 832 <? _) eqn:E1; [|apply Z.ltb_ge in E1; lia].
      destruct (Z.abs _ <? 832) eqn:E2; [apply Z.ltb_lt in E2; lia | reflexivity].
    + rewrite Z.mod_small by lia.
      destruct (3329 - 832 <? _) eqn:E1; [apply Z.ltb_lt in E1; lia|].
      destruct (Z.abs _ <? 832) eqn:E2; [apply Z.ltb_lt in E2; lia | reflexivity].
  - rewrite Z.mod_small by lia.
    destruct (3329 - 832 <? _) eqn:E1; [apply Z.ltb_lt in E1; lia|].
    destruct (Z.abs _ <? 832) eqn:E2; [reflexivity | apply Z.ltb_ge in E2; lia].
Qed.

Lemma decryptBlock_margin_witness :
  decryptBlock (ints [1; -2]) (json_of_block {| u := ints [5; 7]; v := Int 2486 |})
  = Ok 1.
Proof.
  refine (proj1 (decryptBlock_margin [1; -2] [5; 7] 2486 1 831 2 3328
                   _ _ _ _ _ _ _ _ _ _)).
  - apply Nat.le_refl.
  - repeat constructor; lia.
  - repeat constructor; lia.
  - discriminate.
  - discriminate.
  - discriminate.
  - discriminate.
  - lia.
  - lia.
  - reflexivity.
Defined.

(** ** The byte cipher, on exact numbers *)

Lemma exact_key_steps (kz : list Z) :
  exact_key kz ->
  forall d k, 0 <= d <= 255 -> In k kz -> exact (d + k) /\ exact (d - k).
Proof.
  intros H d k Hd Hk. unfold exact_key in H. rewrite Forall_forall in H.
  specialize (H k Hk). unfold exact. lia.
Qed.

(** X11: round trip of the byte cipher.  For every non-empty key of integers
    of magnitude at most 2^53 - 255 (entries outside 0..255 and negative
    ones included; every sum of a byte and a key entry is then exact) and
    every string, [decryptText(encryptText(text, key), key)] returns the
    text with each unpaired surrogate replaced by U+FFFD and one leading
    U+FEFF, if any, removed. *)
Theorem byte_cipher_round_trip :
  forall (s : text) (kz : list Z),
    code_points s -> kz <> [] -> exact_key kz ->
    Crypto.decryptText (Crypto.encryptText s (ints kz)) (ints kz)
    = Ok (without_BOM (USVString s))
    /\ forall d k, 0 <= d <= 255 -> In k kz -> exact (d + k) /\ exact (d - k).
Proof.
  intros s kz Hs Hk He. split; [now apply byte_cipher_inverse|].
  now apply exact_key_steps.
Qed.

Lemma byte_cipher_round_trip_witness :
  Crypto.decryptText (Crypto.encryptText [72; 105; 0x20AC] (ints [200; -7; 300]))
                     (ints [200; -7; 300])
  = Ok [72; 105; 0x20AC].
Proof.
  refine (proj1 (byte_cipher_round_trip [72; 105; 0x20AC] [200; -7; 300] _ _ _)).
  - repeat constructor; lia.
  - discriminate.
  - repeat constructor; discriminate.
Defined.

(** X14: [decryptText] of the byte cipher never throws.  A text that is not
    base64 makes it return the sentence "Error: Invalid Cipher Text or Key"
    as if it were the message; and under every non-empty key of integers of
    magnitude at most 2^53 - 255 there is a well-formed ciphertext that
    decrypts to this very sentence, so the result alone does not tell a
    failure from a success. *)
Theorem byte_cipher_error_in_band :
  forall (kz : list Z),
    kz <> [] -> exact_key kz ->
    (forall (c : string) (key : Crypto.KeyArray) (e : exn),
        Crypto.decryptText c key <> Throw e)
    /\ (forall (c : string) (e : exn),
          Base64.atob c = Throw e ->
          Crypto.decryptText c (ints kz) = Ok Crypto.decryption_error)
    /\ (exists (c binaryString : string),
         Base64.atob c = Ok binaryString
         /\ Crypto.decryptText c (ints kz) = Ok Crypto.decryption_error)
    /\ forall d k, 0 <= d <= 255 -> In k kz -> exact (d + k) /\ exact (d - k).
Proof.
  intros kz Hk He. split; [|split; [|split]]; [| | |now apply exact_key_steps].
  - intros c key e. unfold Crypto.decryptText.
    destruct (length key =? 0)%nat; [discriminate|].
    destruct (Base64.atob c); discriminate.
  - intros c e H. unfold Crypto.decryptText.
    now rewrite key_not_empty, H by exact Hk.
  - exists (Crypto.encryptText Crypto.decryption_error (ints kz)).
    eexists. split.
    + rewrite encryptText_bytes by exact Hk. apply atob_btoa.
    + apply (byte_cipher_inverse Crypto.decryption_error kz);
        [apply code_points_charCodes | exact Hk].
Qed.

Lemma byte_cipher_error_in_band_witness :
  Crypto.decryptText "not base64!" (ints [1; 2; 3]) = Ok Crypto.decryption_error.
Proof.
  refine (proj1 (proj2 (byte_cipher_error_in_band [1; 2; 3] _ _))
            "not base64!"%string InvalidCharacterError _).
  - discriminate.
  - repeat constructor; discriminate.
  - vm_compute. reflexivity.
Defined.

(** X21: one known message gives the key away.  For a non-empty key of
    integers of magnitude at most 2^53 - 255, the bytes behind the base64
    text of a ciphertext are as many as the bytes of the UTF-8 encoding of
    the message, and the difference of the two bytes at position [i],
    modulo 256, is the key entry [key[i mod L]] modulo 256. *)
Theorem byte_cipher_known_plaintext :
  forall (s : text) (kz : list Z),
    kz <> [] -> exact_key kz ->
    exists out,
      Base64.atob (Crypto.encryptText s (ints kz)) = Ok (Crypto.fromCharCodes out)
      /\ length out = length (TextEncoder_encode s)
      /\ all_in 0 256 out
      /\ (forall i, (i < length out)%nat ->
           (nth i out 0 - nth i (TextEncoder_encode s) 0) mod 256
           = entry kz (i mod length kz) mod 256)
      /\ forall d k, 0 <= d <= 255 -> In k kz -> exact (d + k) /\ exact (d - k).
Proof.
  intros s kz Hk He. rewrite encryptText_bytes by exact Hk.
  eexists. split; [apply atob_btoa|].
  split; [now rewrite length_map, length_seq|].
  split; [apply mod_all_in; reflexivity|].
  split; [|now apply exact_key_steps].
  rewrite length_map, length_seq. intros i Hi.
  set (data := TextEncoder_encode s) in *.
  rewrite (nth_indep _ 0 ((fun i => (nth i data 0
                                     + entry kz (i mod length kz)) mod 256) 0%nat))
    by (rewrite length_map, length_seq; lia).
  rewrite (map_nth (fun i => (nth i data 0 + entry kz (i mod length kz)) mod 256)).
  rewrite seq_nth by lia. cbn [Nat.add].
  rewrite Zminus_mod_idemp_l. f_equal. ring.
Qed.

Lemma byte_cipher_known_plaintext_witness :
  exists out,
    Base64.atob (Crypto.encryptText [72; 105] (ints [200; -7])) = Ok (Crypto.fromCharCodes out)
    /\ length out = 2%nat.
Proof.
  destruct (byte_cipher_known_plaintext [72; 105] [200; -7]
              ltac:(discriminate) ltac:(repeat constructor; discriminate))
    as (out & E & Hl & _).
  exists out. split; [exact E | exact Hl].
Defined.

(** ** The clock of the recorder *)

Lemma padStart_seconds (y : Z) :
  0 <= y < 60 -> padStart (decimal y) 2 "0" = two_digits y.
Proof.
  intros Hy. rewrite <- (Z2Nat.id y) by lia.
  assert (Hk : (Z.to_nat y < 60)%nat) by lia.
  generalize dependent (Z.to_nat y). clear Hy. intros k Hk.
  do 60 (destruct k as [|k]; [reflexivity|]). lia.
Qed.

Lemma toString_digits (y : Z) :
  0 <= y < 10 ^ 21 -> toString (Int y) = Ok (decimal y).
Proof.
  intros Hy. unfold toString.
  destruct (Z.abs y <? 10 ^ 21) eqn:E; [|apply Z.ltb_ge in E; lia].
  destruct (y <? 0) eqn:E2; [apply Z.ltb_lt in E2; lia | reflexivity].
Qed.

(** X15: [formatTime(s)], for a whole number of seconds [0 <= s <= 2^53], is
    the number of whole minutes in decimal, a colon, and the remaining
    seconds on exactly two digits; different durations in this range give
    different texts. *)
Theorem formatTime_clock :
  forall (z : Z),
    0 <= z <= 2 ^ 53 ->
    formatTime (Int z)
    = Ok (decimal (z / 60) ++ ":"
          ++ String (char (48 + z mod 60 / 10))
               (String (char (48 + z mod 60 mod 10)) EmptyString))%string
    /\ forall (z' : Z),
         0 <= z' <= 2 ^ 53 -> formatTime (Int z') = formatTime (Int z) -> z' = z.
Proof.
  assert (H : forall z, 0 <= z <= 2 ^ 53 ->
                formatTime (Int z)
                = Ok (decimal (z / 60) ++ String ":" (two_digits (z mod 60)))%string).
  { intros z Hz. unfold formatTime, floor_minutes, floor_div, rem.
    destruct (Z.abs z <=? 2 ^ 53) eqn:E; [|apply Z.leb_gt in E; lia].
    cbn [rbind Z.eqb]. rewrite Z.rem_mod_nonneg by lia.
    assert (H21 : 2 ^ 53 < 10 ^ 21) by reflexivity.
    rewrite toString_digits by dlia. cbn [rbind].
    rewrite toString_digits by dlia. cbn [rbind].
    rewrite padStart_seconds by (apply Z.mod_pos_bound; lia). reflexivity. }
  intros z Hz. split; [exact (H z Hz)|].
  intros z' Hz' E. rewrite (H z Hz), (H z' Hz') in E.
  assert (E' : (decimal (z' / 60) ++ String ":" (two_digits (z' mod 60)))%string
               = (decimal (z / 60) ++ String ":" (two_digits (z mod 60)))%string)
    by congruence.
  apply minutes_injective in E'; [|dlia|dlia].
  destruct E' as [Em Es].
  apply two_digits_injective in Es; [|dlia|dlia]. dlia.
Qed.

Lemma formatTime_clock_witness :
  formatTime (Int 754) = Ok "12:34"%string.
Proof.
  refine (proj1 (formatTime_clock 754 _)). split; [lia | discriminate].
Defined.

(** ** The vectors that encryption samples *)

Lemma sampled_binary (entropy : nat -> Z) (k : nat) :
  binary_vector (sampled entropy k).
Proof.
  unfold sampled. split; [now rewrite length_map, length_seq|].
  apply Forall_map, Forall_forall. intros j _.
  pose proof (Z.mod_pos_bound (drawn entropy (k + j)) 2 ltac:(reflexivity)). lia.
Qed.

Lemma repeatM_sampled (entropy : nat -> Z) (k : nat) :
  repeatM M (getRandomInt entropy (Int 2)) k
  = Ok (ints (sampled entropy k), (k + M)%nat).
Proof.
  rewrite (repeatM_draw _ _ 1 M
             (fun k => getRandomInt_drawn entropy 2 k ltac:(reflexivity)) k).
  unfold sampled, ints. rewrite map_map, Nat.mul_1_r. do 2 f_equal.
  all: try (apply map_ext; intros j; now rewrite Nat.mul_1_r).
Qed.

Lemma encryptBit_sampled (entropy : nat -> Z) (a : list (list Z)) (bz : list Z)
  (bit : Z) (index k : nat) :
  dims a M N -> length bz = M -> 0 <= bit <= 1 ->
  encryptBit entropy {| A := int_rows a; b := ints bz |} bit index k
  = Ok ((block_doc a bz bit (sampled entropy k),
         stat_doc bz bit (sampled entropy k) index), (k + M)%nat).
Proof.
  intros Hd Hb Hbit. unfold encryptBit. cbn [A b].
  destruct (sampled_binary entropy k) as [Hr1 Hr].
  rewrite (bind_ok _ _ _ _ _ (repeatM_sampled entropy k)).
  rewrite (matTransVecMul_ints a _ Q M N ltac:(reflexivity)
             ltac:(apply Nat.lt_0_succ) Hd Hr1).
  rewrite vecDot_ints by (try reflexivity; lia).
  unfold lift, rbind, bind, ret. cbn [mul add].
  assert (HQ : 0 < Q) by reflexivity.
  pose proof (Z.mod_pos_bound (dot bz (sampled entropy k)) Q HQ) as Hv.
  assert (Hh : 0 <= floor_div Q 2) by discriminate.
  assert (Hrem : rem (Int (vecDot_doc bz (sampled entropy k) Q
                           + bit * floor_div Q 2)) (Int Q)
                 = Int ((vecDot_doc bz (sampled entropy k) Q
                         + bit * (Q / 2)) mod Q)).
  { unfold rem. change (Q =? 0) with false. cbv beta iota. f_equal.
    apply Z.rem_mod_nonneg; [|exact HQ].
    unfold vecDot_doc. apply Z.add_nonneg_nonneg; [lia|].
    apply Z.mul_nonneg_nonneg; [lia | exact Hh]. }
  rewrite Hrem. reflexivity.
Qed.

Lemma forEachM_sampled (entropy : nat -> Z) (a : list (list Z)) (bz : list Z)
  (bits : list Z) :
  dims a M N -> length bz = M -> all_between 0 1 bits ->
  forall index k,
  exists pushed,
    forEachM (encryptBit entropy {| A := int_rows a; b := ints bz |}) bits index k
    = Ok (pushed, (k + length bits * M)%nat)
    /\ map fst pushed
       = map (fun i => block_doc a bz (nth i bits 0) (sampled entropy (k + i * M)))
             (seq 0 (length bits)).
Proof.
  intros Hd Hb Hbits. induction Hbits as [|bit bits Hbit _ IH]; intros index k.
  - exists []. cbn. unfold ret. rewrite Nat.add_0_r. split; reflexivity.
  - destruct (IH (S index) (k + M)%nat) as (pushed & E2 & Hf).
    eexists. cbn [forEachM].
    rewrite (bind_ok _ _ _ _ _
               (encryptBit_sampled entropy a bz bit index k Hd Hb Hbit)).
    rewrite (bind_ok _ _ _ _ _ E2). unfold ret.
    split; [do 2 f_equal; cbn [length]; rewrite Nat.mul_succ_l; lia|].
    cbn [map fst length seq nth]. rewrite Hf.
    rewrite Nat.mul_0_l, Nat.add_0_r. f_equal.
    rewrite <- seq_shift, map_map. apply map_ext. intros i.
    cbn [nth]. do 2 f_equal. lia.
Qed.

(** C6: [encryptText] expands the UTF-8 bytes of the plaintext into bits,
    most significant bit first, and emits for each bit, in order, one block
    [{u, v}].  For the bit of index [i] it draws M values from the random
    source, the draws [k + i*M] to [k + i*M + M - 1] when [k] values had
    been drawn before, and the vector [r] of these values modulo 2 is a
    binary vector of length M with [u = matTransVecMul(A, r)] of length N and
    [v = (vecDot(b, r) + bit * floor(Q/2)) mod Q]; the ciphertext is the
    base64 text of the container that holds these blocks in that order.
    The public key has M rows, N columns and integer entries of magnitude at
    most [B] with [M * B <= 2^53] (a key of the data model has its entries
    in [0, Q)), so that every product and partial sum is exact. *)
Theorem encryptText_blocks :
  forall (entropy : nat -> Z) (a : list (list Z)) (bz : list Z) (B : Z)
         (plaintext : text) (now : Z) (k : nat),
    dims a M N -> length bz = M ->
    Forall (all_between (- B) B) a -> all_between (- B) B bz ->
    0 <= B -> Z.of_nat M * B <= 2 ^ 53 ->
    let pk := {| A := int_rows a; b := ints bz |} in
    let bits := flat_map msb_first (TextEncoder_encode plaintext) in
    exists (blks : list EncryptedBlock) (sts : list Stat),
      encryptText entropy pk plaintext now k
      = Ok ({| ciphertext := Base64.btoa (stringify (container_of blks now));
               stats := sts |}, (k + length bits * M)%nat)
      /\ length blks = length bits
      /\ forall (i : nat) (d : EncryptedBlock),
           (i < length bits)%nat ->
           let r := sampled entropy (k + i * M) in
           binary_vector r
           /\ block_for pk (nth i bits 0) r (nth i blks d)
           /\ (forall j, (j < N)%nat ->
                 exact_sum M (fun l => entry (nth l a []) j * entry r l))
           /\ exact_sum M (fun l => entry bz l * entry r l).
Proof.
  intros entropy a bz B plaintext now k Hd Hb Ha Hbz HB HM pk bits.
  pose proof (bits_binary (TextEncoder_encode plaintext)) as Hbits.
  rewrite flat_map_byte_bits in Hbits. fold bits in Hbits.
  destruct (forEachM_sampled entropy a bz bits Hd Hb Hbits 0%nat k)
    as (pushed & E & Hf).
  eexists _, _. split; [|split].
  - unfold encryptText. rewrite flat_map_byte_bits. fold bits.
    rewrite (bind_ok _ _ _ _ _ E). unfold ret. rewrite Hf. reflexivity.
  - now rewrite length_map, length_seq.
  - intros i d Hi r.
    destruct (sampled_binary entropy (k + i * M)) as [Hr1 Hr]. fold r in Hr1, Hr.
    assert (Hr' : all_between (- 1) 1 r).
    { eapply Forall_impl; [|exact Hr]. cbv beta. intros z Hz. lia. }
    split; [split; assumption|]. split; [|split].
    + set (f := fun i : nat => _).
      rewrite (nth_indep _ d (f 0%nat))
        by (rewrite length_map, length_seq; exact Hi).
      rewrite (map_nth f), seq_nth by exact Hi. subst f. cbn [Nat.add].
      apply block_doc_for; [exact Hd | exact Hb | split; assumption].
    + intros j Hj. apply (exact_sum_bounded M _ B); [|exact HM].
      intros l Hl.
      assert (Hrow : all_between (- B) B (nth l a [])).
      { rewrite Forall_forall in Ha. apply Ha, nth_In.
        destruct Hd as [Hlen _]. lia. }
      pose proof (all_between_entry _ _ (nth l a []) j Hrow
                    ltac:(rewrite (row_length a M N l Hd Hl); exact Hj)).
      pose proof (all_between_entry _ _ r l Hr' ltac:(lia)). nia.
    + apply (exact_dot _ _ B 1); try assumption; try lia.
Qed.

Lemma dims_repeat (z : Z) : dims (repeat (repeat z N) M) M N.
Proof.
  split; [apply repeat_length|].
  apply Forall_forall. intros row Hrow.
  apply repeat_spec in Hrow. subst row. apply repeat_length.
Defined.

Lemma encryptText_blocks_witness :
  exists blks sts,
    encryptText (fun k => Z.of_nat k)
      {| A := int_rows (repeat (repeat 1 N) M); b := ints (repeat 1 M) |}
      [72; 105] 0 0%nat
    = Ok ({| ciphertext := Base64.btoa (stringify (container_of blks 0));
             stats := sts |}, (0 + 16 * M)%nat)
    /\ length blks = 16%nat
    /\ block_for {| A := int_rows (repeat (repeat 1 N) M); b := ints (repeat 1 M) |}
         1 (sampled (fun k => Z.of_nat k) (0 + 1 * M))
         (nth 1 blks {| u := []; v := NaN |}).
Proof.
  assert (H1 : - (1) <= 1 <= 1) by lia.
  assert (Ha : Forall (all_between (- (1)) 1) (repeat (repeat 1 N) M)).
  { apply Forall_forall. intros row Hrow. apply repeat_spec in Hrow.
    subst row. now apply all_between_repeat. }
  destruct (encryptText_blocks (fun k => Z.of_nat k) (repeat (repeat 1 N) M)
              (repeat 1 M) 1 [72; 105] 0 0%nat (dims_repeat 1)
              (repeat_length 1 M) Ha (all_between_repeat _ _ 1 M H1)
              ltac:(lia) ltac:(discriminate))
    as (blks & sts & E & Hl & H).
  exists blks, sts. split; [exact E|]. split; [exact Hl|].
  refine (proj1 (proj2 (H 1%nat {| u := []; v := NaN |} _))).
  apply Nat.ltb_lt. reflexivity.
Defined.

(** * Ciphertexts that do not hold a text *)

(** ** The decoder replaces what is not UTF-8 *)












(** ** When decryption fails *)








